(** * sollniss/pattern: random strings from composable pattern parts

    A shallow embedding of the Go package [pattern] and of its [internal]
    random helpers, followed by the properties of the combinators.

    Conventions of the embedding:
    - [uint32] and [uint64] values are integers of [Z]; every operation
      that can wrap in Go has its reduction written out ([u32], [u64]).
    - [[]byte] and [string] are [list ascii]; a [rune] is an integer.
    - [float64] is [spec_float] at precision 53 and maximal exponent 1024,
      i.e. IEEE 754 binary64.
    - a panic is the [Panic] result.
    - [internal.Fastrand] reads the next raw 64-bit value of a stream held
      in the state. The cell [*uint64] of a [sequence] and the backing array
      of a [shuffle] live in the state as well: every copy of such a node
      refers to the same cell or array, as every copy of the Go value does.
    - every constructor is called with an argument slice of its own (the
      variadic call form), so that the backing array of a [shuffle] is
      shared by the copies of that node only.
    - an [int] (the pad width, a buffer length) is an unbounded integer: the
      package runs with 32-bit and 64-bit ints alike.
    - the run is sequential: one goroutine calls [Append]. *)

From Stdlib Require Import ZArith Lia Ascii String Permutation.
From Stdlib Require Import Floats.SpecFloat.
From stdpp Require Import base list gmap strings.

Local Open Scope Z_scope.

(** ** Results and panics *)

Inductive result (A : Type) : Type :=
| Ok (a : A)
| Panic (msg : string).
Arguments Ok {A} a.
Arguments Panic {A} msg.

Notation "'let!' x ':=' e 'in' k" :=
  (match e with Ok x => k | Panic msg => Panic msg end)
  (at level 10, x pattern, e at level 100, k at level 200,
   format "'[v' 'let!'  x  ':='  e  'in' '/' k ']'").

Definition is_ok {A} (r : result A) : Prop :=
  match r with Ok _ => True | Panic _ => False end.

Definition is_panic {A} (r : result A) : Prop :=
  match r with Ok _ => False | Panic _ => True end.

(** ** Machine integers, bytes and floats *)

Definition u32 (z : Z) : Z := z mod 2 ^ 32.
Definition u64 (z : Z) : Z := z mod 2 ^ 64.

Definition is_u32 (z : Z) : Prop := 0 <= z < 2 ^ 32.
Definition is_u64 (z : Z) : Prop := 0 <= z < 2 ^ 64.

(** Go's [int], 64 bits wide: the result of signed arithmetic, which wraps
    around. *)
Definition int_min : Z := - 2 ^ 63.
Definition int_max : Z := 2 ^ 63 - 1.
Definition to_int (z : Z) : Z := (z + 2 ^ 63) mod 2 ^ 64 - 2 ^ 63.
Definition is_int (z : Z) : Prop := int_min <= z <= int_max.

Definition byte_of (z : Z) : ascii := ascii_of_N (Z.to_N (z mod 256)).

Abbreviation buf := (list ascii).
Abbreviation bytes s := (list_ascii_of_string s).

Definition float64 : Type := spec_float.
Definition f64_lt : float64 -> float64 -> bool := SFltb.
Definition f64_le : float64 -> float64 -> bool := SFleb.
Definition f64_eq : float64 -> float64 -> bool := SFeqb.
Definition f64_mul : float64 -> float64 -> float64 := SFmul 53 1024.
Definition f64_of_Z (z : Z) : float64 := binary_normalize 53 1024 z 0 false.

Definition f64_zero : float64 := S754_zero false.
Definition f64_one : float64 := S754_finite false 4503599627370496 (-52).
Definition f64_half : float64 := S754_finite false 4503599627370496 (-53).

(** ** The state a generation runs in *)

Record state : Type := State {
  raw : nat -> Z;                 (* what successive Fastrand calls return *)
  drawn : nat;                    (* how many raw values were consumed *)
  cells : gmap nat Z;             (* the uint64 cells sequences point to *)
  arrays : gmap nat (list nat)    (* backing arrays of shuffles *)
}.

Definition set_drawn (st : state) (n : nat) : state :=
  State (raw st) n (cells st) (arrays st).
Definition set_cells (st : state) (c : gmap nat Z) : state :=
  State (raw st) (drawn st) c (arrays st).
Definition set_arrays (st : state) (a : gmap nat (list nat)) : state :=
  State (raw st) (drawn st) (cells st) a.

(** ** Package internal *)

Module internal.

Definition int53Mask : Z := 2 ^ 53 - 1.
(* 0x1.0p-53 *)
Definition f53Mul : float64 := S754_finite false 4503599627370496 (-105).

(** [Fastrand] returns the next raw value, as a uint64. *)
Definition Fastrand (st : state) : Z * state :=
  (u64 (raw st (drawn st)), set_drawn st (S (drawn st))).

(** [bits.Mul64]: the 128-bit product of two uint64, as (hi, lo). *)
Definition Mul64 (x y : Z) : Z * Z :=
  ((x * y) / 2 ^ 64, (x * y) mod 2 ^ 64).

(** The body of [RandN] at the raw value [r]:
    [res, _ := bits.Mul64(uint64(n), r); return uint32(res)]. *)
Definition scale (n r : Z) : Z := u32 (fst (Mul64 n r)).

Definition RandN (n : Z) (st : state) : Z * state :=
  let '(r, st') := Fastrand st in (scale n r, st').

(** The body of [RandFloat64] at the raw value [r]:
    [float64(r & int53Mask) * f53Mul]. *)
Definition unit_float (r : Z) : float64 :=
  f64_mul (f64_of_Z (Z.land r int53Mask)) f53Mul.

Definition RandFloat64 (st : state) : float64 * state :=
  let '(r, st') := Fastrand st in (unit_float r, st').

End internal.

(** ** Package pattern: the parts *)

(** One constructor per concrete type that implements [Part]. The pointer
    [curr] of a [sequence] and the backing array of the slice [parts] of a
    [shuffle] are locations of the state. A [shuffle] keeps the parts it was
    built from in [parts]; the array at [arr] lists, slot by slot, which of
    them the slot holds now. *)
#[local] Set Warnings "-register-all".
Inductive Part : Type :=
| gen (parts : list Part)
| nullpart
| group (parts : list Part)
| repeat (parts : list Part) (min maxr : Z)
| potentially50 (part : Part)
| potentiallyP (part : Part) (percent : float64)
| literal (s : buf)
| anyOf (parts : list Part) (len : Z)
| anyOfString (alphabet : list string) (len : Z)
| anyOfByte (alphabet : buf) (len : Z)
| anyOfRune (alphabet : list Z) (len : Z)
| shuffle (parts : list Part) (arr : nat) (len : Z)
| sequence (start max width : Z) (curr : nat).

(** ** The integer formatter *)

Definition itob (u : Z) : ascii := byte_of (48 + u mod 256).

(** An indexed store [b[i] = x]; Go panics out of range. *)
Definition store_byte (b : buf) (i : nat) (x : ascii) : result buf :=
  if decide (i < length b)%nat then Ok (<[i := x]> b)
  else Panic "index out of range".

(** [for u2 := u; u2 > 0; u2 /= 10 { n++ }] *)
Fixpoint count_loop (fuel : nat) (u2 n : Z) : Z :=
  match fuel with
  | O => n
  | S fuel' => if 0 <? u2 then count_loop fuel' (u2 / 10) (n + 1) else n
  end.

(** [for pad := width - n; pad > 0; pad-- { b = append(b, '0') }] *)
Fixpoint pad_loop (pad : nat) (b : buf) : buf :=
  match pad with
  | O => b
  | S pad' => pad_loop pad' (b ++ ["0"%char])
  end.

(** [for u >= 10 && i > 0 { q := u / 10; b[i] = itob(u - q*10); u = q; i-- }]
    followed by [b[i] = itob(u)]. *)
Fixpoint write_loop (i : nat) (u : Z) (b : buf) : result buf :=
  match i with
  | S i' =>
      if 10 <=? u then
        let q := u / 10 in
        let! b' := store_byte b i (itob (u - q * 10)) in
        write_loop i' q b'
      else store_byte b i (itob u)
  | O => store_byte b O (itob u)
  end.

(** A uint64 has at most 20 decimal digits, which bounds the counting loop.
    [pad := width - n] is computed in [int] and wraps around: for a [width]
    within [n] of the least [int] the padding count is not negative but
    close to [2^63]. The padding loop appends [pad] bytes one at a time, and
    a slice is never longer than [2^63 - 1] bytes: when [pad + n] is above
    that, whatever [b] holds the call does not return, [append] panics on
    the way unless the memory gives out before. For a [width] that is an
    [int] this is exactly the case in which [width - n] has wrapped.
    The [n] bytes added before the digits are written are all overwritten,
    whether they come from spare capacity or from [make]. *)
Definition appendInt (b : buf) (u : Z) (width : Z) : result buf :=
  let n := (if u =? 0 then 1 else 0) in
  let n := count_loop 20 u n in
  let pad := to_int (width - n) in
  if int_max <? pad + n then Panic "growslice: len out of range"
  else
    let b := pad_loop (Z.to_nat pad) b in
    let b := b ++ replicate (Z.to_nat n) zero in
    write_loop (length b - 1)%nat u b.

(** ** Conversion of a rune to its UTF-8 bytes, [string(r)] *)

Definition encode_rune (r : Z) : buf :=
  if (r <? 0) || (1114111 <? r) || ((55296 <=? r) && (r <=? 57343))
  then [byte_of 239; byte_of 191; byte_of 189]
  else if r <=? 127 then [byte_of r]
  else if r <=? 2047 then
    [byte_of (Z.lor 192 (Z.shiftr r 6));
     byte_of (Z.lor 128 (Z.land r 63))]
  else if r <=? 65535 then
    [byte_of (Z.lor 224 (Z.shiftr r 12));
     byte_of (Z.lor 128 (Z.land (Z.shiftr r 6) 63));
     byte_of (Z.lor 128 (Z.land r 63))]
  else
    [byte_of (Z.lor 240 (Z.shiftr r 18));
     byte_of (Z.lor 128 (Z.land (Z.shiftr r 12) 63));
     byte_of (Z.lor 128 (Z.land (Z.shiftr r 6) 63));
     byte_of (Z.lor 128 (Z.land r 63))].

(** ** Atomic operations on a cell and accesses to a backing array *)

Definition LoadUint64 (addr : nat) (st : state) : result Z :=
  match cells st !! addr with
  | Some v => Ok v
  | None => Panic "invalid memory address or nil pointer dereference"
  end.

Definition CompareAndSwapUint64 (addr : nat) (old new : Z) (st : state)
  : result (bool * state) :=
  match cells st !! addr with
  | Some v =>
      if v =? old then Ok (true, set_cells st (<[addr := new]> (cells st)))
      else Ok (false, st)
  | None => Panic "invalid memory address or nil pointer dereference"
  end.

(** [a[i], a[j] = a[j], a[i]] on the array at [arr]. *)
Definition swap_slots (arr : nat) (i j : nat) (st : state) : result state :=
  match arrays st !! arr with
  | None => Panic "invalid memory address or nil pointer dereference"
  | Some a =>
      match a !! i, a !! j with
      | Some ai, Some aj =>
          Ok (set_arrays st (<[arr := <[j := ai]> (<[i := aj]> a)]> (arrays st)))
      | _, _ => Panic "index out of range"
      end
  end.

(** The Fisher-Yates pass of [shuffle.Append]:
    [for i := p.len - 1; i > 0; i-- { j := RandN(i + 1); swap i j }]. *)
Fixpoint shuffle_loop (arr : nat) (i : nat) (st : state) : result state :=
  match i with
  | O => Ok st
  | S i' =>
      let '(j, st1) := internal.RandN (u32 (Z.of_nat i + 1)) st in
      let! st2 := swap_slots arr i (Z.to_nat j) st1 in
      shuffle_loop arr i' st2
  end.

(** ** Append *)

Section traversals.
Variable append1 : Part -> state -> buf -> result (buf * state).

(** [for _, p := range parts { b = p.Append(b) }] *)
Fixpoint appendAll (ps : list Part) (st : state) (b : buf)
  : result (buf * state) :=
  match ps with
  | [] => Ok (b, st)
  | q :: qs =>
      let! (b', st') := append1 q st b in
      appendAll qs st' b'
  end.

(** [parts[n].Append(b)] *)
Fixpoint appendNth (ps : list Part) (n : nat) (st : state) (b : buf)
  : result (buf * state) :=
  match ps, n with
  | [], _ => Panic "index out of range"
  | q :: _, O => append1 q st b
  | _ :: qs, S n' => appendNth qs n' st b
  end.

Section over_parts.
Variable ps : list Part.

(** [for i := uint32(0); i < n; i++ { for _, p := range parts {...} }] *)
Fixpoint repeat_loop (n : nat) (st : state) (b : buf)
  : result (buf * state) :=
  match n with
  | O => Ok (b, st)
  | S n' =>
      let! (b', st') := appendAll ps st b in
      repeat_loop n' st' b'
  end.

(** [for i := uint32(0); i < p.len; i++ { b = p.parts[i].Append(b) }]
    with [todo] iterations left and [i] the next slot to read; the slot
    holds [k], and the part in it is the one the shuffle was built with at
    position [k]. *)
Fixpoint emit_loop (arr : nat) (todo : nat) (i : nat) (st : state) (b : buf)
  : result (buf * state) :=
  match todo with
  | O => Ok (b, st)
  | S todo' =>
      match arrays st !! arr with
      | None => Panic "invalid memory address or nil pointer dereference"
      | Some a =>
          match a !! i with
          | None => Panic "index out of range"
          | Some k =>
              let! (b', st') := appendNth ps k st b in
              emit_loop arr todo' (S i) st' b'
          end
      end
  end.
End over_parts.
End traversals.

(** [n := internal.RandN(p.len); return append(b, p.alphabet[n]...)] and its
    siblings: the draw, then the indexed read that panics out of range. *)
Definition pick {A} (alphabet : list A) (len : Z) (st : state)
  : result (A * state) :=
  let '(n, st') := internal.RandN len st in
  match alphabet !! Z.to_nat n with
  | Some x => Ok (x, st')
  | None => Panic "index out of range"
  end.

(** [Append], by the concrete type of the part. The body of the loop of
    [sequence.Append] runs once: with one goroutine the compare-and-swap
    compares the cell with the value just loaded from it and succeeds. The
    branch that retries is kept as a panic, which no run reaches. *)
Fixpoint Append (p : Part) (st : state) (b : buf) {struct p}
  : result (buf * state) :=
  match p with
  | gen parts => appendAll Append parts st b
  | nullpart => Ok (b, st)
  | group parts => appendAll Append parts st b
  | repeat parts min maxr =>
      let '(r, st1) := internal.RandN maxr st in
      let n := u32 (r + min) in
      repeat_loop Append parts (Z.to_nat n) st1 b
  | potentially50 part =>
      let '(r, st1) := internal.Fastrand st in
      if Z.land r 1 =? 1 then Append part st1 b else Ok (b, st1)
  | potentiallyP part percent =>
      let '(f, st1) := internal.RandFloat64 st in
      if f64_le f percent then Append part st1 b else Ok (b, st1)
  | literal s => Ok (b ++ s, st)
  | anyOf parts len =>
      let '(n, st1) := internal.RandN len st in
      appendNth Append parts (Z.to_nat n) st1 b
  | anyOfString alphabet len =>
      let! (s, st1) := pick alphabet len st in
      Ok (b ++ bytes s, st1)
  | anyOfByte alphabet len =>
      let! (c, st1) := pick alphabet len st in
      Ok (b ++ [c], st1)
  | anyOfRune alphabet len =>
      let! (r, st1) := pick alphabet len st in
      Ok (b ++ encode_rune r, st1)
  | shuffle parts arr len =>
      let! st1 := shuffle_loop arr (Z.to_nat (u32 (len - 1))) st in
      emit_loop Append parts arr (Z.to_nat len) O st1 b
  | sequence start max width curr =>
      let! last := LoadUint64 curr st in
      let c := u64 (last + 1) in
      let c := if (max <? c) || (c <? start) then start else c in
      let! (swapped, st1) := CompareAndSwapUint64 curr last c st in
      if swapped : bool then
        let! b' := appendInt b c width in Ok (b', st1)
      else Panic "compare-and-swap lost against a concurrent writer"
  end.

(** ** Constructors *)

(** The loop of [New]: [nullpart]s are skipped, a [group] is unwrapped, any
    other part is appended. *)
Fixpoint New_loop (p : list Part) (parts : list Part) : list Part :=
  match p with
  | [] => parts
  | v :: rest =>
      match v with
      | nullpart => New_loop rest parts
      | group g => New_loop rest (parts ++ g)
      | _ => New_loop rest (parts ++ [v])
      end
  end.

Definition New (p : list Part) : Part := gen (New_loop p []).

(** [gen.String], for the generator whose parts are [parts]. *)
Definition gen_String (parts : list Part) (st : state)
  : result (string * state) :=
  let! (b, st') := appendAll Append parts st [] in
  Ok (string_of_list_ascii b, st').

Definition Group (p : list Part) : Part :=
  match p with
  | [q] => q
  | _ => group p
  end.

(** [for i := uint32(0); i < max; i++ { g = append(g, p...) }] *)
Fixpoint Repeat_fill (i : nat) (g p : list Part) : list Part :=
  match i with
  | O => g
  | S i' => Repeat_fill i' (g ++ p) p
  end.

Definition Repeat (min max : Z) (p : list Part) : result Part :=
  if max =? 0 then Panic "max must be > 0"
  else if max <? min then Panic "max must be >= min"
  else if (0 <? min) && (min =? max) then
    Ok (group (Repeat_fill (Z.to_nat max) [] p))
  else if (min =? 0) && (max =? 1) then
    Ok (potentially50 (Group p))
  else Ok (repeat p min (u32 ((max - min) + 1))).

Definition Potentially (c : float64) (p : Part) : result Part :=
  if f64_lt c f64_zero then Panic "chance must be > 0"
  else if f64_eq c f64_zero then Ok nullpart
  else if f64_le f64_one c then Ok p
  else if f64_eq c f64_half then Ok (potentially50 p)
  else Ok (potentiallyP p c).

Definition Literal (s : string) : Part := literal (bytes s).

Definition OneOf (p : list Part) : Part :=
  match p with
  | [q] => q
  | _ => anyOf p (u32 (Z.of_nat (length p)))
  end.

Definition OneOfString (s : list string) : Part :=
  anyOfString s (u32 (Z.of_nat (length s))).

Definition OneOfByte (b : buf) : Part :=
  anyOfByte b (u32 (Z.of_nat (length b))).

Definition OneOfRune (r : list Z) : Part :=
  anyOfRune r (u32 (Z.of_nat (length r))).

(** [Shuffle] keeps the slice it is given; its backing array is a new
    location holding the parts in the order given. *)
Definition Shuffle (p : list Part) (st : state) : Part * state :=
  let arr := fresh (dom (arrays st)) in
  (shuffle p arr (u32 (Z.of_nat (length p))),
   set_arrays st (<[arr := seq 0 (length p)]> (arrays st))).

(** [Sequence] allocates the cell [curr], initialised to [start - 1]. *)
Definition Sequence (start max width : Z) (st : state)
  : result (Part * state) :=
  if max <? start then Panic "max must be >= min"
  else
    let curr := fresh (dom (cells st)) in
    Ok (sequence start max width curr,
        set_cells st (<[curr := u64 (start - 1)]> (cells st))).

(** ** Runs on concrete inputs *)

Definition st0 (f : nat -> Z) : state := State f 0 ∅ ∅.

Definition output (r : result (buf * state)) : option string :=
  match r with
  | Ok (b, _) => Some (string_of_list_ascii b)
  | Panic _ => None
  end.

(** [n] successive calls of [String] on the same generator. *)
Fixpoint strings (n : nat) (parts : list Part) (st : state) : list string :=
  match n with
  | O => []
  | S n' =>
      match gen_String parts st with
      | Ok (s, st') => s :: strings n' parts st'
      | Panic _ => []
      end
  end.

(** ** Notions the statements use *)

(** The first raw value that [scale n] sends to [k] or above:
    the ceiling of [k * 2^64 / n]. *)
Definition first_raw (n k : Z) : Z := (k * 2 ^ 64 + n - 1) / n.

(** [attained f k c]: the raw values that [f] sends to [k] are exactly [c]
    consecutive values of the uint64 range. *)
Definition attained (f : Z -> Z) (k c : Z) : Prop :=
  exists lo, 0 <= lo /\ 0 <= c /\ lo + c <= 2 ^ 64 /\
    forall r, is_u64 r -> (f r = k <-> lo <= r < lo + c).

(** Every result below [n] of [scale n] is attained by the same number of
    raw values. *)
Definition equidistributed (n : Z) : Prop :=
  forall k1 k2 c1 c2, 0 <= k1 < n -> 0 <= k2 < n ->
    attained (internal.scale n) k1 c1 -> attained (internal.scale n) k2 c2 ->
    c1 = c2.

(** The iteration count [n] of [repeat.Append] at the raw value [r]. *)
Definition repeat_count (min maxr r : Z) : Z :=
  u32 (internal.scale maxr r + min).

(** Every count of [min..max] is drawn by the same number of raw values. *)
Definition repeat_equidistributed (min max : Z) : Prop :=
  forall m1 m2 c1 c2, min <= m1 <= max -> min <= m2 <= max ->
    attained (repeat_count min (u32 (max - min + 1))) m1 c1 ->
    attained (repeat_count min (u32 (max - min + 1))) m2 c2 ->
    c1 = c2.

(** The character of a decimal digit. *)
Definition digit (d : Z) : ascii :=
  match d with
  | 0 => "0" | 1 => "1" | 2 => "2" | 3 => "3" | 4 => "4"
  | 5 => "5" | 6 => "6" | 7 => "7" | 8 => "8" | 9 => "9"
  | _ => "?"
  end%char.

(** The decimal digits of [u], most significant first. A number below
    [10 * 2^fuel] is written out in full. *)
Fixpoint decimal_fuel (fuel : nat) (u : Z) : buf :=
  match fuel with
  | O => [digit u]
  | S fuel' =>
      if u <? 10 then [digit u]
      else decimal_fuel fuel' (u / 10) ++ [digit (u mod 10)]
  end.

Definition decimal (u : Z) : buf := decimal_fuel (Z.to_nat (Z.log2 u)) u.

(** [u] in decimal, with zeros in front up to [width] digits. *)
Definition zero_padded (width u : Z) : buf :=
  replicate (Z.to_nat (width - Z.of_nat (length (decimal u)))) "0"%char
    ++ decimal u.

(** The value a [sequence] emits when its cell holds [last]. *)
Definition sequence_next (start max last : Z) : Z :=
  let c := u64 (last + 1) in
  if (max <? c) || (c <? start) then start else c.

(** What a run can change in the state: cells keep their addresses, a
    backing array keeps its slots up to their order, the raw stream is the
    same. *)
Definition evolves (st st' : state) : Prop :=
  raw st' = raw st /\
  (forall l, is_Some (cells st !! l) -> is_Some (cells st' !! l)) /\
  (forall l a, arrays st !! l = Some a ->
     exists a', arrays st' !! l = Some a' /\ a' ≡ₚ a).

(** [Append] returned a buffer that extends [b], in a state [st] evolved
    into. *)
Definition extends (st : state) (b : buf) (r : result (buf * state)) : Prop :=
  match r with
  | Ok (b', st') => evolves st st' /\ exists out, b' = b ++ out
  | Panic _ => True
  end.

(** The integer fields of a part hold values of their Go types. *)
Fixpoint typed (p : Part) {struct p} : Prop :=
  let all :=
    fix all (ps : list Part) : Prop :=
      match ps with
      | [] => True
      | q :: qs => typed q /\ all qs
      end in
  match p with
  | gen parts | group parts => all parts
  | repeat parts min maxr => is_u32 min /\ is_u32 maxr /\ all parts
  | nullpart | literal _ => True
  | potentially50 part | potentiallyP part _ => typed part
  | anyOf parts len => is_u32 len /\ all parts
  | anyOfString _ len | anyOfByte _ len | anyOfRune _ len => is_u32 len
  | shuffle parts _ len => is_u32 len /\ all parts
  | sequence start max _ _ => is_u64 start /\ is_u64 max
  end.

(** A [width] for which [appendInt] pads as asked: an [int] from which the
    number of digits of a uint64, at most 20, can be taken without passing
    below the least [int]. *)
Definition width_fits (width : Z) : Prop := int_min + 20 <= width <= int_max.

(** Every sequence in the part has such a width. *)
Fixpoint widths_fit (p : Part) {struct p} : Prop :=
  let all :=
    fix all (ps : list Part) : Prop :=
      match ps with
      | [] => True
      | q :: qs => widths_fit q /\ all qs
      end in
  match p with
  | gen parts | group parts | repeat parts _ _ | anyOf parts _
  | shuffle parts _ _ => all parts
  | potentially50 part | potentiallyP part _ => widths_fit part
  | nullpart | literal _ | anyOfString _ _ | anyOfByte _ _ | anyOfRune _ _ =>
      True
  | sequence _ _ width _ => width_fits width
  end.

(** The parts the constructors build from non-empty alphabets and child
    lists, in a state that holds their cells and arrays: the stored length
    is the length of the alphabet, a choice or a shuffle has at least one
    entry, the array of a shuffle has one slot per part and a sequence
    points to a cell. *)
Fixpoint well_formed (st : state) (p : Part) {struct p} : Prop :=
  let all :=
    fix all (ps : list Part) : Prop :=
      match ps with
      | [] => True
      | q :: qs => well_formed st q /\ all qs
      end in
  match p with
  | gen parts | group parts => all parts
  | repeat parts min maxr => is_u32 min /\ is_u32 maxr /\ all parts
  | nullpart | literal _ => True
  | potentially50 part | potentiallyP part _ => well_formed st part
  | anyOf parts len =>
      parts <> [] /\ len = u32 (Z.of_nat (length parts)) /\ all parts
  | anyOfString alphabet len =>
      alphabet <> [] /\ len = u32 (Z.of_nat (length alphabet))
  | anyOfByte alphabet len =>
      alphabet <> [] /\ len = u32 (Z.of_nat (length alphabet))
  | anyOfRune alphabet len =>
      alphabet <> [] /\ len = u32 (Z.of_nat (length alphabet))
  | shuffle parts arr len =>
      parts <> [] /\ len = u32 (Z.of_nat (length parts)) /\
      (exists a, arrays st !! arr = Some a /\ length a = length parts /\
                 Forall (fun k => k < length parts)%nat a) /\
      all parts
  | sequence start max width curr =>
      (is_u64 start /\ is_u64 max) /\ is_Some (cells st !! curr)
  end.

(** The parts that the constructors build, the Choice family and [Shuffle]
    from at least one entry; [built st p] reads: [p] has been built by the
    time the state is [st]. A part stays built while other parts are built
    and while generators run. *)
Inductive built : state -> Part -> Prop :=
| built_New st ps :
    (forall q, q ∈ ps -> built st q) -> built st (New ps)
| built_Group st ps :
    (forall q, q ∈ ps -> built st q) -> built st (Group ps)
| built_Repeat st min max ps p :
    is_u32 min -> is_u32 max -> (forall q, q ∈ ps -> built st q) ->
    Repeat min max ps = Ok p -> built st p
| built_Potentially st c q p :
    built st q -> Potentially c q = Ok p -> built st p
| built_Literal st s : built st (Literal s)
| built_OneOf st ps :
    ps <> [] -> (forall q, q ∈ ps -> built st q) -> built st (OneOf ps)
| built_OneOfString st s : s <> [] -> built st (OneOfString s)
| built_OneOfByte st b : b <> [] -> built st (OneOfByte b)
| built_OneOfRune st r : r <> [] -> built st (OneOfRune r)
| built_Shuffle st ps p st' :
    ps <> [] -> (forall q, q ∈ ps -> built st q) ->
    Shuffle ps st = (p, st') -> built st' p
| built_Sequence st start max width p st' :
    is_u64 start -> is_u64 max ->
    Sequence start max width st = Ok (p, st') -> built st' p
| built_later st st' p :
    evolves st st' -> built st p -> built st' p.

(** What [New] puts in the generator for one argument. *)
Definition is_marker (v : Part) : bool :=
  match v with
  | nullpart | group _ => true
  | _ => false
  end.

Definition gen_parts (g : Part) : list Part :=
  match g with
  | gen parts => parts
  | _ => []
  end.

(** ** The Fisher-Yates pass on a list *)

(** [l[i], l[j] = l[j], l[i]] *)
Definition swap {A} (l : list A) (i j : nat) : list A :=
  match l !! i, l !! j with
  | Some x, Some y => <[j := x]> (<[i := y]> l)
  | _, _ => l
  end.

(** The pass from index [i] down to 1, the draw for each index given by
    [js]. *)
Fixpoint fisher_yates {A} (i : nat) (js : list nat) (l : list A) : list A :=
  match i, js with
  | S i', j :: js' => fisher_yates i' js' (swap l i j)
  | _, _ => l
  end.

(** One draw per index from [i] down to 1, the draw for an index at most
    that index. *)
Fixpoint admissible (i : nat) (js : list nat) : Prop :=
  match i, js with
  | O, [] => True
  | S i', j :: js' => (j <= i)%nat /\ admissible i' js'
  | _, _ => False
  end.

(** All admissible draws. *)
Fixpoint all_draws (i : nat) : list (list nat) :=
  match i with
  | O => [[]]
  | S i' => j ← seq 0 (S i); cons j <$> all_draws i'
  end.

(** The draws that the pass of [shuffle.Append] makes from the state [st]:
    [RandN(i + 1)] for [i] down to 1, on successive raw values. *)
Fixpoint draws (i : nat) (st : state) : list nat :=
  match i with
  | O => []
  | S i' =>
      Z.to_nat (fst (internal.RandN (u32 (Z.of_nat i + 1)) st))
        :: draws i' (snd (internal.RandN (u32 (Z.of_nat i + 1)) st))
  end.

(** [f] extends the buffer on the part [q], if typed. *)
Definition extending (f : Part -> state -> buf -> result (buf * state))
    (q : Part) : Prop :=
  typed q -> forall st b, extends st b (f q st b).

(** The parts on which [Append] returns from every state they are
    well-formed in, when the widths of their sequences fit. *)
Definition returning (q : Part) : Prop :=
  forall st b, well_formed st q -> widths_fit q -> is_ok (Append q st b).

(** Some shuffle inside [p] has its backing array at [arr]. *)
Fixpoint shuffles_at (arr : nat) (p : Part) {struct p} : Prop :=
  let any :=
    fix any (ps : list Part) : Prop :=
      match ps with
      | [] => False
      | q :: qs => shuffles_at arr q \/ any qs
      end in
  match p with
  | gen parts | group parts | repeat parts _ _ | anyOf parts _ => any parts
  | potentially50 part | potentiallyP part _ => shuffles_at arr part
  | shuffle parts l _ => l = arr \/ any parts
  | nullpart | literal _ | anyOfString _ _ | anyOfByte _ _ | anyOfRune _ _
  | sequence _ _ _ _ => False
  end.

(** [r] leaves the array at [arr] as it is in [st]. *)
Definition keeps (arr : nat) (st : state) (r : result (buf * state)) : Prop :=
  match r with
  | Ok (_, st') => arrays st' !! arr = arrays st !! arr
  | Panic _ => True
  end.

(** [f] leaves the array at [arr] alone on a part that has no shuffle
    there. *)
Definition keeping (arr : nat)
    (f : Part -> state -> buf -> result (buf * state)) (q : Part) : Prop :=
  ~ shuffles_at arr q -> forall st b, keeps arr st (f q st b).

(** ** Induction on parts *)

Section Part_induction.
Variable P : Part -> Prop.
Hypothesis Hgen : forall parts, Forall P parts -> P (gen parts).
Hypothesis Hnull : P nullpart.
Hypothesis Hgroup : forall parts, Forall P parts -> P (group parts).
Hypothesis Hrepeat :
  forall parts min maxr, Forall P parts -> P (repeat parts min maxr).
Hypothesis H50 : forall part, P part -> P (potentially50 part).
Hypothesis HP : forall part percent, P part -> P (potentiallyP part percent).
Hypothesis Hliteral : forall s, P (literal s).
Hypothesis HanyOf : forall parts len, Forall P parts -> P (anyOf parts len).
Hypothesis HanyOfString : forall alphabet len, P (anyOfString alphabet len).
Hypothesis HanyOfByte : forall alphabet len, P (anyOfByte alphabet len).
Hypothesis HanyOfRune : forall alphabet len, P (anyOfRune alphabet len).
Hypothesis Hshuffle :
  forall parts arr len, Forall P parts -> P (shuffle parts arr len).
Hypothesis Hsequence :
  forall start max width curr, P (sequence start max width curr).

Definition Forall_of (F : forall p, P p) : forall ps, Forall P ps :=
  fix go (ps : list Part) : Forall P ps :=
    match ps with
    | [] => @List.Forall_nil Part P
    | q :: qs => @List.Forall_cons Part P q qs (F q) (go qs)
    end.

Fixpoint Part_nested_ind (p : Part) : P p :=
  match p with
  | gen parts => Hgen parts (Forall_of Part_nested_ind parts)
  | nullpart => Hnull
  | group parts => Hgroup parts (Forall_of Part_nested_ind parts)
  | repeat parts min maxr =>
      Hrepeat parts min maxr (Forall_of Part_nested_ind parts)
  | potentially50 part => H50 part (Part_nested_ind part)
  | potentiallyP part percent => HP part percent (Part_nested_ind part)
  | literal s => Hliteral s
  | anyOf parts len => HanyOf parts len (Forall_of Part_nested_ind parts)
  | anyOfString alphabet len => HanyOfString alphabet len
  | anyOfByte alphabet len => HanyOfByte alphabet len
  | anyOfRune alphabet len => HanyOfRune alphabet len
  | shuffle parts arr len =>
      Hshuffle parts arr len (Forall_of Part_nested_ind parts)
  | sequence start max width curr => Hsequence start max width curr
  end.
End Part_induction.

(** ** Package internal: the fast byte reader *)

(** [binary.LittleEndian.PutUint64(b[n:n+8], v)] of Go's library: a bounds
    check on the eighth byte, then the bytes of [v] from the low one up. *)
Definition PutUint64 (b : buf) (n : nat) (v : Z) : result buf :=
  if decide (n + 7 < length b)%nat then
    let! b := store_byte b n (byte_of v) in
    let! b := store_byte b (n + 1) (byte_of (Z.shiftr v 8)) in
    let! b := store_byte b (n + 2) (byte_of (Z.shiftr v 16)) in
    let! b := store_byte b (n + 3) (byte_of (Z.shiftr v 24)) in
    let! b := store_byte b (n + 4) (byte_of (Z.shiftr v 32)) in
    let! b := store_byte b (n + 5) (byte_of (Z.shiftr v 40)) in
    let! b := store_byte b (n + 6) (byte_of (Z.shiftr v 48)) in
    store_byte b (n + 7) (byte_of (Z.shiftr v 56))
  else Panic "index out of range".

(** [for ; n+8 <= len(b); n += 8 { PutUint64(b[n:n+8], Fastrand()) }];
    every round moves [n] on by 8, so [len(b)] rounds are enough. *)
Fixpoint fill_words (fuel : nat) (n : nat) (b : buf) (st : state)
  : result (nat * buf * state) :=
  match fuel with
  | O => Ok (n, b, st)
  | S fuel' =>
      if decide (n + 8 <= length b)%nat then
        let '(v, st') := internal.Fastrand st in
        let! b' := PutUint64 b n v in
        fill_words fuel' (n + 8) b' st'
      else Ok (n, b, st)
  end.

(** [for ; n < len(b); n++ { b[n] = byte(val); val >>= 8 }] *)
Fixpoint fill_tail (fuel : nat) (n : nat) (val : Z) (b : buf)
  : result (nat * buf) :=
  match fuel with
  | O => Ok (n, b)
  | S fuel' =>
      if decide (n < length b)%nat then
        let! b' := store_byte b n (byte_of val) in
        fill_tail fuel' (n + 1) (Z.shiftr val 8) b'
      else Ok (n, b)
  end.

(** [internal.FastRandomReader]: the count it returns, the buffer as it
    leaves it, and the state. *)
Definition FastRandomReader (b : buf) (st : state)
  : result (nat * buf * state) :=
  let! (n, b, st) := fill_words (length b) O b st in
  if decide (n < length b)%nat then
    let '(val, st') := internal.Fastrand st in
    let! (n, b) := fill_tail (length b) n val b in
    Ok (n, b, st')
  else Ok (n, b, st).

(** ** Notions of the further properties *)

(** The value of a string of decimal digits. *)
Definition digit_value (c : ascii) : Z := Z.of_N (N_of_ascii c) - 48.

Definition parse_decimal (s : buf) : Z :=
  fold_left (fun acc c => acc * 10 + digit_value c) s 0.

Definition is_digit (c : ascii) : Prop := 0 <= digit_value c <= 9.

(** What [Append] gives on the buffer [b], from what it gives on the empty
    one. *)
Definition rebase (b : buf) (r : result (buf * state)) : result (buf * state) :=
  match r with
  | Ok (out, st') => Ok (b ++ out, st')
  | Panic msg => Panic msg
  end.

(** [f] gives on any buffer what it gives on the empty one, put after the
    buffer. *)
Definition rebasing (f : Part -> state -> buf -> result (buf * state))
    (q : Part) : Prop :=
  typed q -> forall st b, f q st b = rebase b (f q st []).

(** The [i]-th value a sequence emits, counting from 0. *)
Definition sequence_value (start max : Z) (i : Z) : Z :=
  start + i mod (max - start + 1).

(** Byte [k] of what [FastRandomReader] writes when the raw stream is [f]
    and [d] values were drawn before: byte [k mod 8], from the low end, of
    the value number [d + k / 8]. *)
Definition random_byte (f : nat -> Z) (d : nat) (k : nat) : ascii :=
  byte_of (Z.shiftr (u64 (f (d + k / 8)%nat)) (8 * Z.of_nat (k mod 8))).

(** * Properties *)

(** ** Integer arithmetic *)

(** Case analysis on every integer comparison of the goal. *)
Ltac zbool :=
  repeat match goal with
    | |- context [Z.eqb ?a ?b] => destruct (Z.eqb_spec a b)
    | |- context [Z.ltb ?a ?b] => destruct (Z.ltb_spec a b)
    | |- context [Z.leb ?a ?b] => destruct (Z.leb_spec a b)
    end.

Lemma le_div_iff (a n r : Z) : 0 < n -> (r <= a / n <-> n * r <= a).
Proof.
  intros Hn.
  pose proof (Z.div_mod a n ltac:(lia)) as Hdm.
  pose proof (Z.mod_pos_bound a n Hn) as Hb.
  split; intros H; nia.
Qed.

Lemma div_lt_iff (a n r : Z) : 0 < n -> (a / n < r <-> a < n * r).
Proof.
  intros Hn. pose proof (le_div_iff a n r Hn). lia.
Qed.

Lemma u32_small (z : Z) : is_u32 z -> u32 z = z.
Proof. intros H. apply Z.mod_small, H. Qed.

Lemma u64_small (z : Z) : is_u64 z -> u64 z = z.
Proof. intros H. apply Z.mod_small, H. Qed.

Lemma u32_range (z : Z) : is_u32 (u32 z).
Proof. apply Z.mod_pos_bound. reflexivity. Qed.

Lemma u64_range (z : Z) : is_u64 (u64 z).
Proof. apply Z.mod_pos_bound. reflexivity. Qed.

(** ** uniformUint32: the scaling of a raw value *)

Section scaling.
Import internal.

Lemma attained_unique (f : Z -> Z) (k c1 c2 : Z) :
  attained f k c1 -> attained f k c2 -> c1 = c2.
Proof.
  intros (l1 & Hl1 & Hc1 & Hu1 & H1) (l2 & Hl2 & Hc2 & Hu2 & H2).
  assert (Hx : forall r, is_u64 r -> (l1 <= r < l1 + c1 <-> l2 <= r < l2 + c2)).
  { intros r Hr. rewrite <- (H1 r Hr), <- (H2 r Hr). tauto. }
  unfold is_u64 in Hx.
  destruct (Z.eq_dec c1 0) as [-> | N1].
  - destruct (Z.eq_dec c2 0) as [-> | N2]; [reflexivity |].
    specialize (Hx l2). lia.
  - destruct (Z.eq_dec c2 0) as [-> | N2].
    + specialize (Hx l1). lia.
    + pose proof (Hx l1). pose proof (Hx l2).
      pose proof (Hx (l1 + c1 - 1)). pose proof (Hx (l2 + c2 - 1)). lia.
Qed.

Lemma scale_high (n r : Z) :
  is_u32 n -> is_u64 r -> scale n r = n * r / 2 ^ 64.
Proof.
  unfold is_u32, is_u64, scale, Mul64. intros Hn Hr. cbn [fst].
  apply u32_small. unfold is_u32. split.
  - apply Z.div_pos; nia.
  - apply div_lt_iff; nia.
Qed.

Lemma scale_zero (r : Z) : scale 0 r = 0.
Proof. reflexivity. Qed.

Lemma scale_range (n r : Z) :
  0 < n -> is_u32 n -> is_u64 r -> 0 <= scale n r < n.
Proof.
  intros H0 Hn Hr. rewrite scale_high by assumption.
  unfold is_u32, is_u64 in *. split.
  - apply Z.div_pos; nia.
  - apply div_lt_iff; nia.
Qed.

Lemma scale_preimage (n k r : Z) :
  0 < n -> is_u32 n -> is_u64 r ->
  (scale n r = k <-> first_raw n k <= r < first_raw n (k + 1)).
Proof.
  intros H0 Hn Hr. rewrite scale_high by assumption.
  unfold first_raw, is_u32, is_u64 in *.
  assert (H64 : 0 < 2 ^ 64) by reflexivity.
  set (M := 2 ^ 64) in *.
  assert (E1 : (k * M + n - 1) / n <= r <-> k * M <= n * r).
  { pose proof (div_lt_iff (k * M + n - 1) n (r + 1) H0). lia. }
  assert (E2 : r < ((k + 1) * M + n - 1) / n <-> n * r < (k + 1) * M).
  { pose proof (le_div_iff ((k + 1) * M + n - 1) n (r + 1) H0). lia. }
  rewrite E1, E2.
  pose proof (le_div_iff (n * r) M k H64).
  pose proof (div_lt_iff (n * r) M (k + 1) H64).
  lia.
Qed.

Lemma first_raw_0 (n : Z) : 0 < n -> first_raw n 0 = 0.
Proof.
  intros H. unfold first_raw. apply Z.div_small. lia.
Qed.

Lemma first_raw_top (n : Z) : 0 < n -> first_raw n n = 2 ^ 64.
Proof.
  intros H. unfold first_raw.
  replace (n * 2 ^ 64 + n - 1) with ((n - 1) + 2 ^ 64 * n) by lia.
  rewrite Z.div_add by lia. rewrite Z.div_small by lia. lia.
Qed.

Lemma first_raw_step (n k : Z) :
  0 < n -> 
  first_raw n (k + 1) - first_raw n k = 2 ^ 64 / n \/
  first_raw n (k + 1) - first_raw n k = 2 ^ 64 / n + 1.
Proof.
  intros H0. unfold first_raw. set (M := 2 ^ 64).
  set (t := k * M + n - 1).
  replace ((k + 1) * M + n - 1) with (t + M) by (unfold t; lia).
  pose proof (Z.div_mod t n ltac:(lia)) as Ht.
  pose proof (Z.mod_pos_bound t n H0) as Bt.
  pose proof (Z.div_mod M n ltac:(lia)) as HM.
  pose proof (Z.mod_pos_bound M n H0) as BM.
  pose proof (Z.div_mod (t + M) n ltac:(lia)) as Hs.
  pose proof (Z.mod_pos_bound (t + M) n H0) as Bs.
  nia.
Qed.

Lemma first_raw_step_exact (n k : Z) :
  0 < n -> 2 ^ 64 mod n = 0 ->
  first_raw n (k + 1) - first_raw n k = 2 ^ 64 / n.
Proof.
  intros H0 Hd. unfold first_raw. set (M := 2 ^ 64) in *.
  pose proof (Z.div_mod M n ltac:(lia)) as HM. rewrite Hd in HM.
  replace ((k + 1) * M + n - 1) with ((k * M + n - 1) + (M / n) * n) by lia.
  rewrite Z.div_add by lia. lia.
Qed.

Lemma first_raw_mono (n k : Z) :
  0 < n -> first_raw n k <= first_raw n (k + 1).
Proof.
  intros H0. pose proof (first_raw_step n k H0).
  assert (0 <= 2 ^ 64 / n) by (apply Z.div_pos; lia). lia.
Qed.

Lemma first_raw_nonneg (n k : Z) : 0 < n -> 0 <= k -> 0 <= first_raw n k.
Proof.
  intros H0 Hk. unfold first_raw. apply Z.div_pos; lia.
Qed.

Lemma first_raw_le_top (n k : Z) :
  0 < n -> k <= n -> first_raw n k <= 2 ^ 64.
Proof.
  intros H0 Hk. rewrite <- (first_raw_top n H0). unfold first_raw.
  apply Z.div_le_mono; nia.
Qed.

Lemma scale_attained (n k : Z) :
  0 < n -> is_u32 n -> 0 <= k < n ->
  attained (scale n) k (first_raw n (k + 1) - first_raw n k).
Proof.
  intros H0 Hn Hk. exists (first_raw n k).
  pose proof (first_raw_mono n k H0).
  pose proof (first_raw_nonneg n k H0 ltac:(lia)).
  pose proof (first_raw_le_top n (k + 1) H0 ltac:(lia)).
  split; [lia | split; [lia | split; [lia |]]].
  intros r Hr. rewrite (scale_preimage n k r H0 Hn Hr). lia.
Qed.
End scaling.

(** C8 (as amended). For [0 < n < 2^32] and every raw uint64 [r], the high
    word of the 128-bit product [n * r], cut to 32 bits, is [n * r / 2^64]
    and lies in [0, n); [RandN] consumes exactly one raw value. Each result
    [k] of [0, n) is attained by [2^64 / n] or [2^64 / n + 1] raw values, and
    by exactly [2^64 / n] when [n] divides [2^64]. *)
Theorem RandN_in_range_nearly_uniform (n : Z) :
  0 < n -> is_u32 n ->
  (forall r, is_u64 r ->
     internal.scale n r = n * r / 2 ^ 64 /\ 0 <= internal.scale n r < n) /\
  (forall st,
     fst (internal.RandN n st) = internal.scale n (u64 (raw st (drawn st))) /\
     0 <= fst (internal.RandN n st) < n /\
     snd (internal.RandN n st) = set_drawn st (S (drawn st))) /\
  (forall k, 0 <= k < n ->
     exists c, attained (internal.scale n) k c /\
       (c = 2 ^ 64 / n \/ c = 2 ^ 64 / n + 1) /\
       (2 ^ 64 mod n = 0 -> c = 2 ^ 64 / n)).
Proof.
  intros H0 Hn. split; [| split].
  - intros r Hr. split; [apply scale_high | apply scale_range]; assumption.
  - intros st. cbn. split; [reflexivity | split; [| reflexivity]].
    apply scale_range; [assumption .. | apply u64_range].
  - intros k Hk. exists (first_raw n (k + 1) - first_raw n k).
    split; [apply scale_attained; assumption |].
    split; [apply first_raw_step; assumption |].
    intros Hd. apply first_raw_step_exact; assumption.
Qed.

Lemma RandN_in_range_nearly_uniform_witness :
  (forall r, is_u64 r ->
     internal.scale 3 r = 3 * r / 2 ^ 64 /\ 0 <= internal.scale 3 r < 3) /\
  (forall st,
     fst (internal.RandN 3 st) = internal.scale 3 (u64 (raw st (drawn st))) /\
     0 <= fst (internal.RandN 3 st) < 3 /\
     snd (internal.RandN 3 st) = set_drawn st (S (drawn st))) /\
  (forall k, 0 <= k < 3 ->
     exists c, attained (internal.scale 3) k c /\
       (c = 2 ^ 64 / 3 \/ c = 2 ^ 64 / 3 + 1) /\
       (2 ^ 64 mod 3 = 0 -> c = 2 ^ 64 / 3)).
Proof.
  apply (RandN_in_range_nearly_uniform 3); unfold is_u32; lia.
Defined.

(** C8 (as stated) fails at [n = 3]: 6148914691236517206 raw values give 0
    and 6148914691236517205 give 1. *)
Lemma RandN_3_not_equidistributed :
  attained (internal.scale 3) 0 6148914691236517206 /\
  attained (internal.scale 3) 1 6148914691236517205 /\
  ~ equidistributed 3.
Proof.
  assert (A0 : attained (internal.scale 3) 0 6148914691236517206).
  { apply (scale_attained 3 0); unfold is_u32; lia. }
  assert (A1 : attained (internal.scale 3) 1 6148914691236517205).
  { apply (scale_attained 3 1); unfold is_u32; lia. }
  split; [exact A0 | split; [exact A1 |]].
  intros H. specialize (H 0 1 _ _ ltac:(lia) ltac:(lia) A0 A1). discriminate H.
Qed.

(** ** Traversals *)

Lemma appendAll_app (f : Part -> state -> buf -> result (buf * state))
    (xs ys : list Part) (st : state) (b : buf) :
  appendAll f (xs ++ ys) st b =
  let! (b', st') := appendAll f xs st b in appendAll f ys st' b'.
Proof.
  revert st b. induction xs as [| x xs IH]; intros st b; cbn.
  - reflexivity.
  - destruct (f x st b) as [[b' st'] | msg]; [apply IH | reflexivity].
Qed.

Lemma repeat_loop_concat (f : Part -> state -> buf -> result (buf * state))
    (ps : list Part) (n : nat) (st : state) (b : buf) :
  repeat_loop f ps n st b = appendAll f (concat (replicate n ps)) st b.
Proof.
  revert st b. induction n as [| n IH]; intros st b; cbn.
  - reflexivity.
  - rewrite appendAll_app.
    destruct (appendAll f ps st b) as [[b' st'] | msg]; [apply IH | reflexivity].
Qed.

(** ** Repeat: the drawn count *)

Lemma attained_ext (f g : Z -> Z) (k k' c : Z) :
  (forall r, is_u64 r -> (f r = k <-> g r = k')) ->
  attained g k' c -> attained f k c.
Proof.
  intros E (lo & H1 & H2 & H3 & H4). exists lo.
  split; [assumption | split; [assumption | split; [assumption |]]].
  intros r Hr. rewrite (E r Hr). apply H4, Hr.
Qed.

Lemma repeat_count_eq (min maxr r : Z) :
  0 < maxr -> is_u32 maxr -> is_u32 min -> min + maxr <= 2 ^ 32 -> is_u64 r ->
  repeat_count min maxr r = internal.scale maxr r + min.
Proof.
  intros H0 Hmaxr Hmin Hsum Hr. unfold repeat_count.
  pose proof (scale_range maxr r H0 Hmaxr Hr).
  apply u32_small. unfold is_u32 in *. lia.
Qed.

(** The slip of the range width: for [min = 0] and [max = 2^32 - 1] the
    stored width [(max - min) + 1] wraps to 0, and the count is always 0. *)
Lemma Repeat_full_range_width (p : list Part) :
  Repeat 0 4294967295 p = Ok (repeat p 0 0) /\
  forall st b,
    Append (repeat p 0 0) st b = Ok (b, set_drawn st (S (drawn st))).
Proof.
  split; reflexivity.
Qed.

(** C4 (as amended). In the stored case of [Repeat] ([min < max], not the
    pair (0, 1)) with a range width [max - min + 1] below [2^32], [Append]
    consumes one raw value [r], takes [n = scale (max - min + 1) r + min] and
    appends the children in order exactly [n] times; [n] lies in [min, max]
    for every raw value, and each count of [min, max] is drawn by
    [2^64 / width] or [2^64 / width + 1] raw values. *)
Theorem Repeat_count_in_range_nearly_uniform
    (min max : Z) (p : list Part) :
  is_u32 min -> is_u32 max -> min < max -> (min, max) <> (0, 1) ->
  max - min + 1 < 2 ^ 32 ->
  let width := max - min + 1 in
  Repeat min max p = Ok (repeat p min width) /\
  (forall st b,
     let n := internal.scale width (u64 (raw st (drawn st))) + min in
     min <= n <= max /\
     Append (repeat p min width) st b =
       repeat_loop Append p (Z.to_nat n) (set_drawn st (S (drawn st))) b /\
     Append (repeat p min width) st b =
       appendAll Append (concat (replicate (Z.to_nat n) p))
         (set_drawn st (S (drawn st))) b) /\
  (forall m, min <= m <= max ->
     exists c, attained (repeat_count min width) m c /\
       (c = 2 ^ 64 / width \/ c = 2 ^ 64 / width + 1)).
Proof.
  intros Hmin Hmax Hlt Hne Hw width.
  assert (Hwidth : 0 < width /\ is_u32 width)
    by (unfold width, is_u32 in *; lia).
  destruct Hwidth as [W0 Wr].
  split; [| split].
  - unfold Repeat, is_u32 in *.
    assert ((min, max) = (0, 1) \/ min <> 0 \/ max <> 1) as [E | Hor]
      by (destruct (Z.eq_dec min 0), (Z.eq_dec max 1); subst; auto).
    { contradiction. }
    zbool; cbn [andb]; try lia.
    all: fold width; rewrite (u32_small width Wr); reflexivity.
  - intros st b n.
    pose proof (scale_range width (u64 (raw st (drawn st))) W0 Wr
                  (u64_range _)) as Hs.
    assert (Hn : min <= n <= max) by (unfold n, width in *; lia).
    assert (E : Append (repeat p min width) st b =
                repeat_loop Append p (Z.to_nat n)
                  (set_drawn st (S (drawn st))) b).
    { cbn. f_equal. f_equal. apply u32_small.
      unfold is_u32 in *. fold n. lia. }
    split; [exact Hn | split; [exact E |]].
    rewrite E. apply repeat_loop_concat.
  - intros m Hm. exists (first_raw width (m - min + 1) - first_raw width (m - min)).
    split.
    + apply (attained_ext _ (internal.scale width) m (m - min)).
      * intros r Hr. rewrite repeat_count_eq; try assumption.
        -- lia.
        -- unfold width, is_u32 in *. lia.
      * apply scale_attained; try assumption. unfold width. lia.
    + apply first_raw_step. assumption.
Qed.

Lemma Repeat_count_in_range_nearly_uniform_witness :
  Repeat 5 10 [Literal "o"] = Ok (repeat [Literal "o"] 5 6) /\
  forall m, 5 <= m <= 10 ->
    exists c, attained (repeat_count 5 6) m c /\
      (c = 2 ^ 64 / 6 \/ c = 2 ^ 64 / 6 + 1).
Proof.
  pose proof (Repeat_count_in_range_nearly_uniform 5 10 [Literal "o"]) as H.
  cbv zeta in H.
  assert (H5 : is_u32 5) by (unfold is_u32; lia).
  assert (H10 : is_u32 10) by (unfold is_u32; lia).
  assert (Hne : (5, 10) <> (0, 1)) by discriminate.
  destruct (H H5 H10 ltac:(lia) Hne ltac:(lia)) as (R & _ & U).
  split; [exact R | exact U].
Defined.

(** C4 (as stated) fails for [Repeat(1, 3, ...)]: the count 1 is drawn by
    one raw value more than the count 2. *)
Lemma Repeat_1_3_not_equidistributed :
  attained (repeat_count 1 (u32 (3 - 1 + 1))) 1 6148914691236517206 /\
  attained (repeat_count 1 (u32 (3 - 1 + 1))) 2 6148914691236517205 /\
  ~ repeat_equidistributed 1 3.
Proof.
  assert (A : forall m c, 1 <= m <= 3 -> attained (internal.scale 3) (m - 1) c ->
            attained (repeat_count 1 (u32 (3 - 1 + 1))) m c).
  { intros m c Hm. apply attained_ext. intros r Hr.
    change (u32 (3 - 1 + 1)) with 3.
    rewrite repeat_count_eq; try assumption; unfold is_u32; lia. }
  assert (A1 : attained (repeat_count 1 (u32 (3 - 1 + 1))) 1 6148914691236517206).
  { apply A; [lia |]. apply (scale_attained 3 0); unfold is_u32; lia. }
  assert (A2 : attained (repeat_count 1 (u32 (3 - 1 + 1))) 2 6148914691236517205).
  { apply A; [lia |]. apply (scale_attained 3 1); unfold is_u32; lia. }
  split; [exact A1 | split; [exact A2 |]].
  intros H. specialize (H 1 2 _ _ ltac:(lia) ltac:(lia) A1 A2). discriminate H.
Qed.

(** ** The integer formatter *)

Lemma store_byte_middle (pre suf : buf) (x c : ascii) :
  store_byte (pre ++ x :: suf) (length pre) c = Ok (pre ++ c :: suf).
Proof.
  unfold store_byte. rewrite decide_True.
  - f_equal. replace (length pre) with (length pre + 0)%nat by lia.
    rewrite insert_app_r. reflexivity.
  - rewrite length_app. cbn. lia.
Qed.

Lemma pad_loop_replicate (pad : nat) (b : buf) :
  pad_loop pad b = b ++ replicate pad "0"%char.
Proof.
  revert b. induction pad as [| pad IH]; intros b; cbn.
  - symmetry. apply app_nil_r.
  - rewrite IH, <- app_assoc. reflexivity.
Qed.

Lemma itob_digit (d : Z) : 0 <= d < 10 -> itob d = digit d.
Proof.
  intros H.
  assert (d = 0 \/ d = 1 \/ d = 2 \/ d = 3 \/ d = 4 \/ d = 5 \/ d = 6 \/
          d = 7 \/ d = 8 \/ d = 9) as Hd by lia.
  repeat (destruct Hd as [-> | Hd]; [reflexivity |]). subst d. reflexivity.
Qed.

Lemma decimal_fuel_length (fuel : nat) (u : Z) :
  (1 <= length (decimal_fuel fuel u))%nat.
Proof.
  destruct fuel as [| fuel]; cbn; [lia |].
  destruct (u <? 10); cbn; [lia |]. rewrite length_app. cbn. lia.
Qed.

Lemma count_loop_zero (fuel : nat) (n : Z) : count_loop fuel 0 n = n.
Proof. destruct fuel; reflexivity. Qed.

Lemma count_loop_digits (fuel f : nat) (u n : Z) :
  0 < u -> u < 10 ^ Z.of_nat fuel -> u < 10 * 2 ^ Z.of_nat f ->
  count_loop fuel u n = n + Z.of_nat (length (decimal_fuel f u)).
Proof.
  revert f u n. induction fuel as [| fuel IH]; intros f u n H0 Hfuel Hf.
  - cbn in Hfuel. lia.
  - cbn [count_loop]. destruct (Z.ltb_spec 0 u) as [_ | ?]; [| lia].
    destruct (Z.lt_ge_cases u 10) as [Hlt | Hge].
    + rewrite (Z.div_small u 10) by lia. rewrite count_loop_zero.
      destruct f as [| f]; cbn [decimal_fuel].
      * cbn. lia.
      * destruct (Z.ltb_spec u 10); [cbn; lia | lia].
    + destruct f as [| f]; [cbn in Hf; lia |].
      cbn [decimal_fuel]. destruct (Z.ltb_spec u 10) as [? | _]; [lia |].
      rewrite length_app. cbn [length].
      rewrite Nat2Z.inj_succ, Z.pow_succ_r in * by lia.
      rewrite (IH f (u / 10) (n + 1)).
      * lia.
      * apply Z.div_str_pos. lia.
      * apply div_lt_iff; lia.
      * apply div_lt_iff; lia.
Qed.

Lemma write_loop_digits (f : nat) (u : Z) (pre suf : buf) (x : ascii) :
  0 <= u -> u < 10 * 2 ^ Z.of_nat f ->
  let d := decimal_fuel f u in
  write_loop (length pre + length d - 1) u (pre ++ replicate (length d) x ++ suf)
  = Ok (pre ++ d ++ suf).
Proof.
  revert u suf. induction f as [| f IH]; intros u suf H0 Hf d.
  - assert (Hu : u < 10) by (cbn in Hf; lia).
    subst d. cbn [decimal_fuel length replicate app].
    replace (length pre + 1 - 1)%nat with (length pre) by lia.
    rewrite <- (itob_digit u) by lia.
    destruct (length pre) as [| i] eqn:E; cbn [write_loop].
    + rewrite <- E. apply store_byte_middle.
    + destruct (Z.leb_spec 10 u); [lia |]. rewrite <- E. apply store_byte_middle.
  - subst d. cbn [decimal_fuel]. destruct (Z.ltb_spec u 10) as [Hu | Hu].
    + cbn [length replicate app].
      replace (length pre + 1 - 1)%nat with (length pre) by lia.
      rewrite <- (itob_digit u) by lia.
      destruct (length pre) as [| i] eqn:E; cbn [write_loop].
      * rewrite <- E. apply store_byte_middle.
      * destruct (Z.leb_spec 10 u); [lia |]. rewrite <- E.
        apply store_byte_middle.
    + set (d' := decimal_fuel f (u / 10)).
      pose proof (decimal_fuel_length f (u / 10)) as Hd'. fold d' in Hd'.
      rewrite length_app. cbn [length].
      replace (length pre + (length d' + 1) - 1)%nat
        with (S (length pre + length d' - 1)) by lia.
      cbn [write_loop]. destruct (Z.leb_spec 10 u) as [_ | ?]; [| lia].
      replace (length d' + 1)%nat with (S (length d')) by lia.
      rewrite replicate_S_end, <- !app_assoc. cbn [app].
      assert (Est : store_byte (pre ++ replicate (length d') x ++ x :: suf)
                (S (length pre + length d' - 1)) (itob (u - u / 10 * 10))
              = Ok (pre ++ replicate (length d') x ++ digit (u mod 10) :: suf)).
      { rewrite !app_assoc.
        replace (S (length pre + length d' - 1))
          with (length (pre ++ replicate (length d') x))
          by (rewrite length_app, length_replicate; lia).
        rewrite store_byte_middle.
        replace (u - u / 10 * 10) with (u mod 10)
          by (rewrite Z.mod_eq; lia).
        rewrite itob_digit by (apply Z.mod_pos_bound; lia).
        reflexivity. }
      rewrite Est.
      rewrite Nat2Z.inj_succ, Z.pow_succ_r in Hf by lia.
      apply (IH (u / 10) (digit (u mod 10) :: suf)).
      * apply Z.div_pos; lia.
      * apply div_lt_iff; lia.
Qed.

Lemma decimal_enough (u : Z) :
  0 <= u -> u < 10 * 2 ^ Z.of_nat (Z.to_nat (Z.log2 u)).
Proof.
  intros H0. rewrite Z2Nat.id by apply Z.log2_nonneg.
  destruct (Z.eq_dec u 0) as [-> | Hne]; [reflexivity |].
  pose proof (Z.log2_spec u ltac:(lia)) as [_ Hup].
  rewrite Z.pow_succ_r in Hup by apply Z.log2_nonneg. lia.
Qed.

Lemma count_loop_le (fuel : nat) (u n : Z) :
  count_loop fuel u n <= n + Z.of_nat fuel.
Proof.
  revert u n. induction fuel as [| fuel IH]; intros u n; cbn [count_loop].
  - lia.
  - destruct (0 <? u); [| lia].
    pose proof (IH (u / 10) (n + 1)). lia.
Qed.

Lemma to_int_small (z : Z) : is_int z -> to_int z = z.
Proof.
  unfold is_int, int_min, int_max, to_int. intros H.
  rewrite Z.mod_small by lia. lia.
Qed.

(** The number of digits that [appendInt] counts. *)
Lemma appendInt_digits (u : Z) :
  is_u64 u ->
  count_loop 20 u (if u =? 0 then 1 else 0) = Z.of_nat (length (decimal u)) /\
  1 <= Z.of_nat (length (decimal u)) <= 20.
Proof.
  unfold is_u64. intros Hu. unfold decimal.
  set (f := Z.to_nat (Z.log2 u)).
  pose proof (decimal_enough u ltac:(lia)) as Hf. fold f in Hf.
  pose proof (decimal_fuel_length f u) as Hl.
  assert (En : count_loop 20 u (if u =? 0 then 1 else 0)
               = Z.of_nat (length (decimal_fuel f u))).
  { destruct (Z.eqb_spec u 0) as [-> | Hne].
    - reflexivity.
    - rewrite (count_loop_digits 20 f u 0); lia. }
  split; [exact En |]. split; [lia |]. rewrite <- En.
  destruct (Z.eqb_spec u 0) as [-> | Hne]; [cbn; lia |].
  pose proof (count_loop_le 20 u 0). lia.
Qed.

(** What [appendInt] does for any [width]: the padding count is the
    wrapped difference, and the call returns unless the padded number is
    longer than a slice can be. *)
Lemma appendInt_padded (b : buf) (u width : Z) :
  is_u64 u ->
  appendInt b u width =
  let d := Z.of_nat (length (decimal u)) in
  let pad := to_int (width - d) in
  if int_max <? pad + d then Panic "growslice: len out of range"
  else Ok (b ++ replicate (Z.to_nat pad) "0"%char ++ decimal u).
Proof.
  intros Hu. destruct (appendInt_digits u Hu) as [En _].
  unfold appendInt. rewrite En. cbv zeta.
  destruct (int_max <? _); [reflexivity |].
  unfold is_u64 in Hu. unfold decimal in *.
  set (f := Z.to_nat (Z.log2 u)) in *. set (d := decimal_fuel f u) in *.
  pose proof (decimal_enough u ltac:(lia)) as Hf. fold f in Hf.
  rewrite Nat2Z.id, pad_loop_replicate.
  set (pre := b ++ replicate _ _).
  rewrite length_app, length_replicate.
  pose proof (write_loop_digits f u pre [] zero ltac:(lia) Hf) as W.
  cbv zeta in W. fold d in W. rewrite !app_nil_r in W.
  rewrite W. unfold pre. rewrite <- app_assoc. reflexivity.
Qed.

Lemma appendInt_zero_padded (b : buf) (u width : Z) :
  is_u64 u -> width_fits width ->
  appendInt b u width = Ok (b ++ zero_padded width u).
Proof.
  intros Hu Hw. rewrite (appendInt_padded b u width Hu). cbv zeta.
  destruct (appendInt_digits u Hu) as [_ Hd].
  unfold width_fits, int_min, int_max in Hw.
  rewrite to_int_small by (unfold is_int, int_min, int_max; lia).
  destruct (Z.ltb_spec int_max (width - Z.of_nat (length (decimal u))
                                + Z.of_nat (length (decimal u))))
    as [H | _]; [unfold int_max in H; lia |].
  reflexivity.
Qed.

(** The width that wraps: with the least [int] as width the padding count
    is [2^63 - 1] for a number of one digit, and the call does not
    return. *)
Lemma appendInt_width_wraps (b : buf) :
  to_int (int_min - 1) = int_max /\
  appendInt b 0 int_min = Panic "growslice: len out of range".
Proof. split; reflexivity. Qed.

(** For a width that is an [int], [appendInt] returns exactly when taking
    the number of digits from the width does not pass below the least
    [int]. *)
Lemma appendInt_returns_iff (b : buf) (u width : Z) :
  is_u64 u -> is_int width ->
  is_ok (appendInt b u width)
  <-> int_min + Z.of_nat (length (decimal u)) <= width.
Proof.
  intros Hu Hw. rewrite (appendInt_padded b u width Hu). cbv zeta.
  destruct (appendInt_digits u Hu) as [_ Hd].
  set (d := Z.of_nat (length (decimal u))) in *.
  unfold is_int, int_min, int_max in *.
  destruct (Z.le_gt_cases (- 2 ^ 63 + d) width) as [Hle | Hgt].
  - rewrite to_int_small by (unfold is_int, int_min, int_max; lia).
    destruct (Z.ltb_spec (2 ^ 63 - 1) (width - d + d)) as [H | _]; [lia |].
    cbn. tauto.
  - assert (E : to_int (width - d) = width - d + 2 ^ 64).
    { unfold to_int.
      rewrite <- (Z.mod_unique (width - d + 2 ^ 63) (2 ^ 64) (-1)
                    (width - d + 2 ^ 63 + 2 ^ 64)); lia. }
    rewrite E.
    destruct (Z.ltb_spec (2 ^ 63 - 1) (width - d + 2 ^ 64 + d)) as [_ | H];
      [| lia].
    cbn. lia.
Qed.

Lemma digit_value_digit (d : Z) : 0 <= d < 10 -> digit_value (digit d) = d.
Proof.
  intros H.
  assert (d = 0 \/ d = 1 \/ d = 2 \/ d = 3 \/ d = 4 \/ d = 5 \/ d = 6 \/
          d = 7 \/ d = 8 \/ d = 9) as Hd by lia.
  repeat (destruct Hd as [-> | Hd]; [reflexivity |]). subst d. reflexivity.
Qed.

Lemma parse_decimal_snoc (s : buf) (c : ascii) :
  parse_decimal (s ++ [c]) = parse_decimal s * 10 + digit_value c.
Proof. unfold parse_decimal. rewrite fold_left_app. reflexivity. Qed.

Lemma parse_decimal_zeros (k : nat) (s : buf) :
  parse_decimal (replicate k "0"%char ++ s) = parse_decimal s.
Proof.
  unfold parse_decimal. rewrite fold_left_app.
  assert (E : fold_left (fun acc c => acc * 10 + digit_value c)
                (replicate k "0"%char) 0 = 0).
  { induction k as [| k IH]; [reflexivity |]. cbn [replicate fold_left].
    exact IH. }
  rewrite E. reflexivity.
Qed.

Lemma decimal_fuel_parse (f : nat) (u : Z) :
  0 <= u -> u < 10 * 2 ^ Z.of_nat f ->
  parse_decimal (decimal_fuel f u) = u /\
  Forall is_digit (decimal_fuel f u).
Proof.
  revert u. induction f as [| f IH]; intros u H0 Hf.
  - assert (Hu : u < 10) by (cbn in Hf; lia). cbn [decimal_fuel].
    split.
    + unfold parse_decimal. cbn [fold_left]. rewrite digit_value_digit; lia.
    + constructor; [| constructor]. unfold is_digit.
      rewrite digit_value_digit; lia.
  - cbn [decimal_fuel]. destruct (Z.ltb_spec u 10) as [Hu | Hu].
    + split.
      * unfold parse_decimal. cbn [fold_left]. rewrite digit_value_digit; lia.
      * constructor; [| constructor]. unfold is_digit.
        rewrite digit_value_digit; lia.
    + rewrite Nat2Z.inj_succ, Z.pow_succ_r in Hf by lia.
      destruct (IH (u / 10)) as [P D].
      * apply Z.div_pos; lia.
      * apply div_lt_iff; lia.
      * pose proof (Z.mod_pos_bound u 10 ltac:(lia)) as Hm.
        split.
        -- rewrite parse_decimal_snoc, P, digit_value_digit by lia.
           pose proof (Z.div_mod u 10 ltac:(lia)). lia.
        -- apply Forall_app. split; [exact D |].
           constructor; [| constructor]. unfold is_digit.
           rewrite digit_value_digit; lia.
Qed.

Lemma decimal_fuel_size (f : nat) (u : Z) :
  0 < u -> u < 10 * 2 ^ Z.of_nat f ->
  10 ^ (Z.of_nat (length (decimal_fuel f u)) - 1) <= u
    < 10 ^ Z.of_nat (length (decimal_fuel f u)).
Proof.
  revert u. induction f as [| f IH]; intros u H0 Hf.
  - assert (Hu : u < 10) by (cbn in Hf; lia). cbn. lia.
  - cbn [decimal_fuel]. destruct (Z.ltb_spec u 10) as [Hu | Hu]; [cbn; lia |].
    rewrite Nat2Z.inj_succ, Z.pow_succ_r in Hf by lia.
    rewrite length_app. cbn [length].
    pose proof (decimal_fuel_length f (u / 10)) as Hl.
    destruct (IH (u / 10)) as [Lo Hi].
    + apply Z.div_str_pos. lia.
    + apply div_lt_iff; lia.
    + set (d := length (decimal_fuel f (u / 10))) in *.
      replace (Z.of_nat (d + 1) - 1) with (Z.succ (Z.of_nat d - 1)) by lia.
      replace (Z.of_nat (d + 1)) with (Z.succ (Z.of_nat d)) by lia.
      rewrite !Z.pow_succ_r by lia.
      pose proof (Z.div_mod u 10 ltac:(lia)).
      pose proof (Z.mod_pos_bound u 10 ltac:(lia)). lia.
Qed.

(** The number of digits of a uint64. *)
Lemma decimal_digits (u : Z) :
  is_u64 u ->
  let d := Z.of_nat (length (decimal u)) in
  1 <= d <= 20 /\ (u = 0 -> d = 1) /\ (0 < u -> 10 ^ (d - 1) <= u < 10 ^ d).
Proof.
  intros Hu d. destruct (appendInt_digits u Hu) as [_ Hd].
  split; [exact Hd |]. split.
  - intros ->. reflexivity.
  - intros Hp. apply decimal_fuel_size; [exact Hp |].
    apply decimal_enough. lia.
Qed.

(** A zero-padded number is a string of digits that reads as the number,
    as long as the width or as the number has digits. *)
Lemma zero_padded_reads (width u : Z) :
  is_u64 u ->
  Forall is_digit (zero_padded width u) /\
  parse_decimal (zero_padded width u) = u /\
  Z.of_nat (length (zero_padded width u))
  = Z.max width (Z.of_nat (length (decimal u))).
Proof.
  intros Hu.
  pose proof (decimal_enough u ltac:(unfold is_u64 in Hu; lia)) as Hf.
  destruct (decimal_fuel_parse (Z.to_nat (Z.log2 u)) u
              ltac:(unfold is_u64 in Hu; lia) Hf) as [P D].
  fold (decimal u) in P, D.
  destruct (appendInt_digits u Hu) as [_ Hd].
  unfold zero_padded. split; [| split].
  - apply Forall_app. split; [| exact D].
    apply Forall_replicate. unfold is_digit.
    change (digit_value "0") with 0. lia.
  - rewrite parse_decimal_zeros. exact P.
  - rewrite length_app, length_replicate. lia.
Qed.


(** ** Sequence *)


Lemma sequence_next_step (start max last : Z) :
  is_u64 start -> is_u64 max -> start <= last + 1 <= max ->
  sequence_next start max last = last + 1.
Proof.
  unfold sequence_next, is_u64. intros Hs Hm Hl.
  rewrite (u64_small (last + 1)) by (unfold is_u64; lia).
  zbool; cbn [orb]; lia.
Qed.

Lemma sequence_next_wrap (start max last : Z) :
  is_u64 start -> is_u64 max -> is_u64 last -> start <= max ->
  max < last + 1 \/ last + 1 < start ->
  sequence_next start max last = start.
Proof.
  unfold sequence_next, is_u64. intros Hs Hm Hl Hsm Hw.
  destruct (Z.eq_dec last (2 ^ 64 - 1)) as [-> | Hne].
  - change (u64 (2 ^ 64 - 1 + 1)) with 0. zbool; cbn [orb]; lia.
  - rewrite (u64_small (last + 1)) by (unfold is_u64; lia).
    zbool; cbn [orb]; lia.
Qed.

Lemma sequence_next_first (start max : Z) :
  is_u64 start -> is_u64 max -> start <= max ->
  sequence_next start max (u64 (start - 1)) = start.
Proof.
  intros Hs Hm Hsm.
  destruct (Z.eq_dec start 0) as [-> | Hne].
  - change (u64 (0 - 1)) with (2 ^ 64 - 1). unfold sequence_next.
    change (u64 (2 ^ 64 - 1 + 1)) with 0. unfold is_u64 in *.
    zbool; cbn [orb]; lia.
  - rewrite (u64_small (start - 1)) by (unfold is_u64 in *; lia).
    rewrite sequence_next_step; try assumption; lia.
Qed.

Lemma Append_sequence (start max width : Z) (curr : nat)
    (st : state) (b : buf) (last : Z) :
  is_u64 start -> width_fits width -> cells st !! curr = Some last ->
  Append (sequence start max width curr) st b =
  Ok (b ++ zero_padded width (sequence_next start max last),
      set_cells st (<[curr := sequence_next start max last]> (cells st))).
Proof.
  intros Hs Hw Hc. cbn [Append]. unfold LoadUint64, CompareAndSwapUint64.
  rewrite Hc, Z.eqb_refl. fold (sequence_next start max last).
  rewrite appendInt_zero_padded; [reflexivity | | exact Hw].
  unfold sequence_next.
  destruct (_ || _); [assumption | apply u64_range].
Qed.




(** ** Repeat with equal bounds *)

Lemma Repeat_fill_concat (n : nat) (g p : list Part) :
  Repeat_fill n g p = g ++ concat (replicate n p).
Proof.
  revert g. induction n as [| n IH]; intros g; cbn.
  - symmetry. apply app_nil_r.
  - rewrite IH, <- app_assoc. reflexivity.
Qed.

Lemma appendAll_literals (ss : list buf) (st : state) (b : buf) :
  appendAll Append (map literal ss) st b = Ok (b ++ concat ss, st).
Proof.
  revert b. induction ss as [| s ss IH]; intros b; cbn.
  - rewrite app_nil_r. reflexivity.
  - rewrite IH, <- app_assoc. reflexivity.
Qed.

Lemma concat_replicate_literals (n : nat) (ss : list buf) :
  concat (replicate n (map literal ss))
  = map literal (concat (replicate n ss)).
Proof.
  induction n as [| n IH]; cbn; [reflexivity |].
  rewrite IH, map_app. reflexivity.
Qed.

Lemma concat_concat_replicate {A} (n : nat) (ss : list (list A)) :
  concat (concat (replicate n ss)) = concat (replicate n (concat ss)).
Proof.
  induction n as [| n IH]; cbn; [reflexivity |].
  rewrite concat_app, IH. reflexivity.
Qed.

Lemma Repeat_const (k : Z) (p : list Part) :
  1 <= k ->
  Repeat k k p = Ok (group (concat (replicate (Z.to_nat k) p))).
Proof.
  intros Hk. unfold Repeat. destruct (Z.eqb_spec k 0); [lia |].
  rewrite Z.ltb_irrefl, Z.eqb_refl.
  destruct (Z.ltb_spec 0 k); [| lia]. cbn [andb].
  rewrite Repeat_fill_concat. reflexivity.
Qed.

(** C3. For [k >= 1], [Repeat(k, k, p...)] is the [group] of [k]
    concatenated copies of [p]: from every state and buffer its [Append] is
    the [k]-fold run of the children in order, started in the very state it
    is called in, so that no raw value is drawn for the count; over literal
    children the state comes back unchanged. *)
Theorem Repeat_const_is_group (k : Z) (p : list Part) :
  1 <= k ->
  let g := group (concat (replicate (Z.to_nat k) p)) in
  Repeat k k p = Ok g /\
  (forall st b, Append g st b = repeat_loop Append p (Z.to_nat k) st b) /\
  (forall ss st b, p = map literal ss ->
     Append g st b = Ok (b ++ concat (replicate (Z.to_nat k) (concat ss)), st)).
Proof.
  intros Hk g. split; [| split].
  - apply Repeat_const, Hk.
  - intros st b. unfold g. cbn [Append]. symmetry. apply repeat_loop_concat.
  - intros ss st b ->. unfold g. cbn [Append].
    rewrite concat_replicate_literals, appendAll_literals,
      concat_concat_replicate.
    reflexivity.
Qed.

Lemma Repeat_const_is_group_witness :
  Repeat 5 5 [Literal "o"] =
    Ok (group [Literal "o"; Literal "o"; Literal "o"; Literal "o"; Literal "o"])
  /\ forall st b,
       Append (group (concat (replicate 5 [Literal "o"]))) st b
       = Ok (b ++ bytes "ooooo", st).
Proof.
  destruct (Repeat_const_is_group 5 [Literal "o"] ltac:(lia)) as (R & _ & L).
  split; [exact R |].
  intros st b. apply (L [bytes "o"] st b). reflexivity.
Defined.

(** ** Potentially *)

Lemma SFcompare_antisym (x y : float64) :
  SFcompare y x = option_map CompOpp (SFcompare x y).
Proof.
  destruct x as [sx | sx | | sx mx ex], y as [sy | sy | | sy my ey];
    try destruct sx; try destruct sy; cbn; try reflexivity.
  - rewrite (Z.compare_antisym ey ex).
    destruct (ey ?= ex) eqn:E; cbn; try reflexivity.
    rewrite (Pos.compare_cont_antisym mx my Eq). cbn.
    destruct (Pos.compare_cont Eq mx my); reflexivity.
  - rewrite (Z.compare_antisym ey ex).
    destruct (ey ?= ex) eqn:E; cbn; try reflexivity.
    rewrite (Pos.compare_cont_antisym mx my Eq). reflexivity.
Qed.

Lemma f64_lt_not_ge (x y : float64) :
  f64_lt x y = true -> f64_le y x = false /\ f64_eq x y = false.
Proof.
  unfold f64_lt, f64_le, f64_eq, SFltb, SFleb, SFeqb.
  rewrite (SFcompare_antisym x y).
  destruct (SFcompare x y) as [[] |]; cbn; intros H;
    try discriminate H; split; reflexivity.
Qed.

Lemma f64_eq_not_lt (x y : float64) :
  f64_eq x y = true -> f64_lt x y = false /\ f64_lt y x = false.
Proof.
  unfold f64_lt, f64_eq, SFltb, SFeqb.
  rewrite (SFcompare_antisym x y).
  destruct (SFcompare x y) as [[] |]; cbn; intros H;
    try discriminate H; split; reflexivity.
Qed.

Lemma f64_eq_sym (x y : float64) : f64_eq x y = f64_eq y x.
Proof.
  unfold f64_eq, SFeqb. rewrite (SFcompare_antisym x y).
  destruct (SFcompare x y) as [[] |]; reflexivity.
Qed.

(** A float not below one is above zero, and one equal to a half is
    between the two. *)
Lemma f64_ge_one_pos (c : float64) :
  f64_le f64_one c = true -> f64_lt c f64_zero = false /\ f64_eq c f64_zero = false.
Proof.
  destruct c as [s | s | | s m e]; try destruct s; cbn;
    intros H; try discriminate H; split; reflexivity.
Qed.

Lemma f64_eq_half_is_half (c : float64) :
  f64_eq c f64_half = true -> c = f64_half.
Proof.
  unfold f64_eq, SFeqb, f64_half.
  destruct c as [s | s | | s m e]; try destruct s;
    try (intros H; discriminate H).
  lazy beta iota delta [SFcompare].
  destruct (e ?= -53) eqn:E; try (intros H; discriminate H).
  apply Z.compare_eq in E. subst e.
  destruct (Pos.compare_cont Eq m 4503599627370496) eqn:E;
    try (intros H; discriminate H).
  intros _. apply (Pos.compare_eq m 4503599627370496) in E. subst m.
  reflexivity.
Qed.

Lemma f64_eq_half_inside (c : float64) :
  f64_eq c f64_half = true ->
  f64_lt c f64_zero = false /\ f64_eq c f64_zero = false /\
  f64_le f64_one c = false.
Proof.
  intros H. apply f64_eq_half_is_half in H. subst c.
  split; [reflexivity | split; reflexivity].
Qed.

Lemma land_1_odd (r : Z) : (Z.land r 1 =? 1) = Z.odd r.
Proof.
  change (Z.land r 1) with (Z.land r (Z.ones 1)).
  rewrite Z.land_ones by lia. change (2 ^ 1) with 2.
  rewrite Zmod_odd. destruct (Z.odd r); reflexivity.
Qed.

Lemma Append_potentially50 (p : Part) (st : state) (b : buf) :
  Append (potentially50 p) st b =
  if Z.odd (u64 (raw st (drawn st)))
  then Append p (set_drawn st (S (drawn st))) b
  else Ok (b, set_drawn st (S (drawn st))).
Proof.
  cbn [Append]. unfold internal.Fastrand. rewrite land_1_odd. reflexivity.
Qed.

(** C5. [Potentially(c, p)] panics for [c < 0]; is the no-op part for
    [c == 0]; is [p] itself for [c >= 1]; for [c == 0.5] it includes [p]
    exactly when the lowest bit of one raw value is set; for any other [c]
    strictly between 0 and 1 it includes [p] exactly when one draw of
    [RandFloat64] is [<= c], and appends nothing otherwise. *)
Theorem Potentially_cases (c : float64) (p : Part) :
  (f64_lt c f64_zero = true ->
     Potentially c p = Panic "chance must be > 0") /\
  (f64_eq c f64_zero = true ->
     Potentially c p = Ok nullpart /\
     forall st b, Append nullpart st b = Ok (b, st)) /\
  (f64_le f64_one c = true -> Potentially c p = Ok p) /\
  (f64_eq c f64_half = true ->
     Potentially c p = Ok (potentially50 p) /\
     forall st b,
       Append (potentially50 p) st b =
       if Z.testbit (u64 (raw st (drawn st))) 0
       then Append p (set_drawn st (S (drawn st))) b
       else Ok (b, set_drawn st (S (drawn st)))) /\
  (f64_lt f64_zero c = true -> f64_lt c f64_one = true ->
   f64_eq c f64_half = false ->
     Potentially c p = Ok (potentiallyP p c) /\
     forall st b,
       Append (potentiallyP p c) st b =
       if f64_le (internal.unit_float (u64 (raw st (drawn st)))) c
       then Append p (set_drawn st (S (drawn st))) b
       else Ok (b, set_drawn st (S (drawn st)))).
Proof.
  split; [| split; [| split; [| split]]].
  - intros H. unfold Potentially. rewrite H. reflexivity.
  - intros H. split; [| reflexivity].
    destruct (f64_eq_not_lt _ _ H) as [L _].
    unfold Potentially. rewrite L, H. reflexivity.
  - intros H. destruct (f64_ge_one_pos c H) as [L E].
    unfold Potentially. rewrite L, E, H. reflexivity.
  - intros H. destruct (f64_eq_half_inside c H) as (L & E & G).
    split.
    + unfold Potentially. rewrite L, E, G, H. reflexivity.
    + intros st b. rewrite Z.bit0_odd. apply Append_potentially50.
  - intros H0 H1 Hh.
    destruct (f64_lt_not_ge _ _ H0) as [L E].
    destruct (f64_lt_not_ge _ _ H1) as [G _].
    assert (L' : f64_lt c f64_zero = false).
    { destruct (f64_lt c f64_zero) eqn:X; [| reflexivity].
      destruct (f64_lt_not_ge _ _ X) as [Y _].
      unfold f64_lt, f64_le, SFltb, SFleb in *.
      destruct (SFcompare f64_zero c) as [[] |]; discriminate. }
    rewrite f64_eq_sym in E.
    split; [| reflexivity].
    unfold Potentially. rewrite L', E, G, Hh. reflexivity.
Qed.

Lemma Potentially_cases_witness :
  Potentially (S754_finite true 4503599627370496 (-52)) (Literal "a")
    = Panic "chance must be > 0" /\
  Potentially (S754_zero true) (Literal "a") = Ok nullpart /\
  Potentially (S754_finite false 6755399441055744 (-52)) (Literal "a")
    = Ok (Literal "a") /\
  Potentially f64_half (Literal "a") = Ok (potentially50 (Literal "a")) /\
  Potentially (S754_finite false 5404319552844595 (-54)) (Literal "a")
    = Ok (potentiallyP (Literal "a")
            (S754_finite false 5404319552844595 (-54))).
Proof.
  split; [| split; [| split; [| split]]].
  - apply (Potentially_cases (S754_finite true 4503599627370496 (-52))
             (Literal "a")). reflexivity.
  - apply (Potentially_cases (S754_zero true) (Literal "a")). reflexivity.
  - apply (Potentially_cases (S754_finite false 6755399441055744 (-52))
             (Literal "a")). reflexivity.
  - apply (Potentially_cases f64_half (Literal "a")). reflexivity.
  - apply (Potentially_cases (S754_finite false 5404319552844595 (-54))
             (Literal "a")); reflexivity.
Defined.

(** ** What a run changes *)

Lemma evolves_refl (st : state) : evolves st st.
Proof.
  split; [reflexivity | split; [auto |]].
  intros l a H. exists a. split; [assumption | reflexivity].
Qed.

Lemma evolves_trans (s1 s2 s3 : state) :
  evolves s1 s2 -> evolves s2 s3 -> evolves s1 s3.
Proof.
  intros (R1 & C1 & A1) (R2 & C2 & A2). split; [congruence | split].
  - intros l H. apply C2, C1, H.
  - intros l a H. destruct (A1 l a H) as (a' & H' & P').
    destruct (A2 l a' H') as (a'' & H'' & P'').
    exists a''. split; [assumption | etransitivity; eassumption].
Qed.

Lemma evolves_drawn (st : state) (n : nat) : evolves st (set_drawn st n).
Proof. apply (evolves_refl st). Qed.

Lemma evolves_cell (st : state) (l : nat) (v : Z) :
  is_Some (cells st !! l) -> evolves st (set_cells st (<[l := v]> (cells st))).
Proof.
  intros Hl. split; [reflexivity | split].
  - intros l' H'. cbn. destruct (decide (l = l')) as [-> | Hne].
    + rewrite lookup_insert_eq. eauto.
    + rewrite lookup_insert_ne by assumption. exact H'.
  - intros l' a H. exists a. split; [exact H | reflexivity].
Qed.

Lemma evolves_array (st : state) (l : nat) (a a' : list nat) :
  arrays st !! l = Some a -> a' ≡ₚ a ->
  evolves st (set_arrays st (<[l := a']> (arrays st))).
Proof.
  intros Hl Hp. split; [reflexivity | split; [auto |]].
  intros l' x H. cbn. destruct (decide (l = l')) as [-> | Hne].
  - rewrite lookup_insert_eq. exists a'. split; [reflexivity | congruence].
  - rewrite lookup_insert_ne by assumption. exists x.
    split; [exact H | reflexivity].
Qed.

Lemma extends_bind (st : state) (b : buf) (r : result (buf * state))
    (k : buf -> state -> result (buf * state)) :
  extends st b r ->
  (forall b' st', extends st' b' (k b' st')) ->
  extends st b (let! (b', st') := r in k b' st').
Proof.
  destruct r as [[b1 s1] | msg]; cbn; [| trivial].
  intros (E1 & out1 & ->) Hk. specialize (Hk (b ++ out1) s1).
  destruct (k (b ++ out1) s1) as [[b2 s2] | msg]; cbn in *; [| trivial].
  destruct Hk as (E2 & out2 & ->). split.
  - eapply evolves_trans; eassumption.
  - exists (out1 ++ out2). symmetry. apply app_assoc.
Qed.

Lemma extends_evolved (s0 st : state) (b : buf) (r : result (buf * state)) :
  evolves s0 st -> extends st b r -> extends s0 b r.
Proof.
  intros E. destruct r as [[b' st'] | msg]; cbn; [| trivial].
  intros (E' & out). split; [eapply evolves_trans; eassumption | exact out].
Qed.

Lemma extends_ret (st st' : state) (b out : buf) :
  evolves st st' -> extends st b (Ok (b ++ out, st')).
Proof. intros E. split; [exact E | exists out; reflexivity]. Qed.

(** ** Append extends the buffer *)

Lemma typed_all (ps : list Part) :
  (fix all (ps : list Part) : Prop :=
     match ps with
     | [] => True
     | q :: qs => typed q /\ all qs
     end) ps <-> Forall typed ps.
Proof.
  induction ps as [| q qs IH]; [split; auto |].
  rewrite Forall_cons, <- IH. reflexivity.
Qed.

Section extending.
Variable f : Part -> state -> buf -> result (buf * state).

Lemma appendAll_extends (ps : list Part) :
  Forall (extending f) ps -> Forall typed ps ->
  forall st b, extends st b (appendAll f ps st b).
Proof.
  induction 1 as [| q qs Hq _ IH]; intros Ht st b; cbn [appendAll].
  - rewrite <- (app_nil_r b) at 2. apply extends_ret, evolves_refl.
  - apply Forall_cons in Ht as [Tq Tqs].
    apply (extends_bind st b (f q st b) (fun b' st' => appendAll f qs st' b')).
    + apply Hq, Tq.
    + intros b' st'. apply IH, Tqs.
Qed.

Lemma appendNth_extends (ps : list Part) :
  Forall (extending f) ps -> Forall typed ps ->
  forall n st b, extends st b (appendNth f ps n st b).
Proof.
  induction 1 as [| q qs Hq _ IH]; intros Ht n st b.
  - destruct n; exact I.
  - apply Forall_cons in Ht as [Tq Tqs]. destruct n as [| n]; cbn.
    + apply Hq, Tq.
    + apply IH, Tqs.
Qed.

Lemma repeat_loop_extends (ps : list Part) :
  Forall (extending f) ps -> Forall typed ps ->
  forall n st b, extends st b (repeat_loop f ps n st b).
Proof.
  intros He Ht n. induction n as [| n IH]; intros st b; cbn [repeat_loop].
  - rewrite <- (app_nil_r b) at 2. apply extends_ret, evolves_refl.
  - apply (extends_bind st b (appendAll f ps st b)
             (fun b' st' => repeat_loop f ps n st' b')).
    + apply appendAll_extends; assumption.
    + intros b' st'. apply IH.
Qed.

Lemma emit_loop_extends (ps : list Part) (arr : nat) :
  Forall (extending f) ps -> Forall typed ps ->
  forall todo i st b, extends st b (emit_loop f ps arr todo i st b).
Proof.
  intros He Ht todo. induction todo as [| todo IH]; intros i st b;
    cbn [emit_loop].
  - rewrite <- (app_nil_r b) at 2. apply extends_ret, evolves_refl.
  - destruct (arrays st !! arr) as [a |]; [| exact I].
    destruct (a !! i) as [k |]; [| exact I].
    apply (extends_bind st b (appendNth f ps k st b)
             (fun b' st' => emit_loop f ps arr todo (S i) st' b')).
    + apply appendNth_extends; assumption.
    + intros b' st'. apply IH.
Qed.
End extending.

Lemma swap_slots_evolves (arr i j : nat) (st st' : state) :
  swap_slots arr i j st = Ok st' -> evolves st st'.
Proof.
  unfold swap_slots. destruct (arrays st !! arr) as [a |] eqn:Ha; [| discriminate].
  destruct (a !! i) as [ai |] eqn:Hi; [| discriminate].
  destruct (a !! j) as [aj |] eqn:Hj; [| discriminate].
  intros [= <-]. apply (evolves_array st arr a); [assumption |].
  apply Permutation_insert_swap; assumption.
Qed.

Lemma shuffle_loop_evolves (arr i : nat) (st st' : state) :
  shuffle_loop arr i st = Ok st' -> evolves st st'.
Proof.
  revert st. induction i as [| i IH]; intros st; cbn [shuffle_loop].
  - intros [= <-]. apply evolves_refl.
  - unfold internal.RandN, internal.Fastrand.
    destruct (swap_slots arr (S i) _ _) as [st2 |] eqn:Hs; [| discriminate].
    intros H. apply swap_slots_evolves in Hs. apply IH in H.
    eapply evolves_trans; [| exact H].
    eapply evolves_trans; [| exact Hs]. apply evolves_drawn.
Qed.

Lemma pick_extends {A} (alphabet : list A) (len : Z) (st : state) (b : buf)
    (enc : A -> buf) :
  extends st b (let! (x, st1) := pick alphabet len st in Ok (b ++ enc x, st1)).
Proof.
  unfold pick, internal.RandN, internal.Fastrand.
  destruct (alphabet !! _) as [x |]; [| exact I].
  apply extends_ret, evolves_drawn.
Qed.

Lemma Append_extends (p : Part) :
  typed p -> forall st b, extends st b (Append p st b).
Proof.
  induction p as
    [ parts IH | | parts IH | parts min maxr IH | part IH | part percent IH
    | s | parts len IH | alphabet len | alphabet len | alphabet len
    | parts arr len IH | start max width curr ] using Part_nested_ind;
    intros Ht st b; cbn [Append typed] in *.
  - apply typed_all in Ht. apply appendAll_extends; assumption.
  - rewrite <- (app_nil_r b) at 2. apply extends_ret, evolves_refl.
  - apply typed_all in Ht. apply appendAll_extends; assumption.
  - destruct Ht as (_ & _ & Ht). apply typed_all in Ht.
    unfold internal.RandN, internal.Fastrand.
    eapply extends_evolved; [apply evolves_drawn |].
    apply repeat_loop_extends; assumption.
  - unfold internal.Fastrand.
    eapply extends_evolved; [apply (evolves_drawn st (S (drawn st))) |].
    destruct (_ =? _).
    + apply IH, Ht.
    + rewrite <- (app_nil_r b) at 2. apply extends_ret, evolves_refl.
  - unfold internal.RandFloat64, internal.Fastrand.
    eapply extends_evolved; [apply (evolves_drawn st (S (drawn st))) |].
    destruct (f64_le _ _).
    + apply IH, Ht.
    + rewrite <- (app_nil_r b) at 2. apply extends_ret, evolves_refl.
  - apply extends_ret, evolves_refl.
  - destruct Ht as (_ & Ht). apply typed_all in Ht.
    unfold internal.RandN, internal.Fastrand.
    eapply extends_evolved; [apply (evolves_drawn st (S (drawn st))) |].
    apply appendNth_extends; assumption.
  - apply (pick_extends alphabet len st b (fun s => bytes s)).
  - apply (pick_extends alphabet len st b (fun c => [c])).
  - apply (pick_extends alphabet len st b encode_rune).
  - destruct Ht as (_ & Ht). apply typed_all in Ht.
    destruct (shuffle_loop arr _ st) as [st1 |] eqn:Hs; [| exact I].
    apply shuffle_loop_evolves in Hs.
    eapply extends_evolved; [exact Hs |].
    apply emit_loop_extends; assumption.
  - destruct Ht as (Hs & _).
    unfold LoadUint64, CompareAndSwapUint64.
    destruct (cells st !! curr) as [last |] eqn:Hc; [| exact I].
    rewrite Z.eqb_refl. fold (sequence_next start max last).
    rewrite appendInt_padded.
    + cbv zeta. destruct (int_max <? _); [exact I |].
      apply extends_ret, evolves_cell. rewrite Hc. eauto.
    + unfold sequence_next.
      destruct (_ || _); [assumption | apply u64_range].
Qed.

(** ** Append returns on well-formed parts *)

Lemma well_formed_all (st : state) (ps : list Part) :
  (fix all (ps : list Part) : Prop :=
     match ps with
     | [] => True
     | q :: qs => well_formed st q /\ all qs
     end) ps <-> Forall (well_formed st) ps.
Proof.
  induction ps as [| q qs IH]; [split; auto |].
  rewrite Forall_cons, <- IH. reflexivity.
Qed.

Lemma Forall_impl_Forall {A} (P Q : A -> Prop) (l : list A) :
  Forall (fun x => P x -> Q x) l -> Forall P l -> Forall Q l.
Proof.
  induction 1 as [| x l Hx _ IH]; intros H; [constructor |].
  apply Forall_cons in H as [Px Pl]. constructor; auto.
Qed.

Lemma well_formed_typed (st : state) (p : Part) : well_formed st p -> typed p.
Proof.
  induction p as
    [ parts IH | | parts IH | parts min maxr IH | part IH | part percent IH
    | s | parts len IH | alphabet len | alphabet len | alphabet len
    | parts arr len IH | start max width curr ] using Part_nested_ind;
    cbn [well_formed typed]; rewrite ?well_formed_all, ?typed_all;
    try tauto.
  - apply Forall_impl_Forall, IH.
  - apply Forall_impl_Forall, IH.
  - intros (? & ? & H). eauto using Forall_impl_Forall.
  - intros (_ & -> & H). split; [apply u32_range |].
    eauto using Forall_impl_Forall.
  - intros (_ & ->). apply u32_range.
  - intros (_ & ->). apply u32_range.
  - intros (_ & ->). apply u32_range.
  - intros (_ & -> & _ & H). split; [apply u32_range |].
    eauto using Forall_impl_Forall.
Qed.

Lemma well_formed_evolves (st st' : state) (p : Part) :
  evolves st st' -> well_formed st p -> well_formed st' p.
Proof.
  intros (_ & Hc & Ha).
  induction p as
    [ parts IH | | parts IH | parts min maxr IH | part IH | part percent IH
    | s | parts len IH | alphabet len | alphabet len | alphabet len
    | parts arr len IH | start max width curr ] using Part_nested_ind;
    cbn [well_formed]; rewrite ?well_formed_all; try tauto.
  - apply Forall_impl_Forall, IH.
  - apply Forall_impl_Forall, IH.
  - intros (? & ? & H). eauto using Forall_impl_Forall.
  - intros (? & ? & H). eauto using Forall_impl_Forall.
  - intros (Hne & Hl & (a & Hx & Hlen & Hk) & H).
    split; [assumption | split; [assumption | split]].
    + destruct (Ha arr a Hx) as (a' & Hx' & Hp). exists a'.
      split; [assumption | split].
      * rewrite Hp. assumption.
      * rewrite Hp. assumption.
    + eauto using Forall_impl_Forall.
  - intros (? & H). split; [assumption | apply Hc, H].
Qed.

Lemma scale_index (L : nat) (r : Z) :
  L <> O ->
  (Z.to_nat (internal.scale (u32 (Z.of_nat L)) (u64 r)) < L)%nat.
Proof.
  intros HL. set (m := u32 (Z.of_nat L)).
  pose proof (u32_range (Z.of_nat L)) as Hm. fold m in Hm.
  assert (Hle : m <= Z.of_nat L).
  { unfold m, u32. apply Z.mod_le; lia. }
  destruct (Z.eq_dec m 0) as [-> | Hne].
  - rewrite scale_zero. cbn. lia.
  - pose proof (scale_range m (u64 r) ltac:(unfold is_u32 in Hm; lia) Hm
                  (u64_range r)). lia.
Qed.

Lemma stored_length (L : nat) :
  L <> O ->
  (Z.to_nat (u32 (u32 (Z.of_nat L) - 1)) < L)%nat /\
  (Z.to_nat (u32 (Z.of_nat L)) <= L)%nat.
Proof.
  intros HL. set (m := u32 (Z.of_nat L)).
  pose proof (u32_range (Z.of_nat L)) as Hm. fold m in Hm.
  unfold is_u32 in Hm.
  assert (Hle : m <= Z.of_nat L) by (unfold m, u32; apply Z.mod_le; lia).
  split; [| lia].
  destruct (Z.eq_dec m 0) as [E | Hne].
  - rewrite E. change (u32 (0 - 1)) with (2 ^ 32 - 1).
    assert (2 ^ 32 <= Z.of_nat L); [| lia].
    unfold m, u32 in E.
    pose proof (Z.div_mod (Z.of_nat L) (2 ^ 32) ltac:(lia)) as D.
    rewrite E in D.
    assert (0 < Z.of_nat L / 2 ^ 32); [| lia].
    destruct (Z.eq_dec (Z.of_nat L / 2 ^ 32) 0) as [Z0 | ?].
    + rewrite Z0 in D. lia.
    + assert (0 <= Z.of_nat L / 2 ^ 32) by (apply Z.div_pos; lia). lia.
  - rewrite (u32_small (m - 1)) by (unfold is_u32; lia). lia.
Qed.

(** The array at [arr] has [n] slots that hold indices below [n]. *)
Lemma slots_evolve (st st' : state) (arr n : nat) :
  evolves st st' ->
  (exists a, arrays st !! arr = Some a /\ length a = n /\
             Forall (fun k => k < n)%nat a) ->
  exists a, arrays st' !! arr = Some a /\ length a = n /\
            Forall (fun k => k < n)%nat a.
Proof.
  intros (_ & _ & Ha) (a & Hx & Hlen & Hk).
  destruct (Ha arr a Hx) as (a' & Hx' & Hp). exists a'.
  split; [assumption |]. rewrite Hp. split; assumption.
Qed.

Lemma shuffle_loop_ok (arr n : nat) (i : nat) (st : state) :
  (i < n)%nat ->
  (exists a, arrays st !! arr = Some a /\ length a = n /\
             Forall (fun k => k < n)%nat a) ->
  is_ok (shuffle_loop arr i st).
Proof.
  revert st. induction i as [| i IH]; intros st Hi Hs; cbn [shuffle_loop].
  - exact I.
  - unfold internal.RandN, internal.Fastrand.
    set (st1 := set_drawn st (S (drawn st))).
    set (j := Z.to_nat _).
    assert (Hj : (j < S (S i))%nat).
    { unfold j. replace (Z.of_nat (S i) + 1) with (Z.of_nat (S (S i))) by lia.
      apply scale_index. lia. }
    destruct Hs as (a & Hx & Hlen & Hk).
    destruct (swap_slots arr (S i) j st1) as [st2 | msg] eqn:Hsw.
    + apply IH; [lia |].
      apply (slots_evolve st st2).
      * eapply evolves_trans; [apply (evolves_drawn st (S (drawn st))) |].
        eapply swap_slots_evolves, Hsw.
      * exists a. auto.
    + exfalso. unfold swap_slots in Hsw. cbn [arrays st1 set_drawn] in Hsw.
      rewrite Hx in Hsw.
      destruct (lookup_lt_is_Some_2 a (S i) ltac:(lia)) as [ai Hai].
      destruct (lookup_lt_is_Some_2 a j ltac:(lia)) as [aj Haj].
      rewrite Hai, Haj in Hsw. discriminate Hsw.
Qed.

Lemma widths_fit_all (ps : list Part) :
  (fix all (ps : list Part) : Prop :=
     match ps with
     | [] => True
     | q :: qs => widths_fit q /\ all qs
     end) ps <-> Forall widths_fit ps.
Proof.
  induction ps as [| q qs IH]; [split; auto |].
  rewrite Forall_cons, <- IH. reflexivity.
Qed.

Section returning.
Lemma appendAll_ok (ps : list Part) :
  Forall returning ps ->
  forall st b, Forall (well_formed st) ps -> Forall widths_fit ps ->
  is_ok (appendAll Append ps st b).
Proof.
  induction 1 as [| q qs Hq _ IH]; intros st b Hw Hf; cbn [appendAll].
  - exact I.
  - apply Forall_cons in Hw as [Wq Wqs]. apply Forall_cons in Hf as [Fq Fqs].
    pose proof (Hq st b Wq Fq) as Hok.
    pose proof (Append_extends q (well_formed_typed st q Wq) st b) as Hex.
    destruct (Append q st b) as [[b' st'] | msg]; [| contradiction].
    destruct Hex as [Hev _]. apply IH; [| exact Fqs].
    eapply Forall_impl; [exact Wqs |].
    intros x. apply well_formed_evolves, Hev.
Qed.

Lemma appendNth_ok (ps : list Part) :
  Forall returning ps ->
  forall n st b, Forall (well_formed st) ps -> Forall widths_fit ps ->
  (n < length ps)%nat ->
  is_ok (appendNth Append ps n st b).
Proof.
  induction 1 as [| q qs Hq _ IH]; intros n st b Hw Hf Hn; cbn in Hn.
  - lia.
  - apply Forall_cons in Hw as [Wq Wqs]. apply Forall_cons in Hf as [Fq Fqs].
    destruct n as [| n]; cbn.
    + apply Hq; [exact Wq | exact Fq].
    + apply IH; [assumption | assumption | lia].
Qed.

Lemma repeat_loop_ok (ps : list Part) :
  Forall returning ps ->
  forall n st b, Forall (well_formed st) ps -> Forall widths_fit ps ->
  is_ok (repeat_loop Append ps n st b).
Proof.
  intros Hr n. induction n as [| n IH]; intros st b Hw Hf; cbn [repeat_loop].
  - exact I.
  - pose proof (appendAll_ok ps Hr st b Hw Hf) as Hok.
    assert (Hex : extends st b (appendAll Append ps st b)).
    { apply appendAll_extends.
      - apply Forall_forall. intros q _. exact (Append_extends q).
      - eapply Forall_impl; [exact Hw |]. apply well_formed_typed. }
    destruct (appendAll Append ps st b) as [[b' st'] | msg]; [| contradiction].
    destruct Hex as [Hev _]. apply IH; [| exact Hf].
    eapply Forall_impl; [exact Hw |].
    intros x. apply well_formed_evolves, Hev.
Qed.

Lemma emit_loop_ok (ps : list Part) (arr : nat) :
  Forall returning ps ->
  forall todo i st b, Forall (well_formed st) ps -> Forall widths_fit ps ->
  (i + todo <= length ps)%nat ->
  (exists a, arrays st !! arr = Some a /\ length a = length ps /\
             Forall (fun k => k < length ps)%nat a) ->
  is_ok (emit_loop Append ps arr todo i st b).
Proof.
  intros Hr todo. induction todo as [| todo IH]; intros i st b Hw Hf Hi Hs;
    cbn [emit_loop].
  - exact I.
  - destruct Hs as (a & Hx & Hlen & Hk). rewrite Hx.
    destruct (lookup_lt_is_Some_2 a i ltac:(lia)) as [k Hai]. rewrite Hai.
    pose proof (Forall_lookup_1 _ _ _ _ Hk Hai) as Hlt. cbn in Hlt.
    pose proof (appendNth_ok ps Hr k st b Hw Hf Hlt) as Hok.
    assert (Hex : extends st b (appendNth Append ps k st b)).
    { apply appendNth_extends.
      - apply Forall_forall. intros q _. exact (Append_extends q).
      - eapply Forall_impl; [exact Hw |]. apply well_formed_typed. }
    destruct (appendNth Append ps k st b) as [[b' st'] | msg];
      [| contradiction].
    destruct Hex as [Hev _]. apply IH.
    + eapply Forall_impl; [exact Hw |].
      intros x. apply well_formed_evolves, Hev.
    + exact Hf.
    + lia.
    + apply (slots_evolve st st'); [exact Hev |]. exists a. auto.
Qed.
End returning.

Lemma pick_ok {A} (alphabet : list A) (st : state) :
  alphabet <> [] ->
  is_ok (pick alphabet (u32 (Z.of_nat (length alphabet))) st).
Proof.
  intros Hne. unfold pick, internal.RandN, internal.Fastrand.
  assert (Hl : length alphabet <> O) by (destruct alphabet; cbn; congruence).
  pose proof (scale_index (length alphabet) (raw st (drawn st)) Hl) as Hi.
  destruct (lookup_lt_is_Some_2 alphabet _ Hi) as [x Hx].
  rewrite Hx. exact I.
Qed.

Lemma Append_ok (p : Part) (st : state) (b : buf) :
  well_formed st p -> widths_fit p -> is_ok (Append p st b).
Proof.
  revert st b. change (returning p).
  induction p as
    [ parts IH | | parts IH | parts min maxr IH | part IH | part percent IH
    | s | parts len IH | alphabet len | alphabet len | alphabet len
    | parts arr len IH | start max width curr ] using Part_nested_ind;
    intros st b Hw Hf; cbn [Append well_formed widths_fit] in *;
    rewrite ?widths_fit_all in Hf.
  - apply well_formed_all in Hw. apply appendAll_ok; assumption.
  - exact I.
  - apply well_formed_all in Hw. apply appendAll_ok; assumption.
  - destruct Hw as (_ & _ & Hw). apply well_formed_all in Hw.
    unfold internal.RandN, internal.Fastrand.
    apply repeat_loop_ok; [assumption | | assumption].
    eapply Forall_impl; [exact Hw |].
    intros x. apply well_formed_evolves, evolves_drawn.
  - unfold internal.Fastrand. destruct (_ =? _); [| exact I].
    apply IH; [| exact Hf].
    eapply well_formed_evolves; [apply evolves_drawn | exact Hw].
  - unfold internal.RandFloat64, internal.Fastrand.
    destruct (f64_le _ _); [| exact I].
    apply IH; [| exact Hf].
    eapply well_formed_evolves; [apply evolves_drawn | exact Hw].
  - exact I.
  - destruct Hw as (Hne & -> & Hw). apply well_formed_all in Hw.
    unfold internal.RandN, internal.Fastrand.
    apply appendNth_ok; [assumption | | assumption |].
    + eapply Forall_impl; [exact Hw |].
      intros x. apply well_formed_evolves, evolves_drawn.
    + apply scale_index. destruct parts; cbn; congruence.
  - destruct Hw as (Hne & ->). pose proof (pick_ok alphabet st Hne) as H.
    destruct (pick _ _ _) as [[x st1] |]; [exact I | contradiction].
  - destruct Hw as (Hne & ->). pose proof (pick_ok alphabet st Hne) as H.
    destruct (pick _ _ _) as [[x st1] |]; [exact I | contradiction].
  - destruct Hw as (Hne & ->). pose proof (pick_ok alphabet st Hne) as H.
    destruct (pick _ _ _) as [[x st1] |]; [exact I | contradiction].
  - destruct Hw as (Hne & -> & Hs & Hw). apply well_formed_all in Hw.
    assert (Hl : length parts <> O) by (destruct parts; cbn; congruence).
    destruct (stored_length (length parts) Hl) as [Hfirst Hcount].
    pose proof (shuffle_loop_ok arr (length parts) _ st Hfirst Hs) as Hok.
    destruct (shuffle_loop arr _ st) as [st1 | msg] eqn:Hsl; [| contradiction].
    apply shuffle_loop_evolves in Hsl.
    apply emit_loop_ok; [assumption | | assumption | lia |].
    + eapply Forall_impl; [exact Hw |].
      intros x. apply well_formed_evolves, Hsl.
    + apply (slots_evolve st st1); assumption.
  - destruct Hw as ((Hs & _) & last & Hc).
    pose proof (Append_sequence start max width curr st b last Hs Hf Hc) as E.
    cbn [Append] in E. rewrite E. exact I.
Qed.

(** ** What the constructors build is well-formed *)

Lemma well_formed_group (st : state) (ps : list Part) :
  well_formed st (group ps) <-> Forall (well_formed st) ps.
Proof. exact (well_formed_all st ps). Qed.

Lemma well_formed_gen (st : state) (ps : list Part) :
  well_formed st (gen ps) <-> Forall (well_formed st) ps.
Proof. exact (well_formed_all st ps). Qed.

Lemma New_loop_well_formed (st : state) (ps acc : list Part) :
  Forall (well_formed st) ps -> Forall (well_formed st) acc ->
  Forall (well_formed st) (New_loop ps acc).
Proof.
  intros Hps. revert acc.
  induction Hps as [| v rest Hv _ IH]; intros acc Hacc; cbn [New_loop].
  - exact Hacc.
  - destruct v; try (apply IH, Forall_app; split; [exact Hacc |];
                     constructor; [exact Hv | constructor]).
    + apply IH, Hacc.
    + apply IH, Forall_app. split; [exact Hacc |].
      apply well_formed_group. exact Hv.
Qed.

Lemma Group_well_formed (st : state) (ps : list Part) :
  Forall (well_formed st) ps -> well_formed st (Group ps).
Proof.
  intros H. unfold Group. destruct ps as [| q [| q' qs]].
  - exact I.
  - apply Forall_cons in H as [Hq _]. exact Hq.
  - apply well_formed_group. exact H.
Qed.

Lemma Repeat_well_formed (st : state) (min max : Z) (ps : list Part) (p : Part) :
  is_u32 min -> is_u32 max -> Forall (well_formed st) ps ->
  Repeat min max ps = Ok p -> well_formed st p.
Proof.
  intros Hmin Hmax Hps. unfold Repeat.
  destruct (max =? 0); [discriminate |].
  destruct (max <? min); [discriminate |].
  destruct ((0 <? min) && (min =? max)).
  { intros [= <-]. apply well_formed_group.
    rewrite Repeat_fill_concat. cbn [app].
    apply Forall_concat. apply Forall_replicate. exact Hps. }
  destruct ((min =? 0) && (max =? 1)).
  { intros [= <-]. cbn [well_formed]. apply Group_well_formed, Hps. }
  intros [= <-].
  split; [exact Hmin | split; [apply u32_range |]].
  apply (well_formed_all st ps), Hps.
Qed.

Lemma Potentially_well_formed (st : state) (c : float64) (q p : Part) :
  well_formed st q -> Potentially c q = Ok p -> well_formed st p.
Proof.
  intros Hq. unfold Potentially.
  destruct (f64_lt c f64_zero); [discriminate |].
  destruct (f64_eq c f64_zero); [intros [= <-]; exact I |].
  destruct (f64_le f64_one c); [intros [= <-]; exact Hq |].
  destruct (f64_eq c f64_half); intros [= <-]; exact Hq.
Qed.

Lemma OneOf_well_formed (st : state) (ps : list Part) :
  ps <> [] -> Forall (well_formed st) ps -> well_formed st (OneOf ps).
Proof.
  intros Hne H. unfold OneOf. destruct ps as [| q [| q' qs]].
  - congruence.
  - apply Forall_cons in H as [Hq _]. exact Hq.
  - split; [discriminate | split; [reflexivity |]].
    apply (well_formed_all st (q :: q' :: qs)). exact H.
Qed.

Lemma Shuffle_evolves (ps : list Part) (st : state) :
  evolves st (snd (Shuffle ps st)).
Proof.
  unfold Shuffle. cbn [snd]. split; [reflexivity | split; [auto |]].
  intros l a H. exists a. split; [| reflexivity]. cbn.
  rewrite lookup_insert_ne; [exact H |].
  intros <-. pose proof (is_fresh (dom (arrays st))) as Hf.
  apply Hf, elem_of_dom. rewrite H. eauto.
Qed.

Lemma Shuffle_well_formed (ps : list Part) (st : state) :
  ps <> [] -> Forall (well_formed st) ps ->
  well_formed (snd (Shuffle ps st)) (fst (Shuffle ps st)).
Proof.
  intros Hne H. pose proof (Shuffle_evolves ps st) as Hev.
  unfold Shuffle in *. cbn [fst snd] in *.
  split; [exact Hne | split; [reflexivity | split]].
  - exists (seq 0 (length ps)). cbn. rewrite lookup_insert_eq.
    split; [reflexivity | split; [apply length_seq |]].
    apply Forall_forall. intros k Hk. apply elem_of_seq in Hk. lia.
  - apply (well_formed_all _ ps). eapply Forall_impl; [exact H |].
    intros x. apply well_formed_evolves, Hev.
Qed.

Lemma Sequence_evolves (start max width : Z) (st st' : state) (p : Part) :
  Sequence start max width st = Ok (p, st') -> evolves st st'.
Proof.
  unfold Sequence. destruct (max <? start); [discriminate |].
  intros [= _ <-]. split; [reflexivity | split].
  - intros l H. cbn. rewrite lookup_insert_ne; [exact H |].
    intros <-. pose proof (is_fresh (dom (cells st))) as Hf.
    apply Hf, elem_of_dom, H.
  - intros l a H. exists a. split; [exact H | reflexivity].
Qed.

Lemma Sequence_well_formed (start max width : Z) (st st' : state) (p : Part) :
  is_u64 start -> is_u64 max ->
  Sequence start max width st = Ok (p, st') -> well_formed st' p.
Proof.
  intros Hs Hm. unfold Sequence. destruct (max <? start); [discriminate |].
  intros [= <- <-]. cbn [well_formed]. split; [split; assumption |].
  cbn. rewrite lookup_insert_eq. eauto.
Qed.

Lemma built_well_formed (st : state) (p : Part) :
  built st p -> well_formed st p.
Proof.
  induction 1 as
    [ st ps _ IH | st ps _ IH | st min max ps p Hmin Hmax _ IH HR
    | st c q p _ IH HP | st s | st ps Hne _ IH | st s Hne | st b Hne
    | st r Hne | st ps p st' Hne _ IH HS
    | st start max width p st' Hs Hm HS | st st' p Hev _ IH ].
  - unfold New. apply well_formed_gen.
    apply New_loop_well_formed; [| constructor].
    apply Forall_forall, IH.
  - apply Group_well_formed, Forall_forall, IH.
  - apply (Repeat_well_formed st min max ps p Hmin Hmax);
      [apply Forall_forall, IH | exact HR].
  - apply (Potentially_well_formed st c q p IH HP).
  - exact I.
  - apply OneOf_well_formed; [exact Hne | apply Forall_forall, IH].
  - split; [exact Hne | reflexivity].
  - split; [exact Hne | reflexivity].
  - split; [exact Hne | reflexivity].
  - pose proof (Shuffle_well_formed ps st Hne) as W.
    rewrite HS in W. apply W, Forall_forall, IH.
  - exact (Sequence_well_formed start max width st st' p Hs Hm HS).
  - exact (well_formed_evolves st st' p Hev IH).
Qed.

Lemma built_runs (st : state) (p : Part) (b : buf) :
  built st p -> widths_fit p ->
  exists out st', Append p st b = Ok (b ++ out, st') /\ evolves st st'.
Proof.
  intros Hb Hf. apply built_well_formed in Hb.
  pose proof (Append_ok p st b Hb Hf) as Hok.
  pose proof (Append_extends p (well_formed_typed st p Hb) st b) as Hex.
  destruct (Append p st b) as [[b' st'] | msg]; [| contradiction].
  destruct Hex as (Hev & out & ->). exists out, st'. auto.
Qed.

(** ** Generation on what the constructors build *)

Lemma built_stays (st st' : state) (p : Part) (b b' : buf) :
  built st p -> Append p st b = Ok (b', st') -> built st' p.
Proof.
  intros Hb E.
  pose proof (Append_extends p
                (well_formed_typed st p (built_well_formed st p Hb)) st b)
    as Hex.
  rewrite E in Hex. destruct Hex as [Hev _].
  exact (built_later st st' p Hev Hb).
Qed.

Lemma Append_shuffle (ps : list Part) (arr : nat) (len : Z) (st : state) (b : buf) :
  Append (shuffle ps arr len) st b =
  let! st1 := shuffle_loop arr (Z.to_nat (u32 (len - 1))) st in
  emit_loop Append ps arr (Z.to_nat len) O st1 b.
Proof. reflexivity. Qed.

Lemma shuffle_loop_empty (arr i : nat) (st : state) :
  arrays st !! arr = Some [] ->
  shuffle_loop arr (S i) st = Panic "index out of range".
Proof.
  intros Ha. cbn [shuffle_loop].
  unfold internal.RandN, internal.Fastrand, swap_slots.
  cbn [arrays set_drawn]. rewrite Ha, !lookup_nil. reflexivity.
Qed.

Lemma shuffle_empty_panics (arr : nat) (st : state) (b : buf) :
  arrays st !! arr = Some [] ->
  Append (shuffle [] arr 0) st b = Panic "index out of range".
Proof.
  intros Ha. rewrite Append_shuffle.
  assert (E : Z.to_nat (u32 (0 - 1)) = S (Z.to_nat 4294967294)).
  { rewrite <- Z2Nat.inj_succ by lia. reflexivity. }
  rewrite E, (shuffle_loop_empty arr _ st Ha). reflexivity.
Qed.

(** C2 (as amended). No panic occurs during generation for any part that
    the constructors build when the Choice constructors and [Shuffle] are
    given at least one entry and every [Sequence] a width that fits (an
    [int], at least 20 above the least one): [Append] returns from every
    buffer, extending it, [String] returns for a generator, and the part is
    still built in the state the run ends in, so that every later
    generation returns as well. *)
Theorem generation_returns (st : state) (p : Part) :
  built st p -> widths_fit p ->
  (forall b, exists out st',
     Append p st b = Ok (b ++ out, st') /\ built st' p) /\
  (forall parts, p = gen parts ->
     exists s st', gen_String parts st = Ok (s, st') /\ built st' p).
Proof.
  intros Hb Hf. split.
  - intros b. destruct (built_runs st p b Hb Hf) as (out & st' & E & Hev).
    exists out, st'. split; [exact E |].
    exact (built_later st st' p Hev Hb).
  - intros parts ->.
    destruct (built_runs st (gen parts) [] Hb Hf) as (out & st' & E & Hev).
    cbn [Append] in E. unfold gen_String. rewrite E.
    eexists _, st'. split; [reflexivity |].
    exact (built_later st st' (gen parts) Hev Hb).
Qed.

Lemma generation_returns_witness :
  exists p st1 out st',
    Sequence 0 9 2 (st0 (fun _ => 0)) = Ok (p, st1) /\
    Append (New [Literal "id-"; OneOfByte (bytes "ab"); p]) st1 (bytes ">")
    = Ok (bytes ">" ++ out, st').
Proof.
  assert (H0 : is_u64 0) by (unfold is_u64; lia).
  assert (H9 : is_u64 9) by (unfold is_u64; lia).
  destruct (Sequence 0 9 2 (st0 (fun _ => 0))) as [[p st1] | msg] eqn:HS;
    [| discriminate HS].
  assert (Hb : built st1 (New [Literal "id-"; OneOfByte (bytes "ab"); p])).
  { apply built_New. intros q Hq.
    apply elem_of_cons in Hq as [-> | Hq]; [apply built_Literal |].
    apply elem_of_cons in Hq as [-> | Hq];
      [apply built_OneOfByte; discriminate |].
    apply elem_of_cons in Hq as [-> | Hq]; [| inversion Hq].
    exact (built_Sequence _ 0 9 2 p st1 H0 H9 HS). }
  assert (Hf : widths_fit (New [Literal "id-"; OneOfByte (bytes "ab"); p])).
  { injection HS as <- _. cbn.
    unfold width_fits, int_min, int_max. repeat split; lia. }
  destruct (generation_returns _ _ Hb Hf) as [H _].
  destruct (H (bytes ">")) as (out & st' & E & _).
  exists p, st1, out, st'. split; [reflexivity | exact E].
Defined.

(** C2 (as stated) fails: [OneOfByte] of the empty alphabet is constructed
    without a panic, and generation then indexes out of range. *)
Lemma OneOfByte_empty_panics_at_generation :
  OneOfByte [] = anyOfByte [] 0 /\
  Append (New [OneOfByte []]) (st0 (fun _ => 0)) []
    = Panic "index out of range".
Proof. split; reflexivity. Qed.

(** The other constructors that take an alphabet or a child list behave
    alike on the empty one. *)
Lemma empty_choices_panic (st : state) (b : buf) :
  Append (OneOf []) st b = Panic "index out of range" /\
  Append (OneOfString []) st b = Panic "index out of range" /\
  Append (OneOfByte []) st b = Panic "index out of range" /\
  Append (OneOfRune []) st b = Panic "index out of range" /\
  Append (fst (Shuffle [] st)) (snd (Shuffle [] st)) b
    = Panic "index out of range".
Proof.
  split; [reflexivity |]. split; [reflexivity |].
  split; [reflexivity |]. split; [reflexivity |].
  unfold Shuffle. cbn [fst snd length]. change (u32 (Z.of_nat 0)) with 0.
  apply shuffle_empty_panics. cbn. apply lookup_insert_eq.
Qed.

(** ** Construction errors *)

(** [Sequence] does not look at its width: with the least [int] it returns
    a part, and the first generation fails. *)
Lemma Sequence_defers_its_width (st : state) (b : buf) :
  exists p st',
    Sequence 0 9 int_min st = Ok (p, st') /\
    Append p st' b = Panic "growslice: len out of range".
Proof.
  eexists _, _. split; [reflexivity |].
  cbn [Append]. unfold LoadUint64, CompareAndSwapUint64. cbn [cells set_cells].
  rewrite lookup_insert_eq, Z.eqb_refl. reflexivity.
Qed.

(** C6 (as amended). [Repeat] panics exactly when [max == 0] or
    [max < min], [Potentially] exactly when its probability is below zero,
    [Sequence] exactly when [max < start], each at construction; and when
    one of these three returns a part, built from parts that are built,
    in which every sequence has a width that fits (an [int], at least 20
    above the least one), generation on it returns: with such widths none
    of the three defers an error. *)
Theorem construction_errors :
  (forall min max ps, is_panic (Repeat min max ps) <-> max = 0 \/ max < min) /\
  (forall c p, is_panic (Potentially c p) <-> f64_lt c f64_zero = true) /\
  (forall start max width st,
     is_panic (Sequence start max width st) <-> max < start) /\
  (forall st min max ps p b,
     is_u32 min -> is_u32 max -> (forall q, q ∈ ps -> built st q) ->
     Repeat min max ps = Ok p -> widths_fit p -> is_ok (Append p st b)) /\
  (forall st c q p b,
     built st q -> Potentially c q = Ok p -> widths_fit p ->
     is_ok (Append p st b)) /\
  (forall st start max width p st' b,
     is_u64 start -> is_u64 max -> width_fits width ->
     Sequence start max width st = Ok (p, st') -> is_ok (Append p st' b)).
Proof.
  assert (R : forall st p b,
            built st p -> widths_fit p -> is_ok (Append p st b)).
  { intros st p b Hb Hf. apply Append_ok; [| exact Hf].
    apply built_well_formed, Hb. }
  split; [| split; [| split; [| split; [| split]]]].
  - intros min max ps. unfold Repeat.
    destruct (Z.eqb_spec max 0) as [-> | H0]; cbn; [split; auto |].
    destruct (Z.ltb_spec max min); cbn; [split; auto |].
    destruct (_ && _); [cbn; lia |]. destruct (_ && _); cbn; lia.
  - intros c p. unfold Potentially.
    destruct (f64_lt c f64_zero); cbn; [split; auto |].
    destruct (f64_eq c f64_zero); cbn; [split; [tauto | discriminate] |].
    destruct (f64_le f64_one c); cbn; [split; [tauto | discriminate] |].
    destruct (f64_eq c f64_half); cbn; split; try tauto; discriminate.
  - intros start max width st. unfold Sequence.
    destruct (Z.ltb_spec max start); cbn; [split; auto | lia].
  - intros st min max ps p b Hmin Hmax Hps HR Hf.
    apply R; [| exact Hf].
    exact (built_Repeat st min max ps p Hmin Hmax Hps HR).
  - intros st c q p b Hq HP Hf. apply R; [| exact Hf].
    exact (built_Potentially st c q p Hq HP).
  - intros st start max width p st' b Hs Hm Hw HS.
    apply R; [exact (built_Sequence st start max width p st' Hs Hm HS) |].
    unfold Sequence in HS. destruct (max <? start); [discriminate |].
    injection HS as <- _. exact Hw.
Qed.

Lemma construction_errors_witness :
  is_ok (Append (repeat [Literal "o"] 5 6) (st0 (fun _ => 0)) []) /\
  exists p st',
    Sequence 1 3 2 (st0 (fun _ => 0)) = Ok (p, st') /\ is_ok (Append p st' []).
Proof.
  assert (H5 : is_u32 5) by (unfold is_u32; lia).
  assert (H10 : is_u32 10) by (unfold is_u32; lia).
  assert (H1 : is_u64 1) by (unfold is_u64; lia).
  assert (H3 : is_u64 3) by (unfold is_u64; lia).
  assert (H2 : width_fits 2) by (unfold width_fits, int_min, int_max; lia).
  destruct construction_errors as (_ & _ & _ & R & _ & S).
  split.
  - apply (R (st0 (fun _ => 0)) 5 10 [Literal "o"] _ [] H5 H10).
    + intros q Hq. apply list_elem_of_singleton in Hq as ->.
      apply built_Literal.
    + reflexivity.
    + cbn. auto.
  - eexists _, _. split; [reflexivity |].
    exact (S (st0 (fun _ => 0)) 1 3 2 _ _ [] H1 H3 H2 eq_refl).
Defined.

(** C6 (as stated) fails on its last clause: [Shuffle] of no parts is
    constructed without a panic and the error surfaces at generation. *)
Lemma Shuffle_empty_defers_its_error :
  Append (fst (Shuffle [] (st0 (fun _ => 0))))
         (snd (Shuffle [] (st0 (fun _ => 0)))) []
    = Panic "index out of range".
Proof. apply empty_choices_panic. Qed.

(** ** The buffer handed to Append *)

(** C10 (as amended). Whenever [Append] returns, for any part and buffer
    [b], what it returns is [b] followed by the output of the part; and it
    does return for every part the constructors build from non-empty
    alphabets and child lists and from sequence widths that fit (an [int],
    at least 20 above the least one), which is then built still, so that
    repeated calls accumulate: the generator of the literal "o" appended
    twice to "hello" gives "hellooo". *)
Theorem Append_keeps_the_buffer :
  (forall p st b b' st',
     typed p -> Append p st b = Ok (b', st') ->
     exists out, b' = b ++ out /\ take (length b) b' = b) /\
  (forall p st b,
     built st p -> widths_fit p ->
     exists out st', Append p st b = Ok (b ++ out, st') /\ built st' p) /\
  (forall st,
     Append (New [Literal "o"]) st (bytes "hello") = Ok (bytes "helloo", st) /\
     Append (New [Literal "o"]) st (bytes "helloo") = Ok (bytes "hellooo", st)).
Proof.
  split; [| split].
  - intros p st b b' st' Ht E.
    pose proof (Append_extends p Ht st b) as Hex. rewrite E in Hex.
    destruct Hex as (_ & out & ->). exists out. split; [reflexivity |].
    rewrite take_app_length. reflexivity.
  - intros p st b Hb Hf.
    destruct (built_runs st p b Hb Hf) as (out & st' & E & Hev).
    exists out, st'. split; [exact E |].
    exact (built_later st st' p Hev Hb).
  - intros st. split; reflexivity.
Qed.

Lemma Append_keeps_the_buffer_witness :
  take 5 (bytes "hellooo") = bytes "hello" /\
  exists out,
    Append (New [Literal "o"]) (st0 (fun _ => 0)) (bytes "hello")
    = Ok (bytes "hello" ++ out, st0 (fun _ => 0)).
Proof.
  destruct Append_keeps_the_buffer as (F & _ & E).
  destruct (E (st0 (fun _ => 0))) as [E1 E2].
  assert (Ht : typed (New [Literal "o"])) by (cbn; auto).
  destruct (F _ _ _ _ _ Ht E1) as (out & Ho & _).
  split; [reflexivity |].
  exists out. rewrite <- Ho. exact E1.
Defined.

(** C10 (as stated) fails: on a generator that holds [OneOfString] of the
    empty alphabet [Append] returns no buffer at all. *)
Lemma Append_of_empty_choice_returns_nothing :
  Append (New [Literal "a"; OneOfString []]) (st0 (fun _ => 0)) (bytes "hello")
    = Panic "index out of range".
Proof. reflexivity. Qed.

(** ** New *)

Lemma New_loop_app (xs ys acc : list Part) :
  New_loop (xs ++ ys) acc = New_loop ys (New_loop xs acc).
Proof.
  revert acc. induction xs as [| v xs IH]; intros acc; cbn [New_loop app].
  - reflexivity.
  - destruct v; apply IH.
Qed.

Lemma New_loop_acc (ps acc : list Part) :
  New_loop ps acc = acc ++ New_loop ps [].
Proof.
  revert acc. induction ps as [| v ps IH]; intros acc; cbn [New_loop].
  - symmetry. apply app_nil_r.
  - destruct v; cbn [app];
      try (rewrite (IH (acc ++ _)), (IH [_]), <- app_assoc; reflexivity).
    + apply IH.
    + rewrite (IH (acc ++ _)), (IH parts), <- app_assoc. reflexivity.
Qed.

(** C9 (as amended). [New] keeps the order of its arguments and treats
    each on its own: a [nullpart] is dropped, the parts of a [group] are put
    in its place, one level deep, and a part of any other type is kept as
    it is. The [group]s include the result of [Repeat(k, k, ...)], and a
    [group] that [Group], [OneOf] or [Potentially] hand through; the
    results of [Repeat] with [min < max], of [OneOfString], [OneOfByte],
    [OneOfRune], [Shuffle], [Sequence] and [Literal] are never [group]s. *)
Theorem New_unwraps_groups_only :
  (forall xs ys,
     New (xs ++ ys) = gen (gen_parts (New xs) ++ gen_parts (New ys))) /\
  New [] = gen [] /\
  New [nullpart] = gen [] /\
  (forall g, New [group g] = gen g) /\
  (forall v, is_marker v = false -> New [v] = gen [v]) /\
  (forall k ps, 1 <= k ->
     exists p, Repeat k k ps = Ok p /\
       New [p] = gen (concat (replicate (Z.to_nat k) ps))) /\
  (forall min max ps p,
     Repeat min max ps = Ok p -> min <> max -> is_marker p = false) /\
  (forall s, is_marker (OneOfString s) = false) /\
  (forall b, is_marker (OneOfByte b) = false) /\
  (forall r, is_marker (OneOfRune r) = false) /\
  (forall s, is_marker (Literal s) = false) /\
  (forall ps st, is_marker (fst (Shuffle ps st)) = false) /\
  (forall start max width st p st',
     Sequence start max width st = Ok (p, st') -> is_marker p = false) /\
  (forall g, OneOf [group g] = group g /\
             Potentially f64_one (group g) = Ok (group g)).
Proof.
  repeat match goal with |- _ /\ _ => split end; try reflexivity.
  - intros xs ys. unfold New. rewrite New_loop_app. cbn [gen_parts].
    rewrite New_loop_acc. reflexivity.
  - intros v Hv. destruct v; try discriminate Hv; reflexivity.
  - intros k ps Hk.
    eexists. split; [exact (Repeat_const k ps Hk) | reflexivity].
  - intros min max ps p. unfold Repeat.
    destruct (max =? 0); [discriminate |].
    destruct (max <? min); [discriminate |].
    destruct (Z.eqb_spec min max) as [-> | Hne]; [congruence |].
    rewrite andb_false_r.
    destruct (_ && _); intros [= <-] _; reflexivity.
  - intros start max width st p st'. unfold Sequence.
    destruct (max <? start); [discriminate |]. intros [= <- _]. reflexivity.
  - intros g. split; reflexivity.
Qed.

Lemma New_unwraps_groups_only_witness :
  New [repeat [Literal "a"] 2 3] = gen [repeat [Literal "a"] 2 3] /\
  exists p, Repeat 2 2 [Literal "a"; Literal "b"] = Ok p /\
    New [p] = gen [Literal "a"; Literal "b"; Literal "a"; Literal "b"].
Proof.
  destruct New_unwraps_groups_only as (_ & _ & _ & _ & K & R & _).
  split.
  - apply K. reflexivity.
  - exact (R 2 [Literal "a"; Literal "b"] ltac:(lia)).
Defined.

(** C9 (as stated) fails: the result of [Repeat(2, 2, a, b)] is not kept
    as one part of the generator, its four parts are. *)
Lemma New_flattens_a_constant_Repeat :
  Repeat 2 2 [Literal "a"; Literal "b"]
    = Ok (group [Literal "a"; Literal "b"; Literal "a"; Literal "b"]) /\
  New [group [Literal "a"; Literal "b"; Literal "a"; Literal "b"]]
    = gen [Literal "a"; Literal "b"; Literal "a"; Literal "b"] /\
  New [group [Literal "a"; Literal "b"; Literal "a"; Literal "b"]]
    <> gen [group [Literal "a"; Literal "b"; Literal "a"; Literal "b"]].
Proof.
  split; [reflexivity | split; [reflexivity | discriminate]].
Qed.

(** ** Shuffle: the Fisher-Yates pass *)

Section fisher_yates.
Context {A : Type}.
Implicit Types l t : list A.

Lemma swap_length l i j : length (swap l i j) = length l.
Proof.
  unfold swap. destruct (l !! i), (l !! j); try reflexivity.
  rewrite !length_insert. reflexivity.
Qed.

Lemma swap_perm l i j : swap l i j ≡ₚ l.
Proof.
  unfold swap. destruct (l !! i) as [x |] eqn:Hi; [| reflexivity].
  destruct (l !! j) as [y |] eqn:Hj; [| reflexivity].
  apply Permutation_insert_swap; assumption.
Qed.

Lemma swap_lookup_i l i j :
  (i < length l)%nat -> (j < length l)%nat -> swap l i j !! i = l !! j.
Proof.
  intros Hi Hj. unfold swap.
  destruct (lookup_lt_is_Some_2 l i Hi) as [x Hx].
  destruct (lookup_lt_is_Some_2 l j Hj) as [y Hy]. rewrite Hx, Hy.
  destruct (decide (i = j)) as [<- | Hne].
  - rewrite list_lookup_insert_eq by (rewrite length_insert; lia). congruence.
  - rewrite list_lookup_insert_ne by congruence.
    rewrite list_lookup_insert_eq by lia. reflexivity.
Qed.

Lemma swap_drop l i j :
  (j <= i)%nat -> drop (S i) (swap l i j) = drop (S i) l.
Proof.
  intros Hj. unfold swap. destruct (l !! i), (l !! j); try reflexivity.
  rewrite !drop_insert_lt by lia. reflexivity.
Qed.

Lemma swap_take l i j :
  (j <= i)%nat -> take (S i) (swap l i j) ≡ₚ take (S i) l.
Proof.
  intros Hj. unfold swap. destruct (l !! i) as [x |] eqn:Hi; [| reflexivity].
  destruct (l !! j) as [y |] eqn:Hy; [| reflexivity].
  rewrite !take_insert_lt by lia.
  apply Permutation_insert_swap; rewrite lookup_take_lt by lia; assumption.
Qed.

Lemma fisher_yates_length i js l : length (fisher_yates i js l) = length l.
Proof.
  revert js l. induction i as [| i IH]; intros js l; [reflexivity |].
  destruct js as [| j js]; [reflexivity |]. cbn [fisher_yates].
  rewrite IH. apply swap_length.
Qed.

Lemma fisher_yates_perm i js l : fisher_yates i js l ≡ₚ l.
Proof.
  revert js l. induction i as [| i IH]; intros js l; [reflexivity |].
  destruct js as [| j js]; [reflexivity |]. cbn [fisher_yates].
  etransitivity; [apply IH | apply swap_perm].
Qed.

Lemma swap_lookup_other l i j k :
  k <> i -> k <> j -> swap l i j !! k = l !! k.
Proof.
  intros Hi Hj. unfold swap. destruct (l !! i), (l !! j); try reflexivity.
  rewrite !list_lookup_insert_ne by congruence. reflexivity.
Qed.

(** The pass from [i] leaves the slots above [i] alone. *)
Lemma fisher_yates_above i js l k :
  admissible i js -> (i < k)%nat -> fisher_yates i js l !! k = l !! k.
Proof.
  revert js l. induction i as [| i IH]; intros js l Hjs Hk; [reflexivity |].
  destruct js as [| j js]; [reflexivity |]. destruct Hjs as [Hj Hjs].
  cbn [fisher_yates]. rewrite (IH js _ Hjs) by lia.
  apply swap_lookup_other; lia.
Qed.

(** What the pass leaves in slot [i] is what the first draw pointed to. *)
Lemma fisher_yates_top i j js l :
  admissible (S i) (j :: js) -> (S i < length l)%nat ->
  fisher_yates (S i) (j :: js) l !! S i = l !! j.
Proof.
  intros [Hj Hjs] Hi. cbn [fisher_yates].
  rewrite (fisher_yates_above i js _ (S i) Hjs) by lia.
  apply swap_lookup_i; lia.
Qed.

Lemma fisher_yates_injective i js js' l :
  NoDup l -> (i < length l)%nat ->
  admissible i js -> admissible i js' ->
  fisher_yates i js l = fisher_yates i js' l -> js = js'.
Proof.
  revert js js' l. induction i as [| i IH]; intros js js' l Hnd Hi Hjs Hjs' E.
  - destruct js, js'; cbn in *; try contradiction. reflexivity.
  - destruct js as [| j js], js' as [| j' js']; cbn in Hjs, Hjs';
      try contradiction.
    assert (Ej : j = j').
    { pose proof (fisher_yates_top i j js l Hjs Hi) as T.
      pose proof (fisher_yates_top i j' js' l Hjs' Hi) as T'.
      rewrite E, T' in T. destruct Hjs as [Hj _], Hjs' as [Hj' _].
      destruct (lookup_lt_is_Some_2 l j ltac:(lia)) as [x Hx].
      rewrite Hx in T.
      exact (NoDup_lookup l j j' x Hnd Hx T). }
    subst j'. f_equal. cbn [fisher_yates] in E.
    apply (IH js js' (swap l (S i) j)).
    + rewrite swap_perm. exact Hnd.
    + rewrite swap_length. lia.
    + apply Hjs.
    + apply Hjs'.
    + exact E.
Qed.

Lemma fisher_yates_surjective i l t :
  NoDup l -> (i < length l)%nat -> length t = length l ->
  take (S i) t ≡ₚ take (S i) l -> drop (S i) t = drop (S i) l ->
  exists js, admissible i js /\ fisher_yates i js l = t.
Proof.
  revert l t. induction i as [| i IH]; intros l t Hnd Hi Hlen Htake Hdrop.
  - exists []. split; [exact I |]. cbn [fisher_yates].
    rewrite <- (take_drop 1 t), <- (take_drop 1 l), Hdrop. f_equal.
    destruct t as [| x t], l as [| y l]; cbn in *; try lia.
    apply Permutation_singleton_r in Htake.
    injection Htake as ->. rewrite !take_0. reflexivity.
  - destruct (lookup_lt_is_Some_2 t (S i) ltac:(lia)) as [y Hy].
    assert (Hin : y ∈ take (S (S i)) l).
    { rewrite <- Htake. apply list_elem_of_lookup. exists (S i).
      rewrite lookup_take_lt by lia. exact Hy. }
    apply list_elem_of_lookup in Hin as [j Hj].
    pose proof (lookup_lt_Some _ _ _ Hj) as Hjlt.
    rewrite length_take in Hjlt.
    rewrite lookup_take_lt in Hj by lia.
    assert (Hji : (j <= S i)%nat) by lia.
    set (l1 := swap l (S i) j).
    assert (Htop : l1 !! S i = Some y).
    { unfold l1. rewrite swap_lookup_i by lia. exact Hj. }
    destruct (IH l1 t) as (js & Hjs & Hfy).
    + unfold l1. rewrite swap_perm. exact Hnd.
    + unfold l1. rewrite swap_length. lia.
    + unfold l1. rewrite swap_length. exact Hlen.
    + apply (Permutation_app_inv_r [y]).
      rewrite <- (take_S_r t (S i) y Hy), <- (take_S_r l1 (S i) y Htop).
      rewrite Htake. symmetry. apply swap_take, Hji.
    + rewrite (drop_S t y (S i) Hy), (drop_S l1 y (S i) Htop). f_equal.
      rewrite Hdrop. symmetry. apply swap_drop, Hji.
    + exists (j :: js). split; [split; assumption |]. exact Hfy.
Qed.
End fisher_yates.

Lemma all_draws_admissible (i : nat) (js : list nat) :
  js ∈ all_draws i <-> admissible i js.
Proof.
  revert js. induction i as [| i IH]; intros js.
  - cbn. rewrite list_elem_of_singleton. destruct js; cbn; split;
      try tauto; try discriminate.
  - cbn [all_draws admissible]. rewrite list_elem_of_bind. split.
    + intros (j & Hjs & Hj). apply elem_of_seq in Hj.
      apply list_elem_of_fmap in Hjs as (js' & -> & Hjs').
      split; [lia | apply IH, Hjs'].
    + destruct js as [| j js]; [contradiction |]. intros [Hj Hjs].
      exists j. split.
      * apply list_elem_of_fmap. exists js. split; [reflexivity |].
        apply IH, Hjs.
      * apply elem_of_seq. lia.
Qed.

Lemma bind_cons_length (xs : list (list nat)) (ks : list nat) :
  length (ks ≫= fun k : nat => cons k <$> xs) = (length ks * length xs)%nat.
Proof.
  induction ks as [| k ks IH]; [reflexivity |].
  rewrite bind_cons, length_app, length_fmap, IH. reflexivity.
Qed.

Lemma all_draws_length (i : nat) : length (all_draws i) = fact (S i).
Proof.
  induction i as [| i IH]; [reflexivity |].
  cbn [all_draws]. rewrite bind_cons_length, length_seq, IH.
  change (fact (S (S i))) with (S (S i) * fact (S i))%nat. reflexivity.
Qed.

Lemma all_draws_NoDup (i : nat) : NoDup (all_draws i).
Proof.
  induction i as [| i IH]; cbn [all_draws].
  - apply NoDup_singleton.
  - apply NoDup_bind.
    + intros j1 j2 js _ _ H1 H2.
      apply list_elem_of_fmap in H1 as (js1 & -> & _).
      apply list_elem_of_fmap in H2 as (js2 & E & _). congruence.
    + intros j _. apply NoDup_fmap_2; [| exact IH].
      intros x y E. congruence.
    + apply NoDup_seq.
Qed.

(** ** Shuffle: the pass of Append *)

Lemma swap_slots_swap (arr i j : nat) (st : state) (a : list nat) :
  arrays st !! arr = Some a -> (i < length a)%nat -> (j < length a)%nat ->
  swap_slots arr i j st
  = Ok (set_arrays st (<[arr := swap a i j]> (arrays st))).
Proof.
  intros Ha Hi Hj. unfold swap_slots, swap. rewrite Ha.
  destruct (lookup_lt_is_Some_2 a i Hi) as [x ->].
  destruct (lookup_lt_is_Some_2 a j Hj) as [y ->]. reflexivity.
Qed.

Lemma draws_admissible (i : nat) (st : state) : admissible i (draws i st).
Proof.
  revert st. induction i as [| i IH]; intros st; [exact I |].
  cbn [draws admissible]. split; [| apply IH].
  unfold internal.RandN, internal.Fastrand. cbn [fst].
  replace (Z.of_nat (S i) + 1) with (Z.of_nat (S (S i))) by lia.
  pose proof (scale_index (S (S i)) (raw st (drawn st)) ltac:(lia)). lia.
Qed.

Lemma draws_ext (i : nat) (st st' : state) :
  raw st = raw st' -> drawn st = drawn st' -> draws i st = draws i st'.
Proof.
  revert st st'. induction i as [| i IH]; intros st st' Hr Hd; [reflexivity |].
  cbn [draws]. unfold internal.RandN, internal.Fastrand. cbn [fst snd].
  rewrite Hr, Hd. f_equal. apply IH; cbn; congruence.
Qed.

Lemma shuffle_loop_fisher_yates (arr i : nat) (st : state) (a : list nat) :
  arrays st !! arr = Some a -> (i < length a)%nat ->
  shuffle_loop arr i st
  = Ok (State (raw st) (drawn st + i) (cells st)
          (<[arr := fisher_yates i (draws i st) a]> (arrays st))).
Proof.
  revert st a. induction i as [| i IH]; intros st a Ha Hi.
  - cbn [shuffle_loop fisher_yates]. rewrite Nat.add_0_r.
    rewrite (insert_id _ _ _ Ha). destruct st; reflexivity.
  - cbn [shuffle_loop draws fisher_yates].
    pose proof (draws_admissible (S i) st) as [Hj _]. cbn [draws] in Hj.
    set (j := Z.to_nat (fst (internal.RandN (u32 (Z.of_nat (S i) + 1)) st)))
      in *.
    unfold internal.RandN, internal.Fastrand in *. cbn [fst snd] in *.
    fold j.
    set (st1 := set_drawn st (S (drawn st))).
    rewrite (swap_slots_swap arr (S i) j st1 a Ha Hi ltac:(lia)).
    set (st2 := set_arrays st1 _).
    rewrite (IH st2 (swap a (S i) j)).
    + rewrite (draws_ext i st2 st1) by reflexivity.
      unfold st2. cbn [raw drawn cells arrays set_arrays].
      rewrite insert_insert_eq.
      unfold st1 at 1 2 3. cbn [raw drawn cells arrays set_drawn].
      replace (S (drawn st) + i)%nat with (drawn st + S i)%nat by lia.
      reflexivity.
    + unfold st2. cbn. apply lookup_insert_eq.
    + rewrite swap_length. lia.
Qed.

Lemma emit_loop_literals (ss : list buf) (arr : nat) (a : list nat)
    (st : state) :
  arrays st !! arr = Some a ->
  Forall (fun k => k < length ss)%nat a ->
  forall todo i b, (i + todo <= length a)%nat ->
  emit_loop Append (map literal ss) arr todo i st b
  = Ok (b ++ concat ((fun k => default [] (ss !! k)) <$> take todo (drop i a)),
        st).
Proof.
  intros Ha Hk todo. induction todo as [| todo IH]; intros i b Hi.
  - cbn. rewrite app_nil_r. reflexivity.
  - cbn [emit_loop]. rewrite Ha.
    destruct (lookup_lt_is_Some_2 a i ltac:(lia)) as [k Hai]. rewrite Hai.
    pose proof (Forall_lookup_1 _ _ _ _ Hk Hai) as Hlt. cbn in Hlt.
    destruct (lookup_lt_is_Some_2 ss k Hlt) as [s Hs].
    assert (E : forall q n st b,
              q !! n = Some s ->
              appendNth Append (map literal q) n st b = Ok (b ++ s, st)).
    { induction q as [| x q IHq]; intros n st' b' Hq; [discriminate |].
      destruct n as [| n]; cbn in *; [congruence | apply IHq, Hq]. }
    rewrite (E ss k st b Hs), (IH (S i)) by lia.
    rewrite (drop_S a k i Hai). cbn. rewrite Hs, <- app_assoc. reflexivity.
Qed.

(** ** Shuffle: the arrays of other parts *)

Lemma shuffles_at_any (arr : nat) (ps : list Part) :
  (fix any (ps : list Part) : Prop :=
     match ps with
     | [] => False
     | q :: qs => shuffles_at arr q \/ any qs
     end) ps <-> Exists (shuffles_at arr) ps.
Proof.
  induction ps as [| q qs IH]; [split; [tauto | inversion 1] |].
  rewrite Exists_cons, <- IH. reflexivity.
Qed.

Lemma keeps_bind (arr : nat) (st : state) (r : result (buf * state))
    (k : buf -> state -> result (buf * state)) :
  keeps arr st r -> (forall b' st', keeps arr st' (k b' st')) ->
  keeps arr st (let! (b', st') := r in k b' st').
Proof.
  destruct r as [[b1 s1] | msg]; cbn; [| trivial].
  intros E Hk. specialize (Hk b1 s1).
  destruct (k b1 s1) as [[b2 s2] | msg]; cbn in *; [congruence | trivial].
Qed.

Lemma keeps_from (arr : nat) (st st1 : state) (r : result (buf * state)) :
  arrays st1 !! arr = arrays st !! arr -> keeps arr st1 r -> keeps arr st r.
Proof.
  intros E. destruct r as [[b' st'] | msg]; cbn; [congruence | trivial].
Qed.

Section keeping.
Variable arr : nat.
Variable f : Part -> state -> buf -> result (buf * state).

Lemma appendAll_keeps (ps : list Part) :
  Forall (keeping arr f) ps -> ~ Exists (shuffles_at arr) ps ->
  forall st b, keeps arr st (appendAll f ps st b).
Proof.
  induction 1 as [| q qs Hq _ IH]; intros Hn st b; cbn [appendAll].
  - reflexivity.
  - rewrite Exists_cons in Hn.
    apply (keeps_bind arr st (f q st b) (fun b' st' => appendAll f qs st' b')).
    + apply Hq. tauto.
    + intros b' st'. apply IH. tauto.
Qed.

Lemma appendNth_keeps (ps : list Part) :
  Forall (keeping arr f) ps -> ~ Exists (shuffles_at arr) ps ->
  forall n st b, keeps arr st (appendNth f ps n st b).
Proof.
  induction 1 as [| q qs Hq _ IH]; intros Hn n st b.
  - destruct n; exact I.
  - rewrite Exists_cons in Hn. destruct n as [| n]; cbn.
    + apply Hq. tauto.
    + apply IH. tauto.
Qed.

Lemma repeat_loop_keeps (ps : list Part) :
  Forall (keeping arr f) ps -> ~ Exists (shuffles_at arr) ps ->
  forall n st b, keeps arr st (repeat_loop f ps n st b).
Proof.
  intros Hk Hn n. induction n as [| n IH]; intros st b; cbn [repeat_loop].
  - reflexivity.
  - apply (keeps_bind arr st (appendAll f ps st b)
             (fun b' st' => repeat_loop f ps n st' b')).
    + apply appendAll_keeps; assumption.
    + intros b' st'. apply IH.
Qed.

Lemma emit_loop_keeps (ps : list Part) (l : nat) :
  Forall (keeping arr f) ps -> ~ Exists (shuffles_at arr) ps ->
  forall todo i st b, keeps arr st (emit_loop f ps l todo i st b).
Proof.
  intros Hk Hn todo. induction todo as [| todo IH]; intros i st b;
    cbn [emit_loop].
  - reflexivity.
  - destruct (arrays st !! l) as [a |]; [| exact I].
    destruct (a !! i) as [k |]; [| exact I].
    apply (keeps_bind arr st (appendNth f ps k st b)
             (fun b' st' => emit_loop f ps l todo (S i) st' b')).
    + apply appendNth_keeps; assumption.
    + intros b' st'. apply IH.
Qed.
End keeping.

Lemma shuffle_loop_keeps (arr l i : nat) (st st' : state) :
  l <> arr -> shuffle_loop l i st = Ok st' ->
  arrays st' !! arr = arrays st !! arr.
Proof.
  intros Hne. revert st. induction i as [| i IH]; intros st; cbn [shuffle_loop].
  - intros [= <-]. reflexivity.
  - unfold internal.RandN, internal.Fastrand, swap_slots.
    cbn [arrays set_drawn].
    destruct (arrays st !! l) as [a |]; [| discriminate].
    destruct (a !! S i) as [ai |]; [| discriminate].
    destruct (a !! _) as [aj |]; [| discriminate].
    intros H. apply IH in H. rewrite H. cbn.
    apply lookup_insert_ne, Hne.
Qed.

Lemma Append_keeps (arr : nat) (p : Part) :
  ~ shuffles_at arr p -> forall st b, keeps arr st (Append p st b).
Proof.
  change (keeping arr Append p).
  induction p as
    [ parts IH | | parts IH | parts min maxr IH | part IH | part percent IH
    | s | parts len IH | alphabet len | alphabet len | alphabet len
    | parts l len IH | start max width curr ] using Part_nested_ind;
    intros Hn st b; cbn [Append shuffles_at] in *;
    rewrite ?shuffles_at_any in Hn.
  - apply appendAll_keeps; assumption.
  - reflexivity.
  - apply appendAll_keeps; assumption.
  - unfold internal.RandN, internal.Fastrand.
    apply (repeat_loop_keeps arr Append parts IH Hn _
             (set_drawn st (S (drawn st))) b).
  - unfold internal.Fastrand. destruct (_ =? _); [| reflexivity].
    apply (IH Hn (set_drawn st (S (drawn st))) b).
  - unfold internal.RandFloat64, internal.Fastrand.
    destruct (f64_le _ _); [| reflexivity].
    apply (IH Hn (set_drawn st (S (drawn st))) b).
  - reflexivity.
  - unfold internal.RandN, internal.Fastrand.
    apply (appendNth_keeps arr Append parts IH Hn _
             (set_drawn st (S (drawn st))) b).
  - unfold pick, internal.RandN, internal.Fastrand.
    destruct (alphabet !! _); [reflexivity | exact I].
  - unfold pick, internal.RandN, internal.Fastrand.
    destruct (alphabet !! _); [reflexivity | exact I].
  - unfold pick, internal.RandN, internal.Fastrand.
    destruct (alphabet !! _); [reflexivity | exact I].
  - destruct (shuffle_loop l _ st) as [st1 |] eqn:Hs; [| exact I].
    apply (shuffle_loop_keeps arr) in Hs; [| tauto].
    apply (keeps_from arr st st1 _ Hs).
    apply emit_loop_keeps; [assumption | tauto].
  - unfold LoadUint64, CompareAndSwapUint64.
    destruct (cells st !! curr) as [last |]; [| exact I].
    rewrite Z.eqb_refl. destruct (appendInt _ _ _); [reflexivity | exact I].
Qed.

Lemma appendNth_lookup (ps : list Part) (k : nat) (q : Part)
    (st : state) (b : buf) :
  ps !! k = Some q -> appendNth Append ps k st b = Append q st b.
Proof.
  revert k. induction ps as [| x ps IH]; intros k Hk; [discriminate |].
  destruct k as [| k]; cbn in *; [congruence | apply IH, Hk].
Qed.

(** With no shuffle at [arr] among the parts, emitting the slots of the
    array at [arr] is appending the parts the slots hold, in order. *)
Lemma emit_loop_in_order (ps : list Part) (arr : nat) (a : list nat) :
  ~ Exists (shuffles_at arr) ps ->
  Forall (fun k => k < length ps)%nat a ->
  forall todo i st b, arrays st !! arr = Some a -> (i + todo <= length a)%nat ->
  emit_loop Append ps arr todo i st b
  = appendAll Append
      ((fun k => default nullpart (ps !! k)) <$> take todo (drop i a)) st b.
Proof.
  intros Hn Hk todo. induction todo as [| todo IH]; intros i st b Ha Hi.
  - reflexivity.
  - cbn [emit_loop]. rewrite Ha.
    destruct (lookup_lt_is_Some_2 a i ltac:(lia)) as [k Hai]. rewrite Hai.
    pose proof (Forall_lookup_1 _ _ _ _ Hk Hai) as Hlt. cbn in Hlt.
    destruct (lookup_lt_is_Some_2 ps k Hlt) as [q Hq].
    rewrite (drop_S a k i Hai). cbn [take fmap list_fmap appendAll].
    rewrite Hq. change (default nullpart (Some q)) with q.
    rewrite (appendNth_lookup ps k q st b Hq).
    assert (Hkeep : keeps arr st (Append q st b)).
    { apply Append_keeps. intros Hs. apply Hn, Exists_exists.
      exists q. split; [| exact Hs].
      apply list_elem_of_lookup. eauto. }
    destruct (Append q st b) as [[b' st'] | msg]; [| reflexivity].
    cbn in Hkeep. apply IH; [congruence | lia].
Qed.

Lemma shuffles_at_gen (arr : nat) (ps : list Part) :
  shuffles_at arr (gen ps) <-> Exists (shuffles_at arr) ps.
Proof. exact (shuffles_at_any arr ps). Qed.

Lemma shuffles_at_group (arr : nat) (ps : list Part) :
  shuffles_at arr (group ps) <-> Exists (shuffles_at arr) ps.
Proof. exact (shuffles_at_any arr ps). Qed.

Lemma New_loop_shuffles (arr : nat) (ps acc : list Part) :
  Exists (shuffles_at arr) (New_loop ps acc) ->
  Exists (shuffles_at arr) acc \/ Exists (shuffles_at arr) ps.
Proof.
  revert acc. induction ps as [| v ps IH]; intros acc H; cbn [New_loop] in H.
  - left. exact H.
  - rewrite Exists_cons.
    destruct v; apply IH in H as [H | H]; try tauto;
      try (apply Exists_app in H as [H | H]; [tauto |];
           apply Exists_cons in H as [H | H]; [tauto | inversion H]).
    apply Exists_app in H as [H | H]; [tauto |].
    right. left. apply shuffles_at_group, H.
Qed.

Lemma Group_shuffles (arr : nat) (ps : list Part) :
  shuffles_at arr (Group ps) -> Exists (shuffles_at arr) ps.
Proof.
  unfold Group. destruct ps as [| q [| q' qs]].
  - apply shuffles_at_group.
  - intros H. apply Exists_cons. tauto.
  - apply shuffles_at_group.
Qed.

Lemma Repeat_shuffles (arr : nat) (min max : Z) (ps : list Part) (p : Part) :
  Repeat min max ps = Ok p -> shuffles_at arr p ->
  Exists (shuffles_at arr) ps.
Proof.
  unfold Repeat.
  destruct (max =? 0); [discriminate |].
  destruct (max <? min); [discriminate |].
  destruct ((0 <? min) && (min =? max)).
  { intros [= <-] H. apply shuffles_at_group in H.
    rewrite Repeat_fill_concat in H. cbn [app] in H.
    induction (Z.to_nat max) as [| n IH]; cbn in H; [inversion H |].
    apply Exists_app in H as [H | H]; [exact H | exact (IH H)]. }
  destruct ((min =? 0) && (max =? 1)).
  { intros [= <-] H. apply Group_shuffles, H. }
  intros [= <-] H. apply (shuffles_at_any arr ps), H.
Qed.

Lemma Potentially_shuffles (arr : nat) (c : float64) (q p : Part) :
  Potentially c q = Ok p -> shuffles_at arr p -> shuffles_at arr q.
Proof.
  unfold Potentially.
  destruct (f64_lt c f64_zero); [discriminate |].
  destruct (f64_eq c f64_zero); [intros [= <-] [] |].
  destruct (f64_le f64_one c); [intros [= <-] H; exact H |].
  destruct (f64_eq c f64_half); intros [= <-] H; exact H.
Qed.

Lemma OneOf_shuffles (arr : nat) (ps : list Part) :
  shuffles_at arr (OneOf ps) -> Exists (shuffles_at arr) ps.
Proof.
  unfold OneOf. destruct ps as [| q [| q' qs]].
  - intros [].
  - intros H. apply Exists_cons. tauto.
  - apply (shuffles_at_any arr (q :: q' :: qs)).
Qed.

(** The shuffles of the parts that are built have their arrays in the
    state. *)
Lemma built_shuffles_known (st : state) (p : Part) (arr : nat) :
  built st p -> shuffles_at arr p -> is_Some (arrays st !! arr).
Proof.
  induction 1 as
    [ st ps _ IH | st ps _ IH | st min max ps p Hmin Hmax _ IH HR
    | st c q p _ IH HP | st s | st ps Hne _ IH | st s Hne | st b Hne
    | st r Hne | st ps p st' Hne _ IH HS
    | st start max width p st' Hs Hm HS | st st' p Hev _ IH ]; intros H.
  - unfold New in H. apply shuffles_at_gen, New_loop_shuffles in H.
    destruct H as [H | H]; [inversion H |].
    apply Exists_exists in H as (q & Hq & Hs). exact (IH q Hq Hs).
  - apply Group_shuffles, Exists_exists in H as (q & Hq & Hs).
    exact (IH q Hq Hs).
  - apply (Repeat_shuffles arr min max ps p HR), Exists_exists in H
      as (q & Hq & Hs).
    exact (IH q Hq Hs).
  - apply IH. exact (Potentially_shuffles arr c q p HP H).
  - destruct H.
  - apply OneOf_shuffles, Exists_exists in H as (q & Hq & Hs).
    exact (IH q Hq Hs).
  - destruct H.
  - destruct H.
  - destruct H.
  - unfold Shuffle in HS. injection HS as <- <-.
    cbn [shuffles_at] in H. rewrite shuffles_at_any in H. cbn.
    destruct H as [<- | H].
    + rewrite lookup_insert_eq. eauto.
    + apply Exists_exists in H as (q & Hq & Hs).
      destruct (IH q Hq Hs) as [x Hx].
      destruct (decide (fresh (dom (arrays st)) = arr)) as [<- | Hd].
      * rewrite lookup_insert_eq. eauto.
      * rewrite lookup_insert_ne by exact Hd. eauto.
  - unfold Sequence in HS. destruct (max <? start); [discriminate |].
    injection HS as <- _. destruct H.
  - destruct (IH H) as [a Ha]. destruct Hev as (_ & _ & Hev).
    destruct (Hev arr a Ha) as (a' & Ha' & _). eauto.
Qed.

(** The parts handed to [Shuffle] have no shuffle at the array that
    [Shuffle] allocates. *)
Lemma Shuffle_array_is_new (ps : list Part) (st : state) :
  (forall q, q ∈ ps -> built st q) ->
  ~ Exists (shuffles_at (fresh (dom (arrays st)))) ps.
Proof.
  intros Hb H. apply Exists_exists in H as (q & Hq & Hs).
  destruct (built_shuffles_known st q _ (Hb q Hq) Hs) as [a Ha].
  apply (is_fresh (dom (arrays st))), elem_of_dom. eauto.
Qed.

(** The pass and the emission of a shuffle node whose array holds a
    permutation of the indices of its parts. *)
Lemma shuffle_pass (ps : list Part) (arr : nat) (st : state)
    (a : list nat) :
  ps <> [] -> Z.of_nat (length ps) < 2 ^ 32 ->
  arrays st !! arr = Some a -> a ≡ₚ seq 0 (length ps) ->
  let n := length ps in
  let p := shuffle ps arr (u32 (Z.of_nat n)) in
  let js := draws (n - 1) st in
  let st1 := State (raw st) (drawn st + (n - 1)) (cells st)
               (<[arr := fisher_yates (n - 1) js a]> (arrays st)) in
  (forall b, Append p st b = emit_loop Append ps arr n O st1 b) /\
  (~ Exists (shuffles_at arr) ps ->
   forall b,
     Append p st b =
     appendAll Append
       ((fun k => default nullpart (ps !! k)) <$> fisher_yates (n - 1) js a)
       st1 b) /\
  (forall ss b, ps = map literal ss ->
     Append p st b =
     Ok (b ++ concat ((fun k => default [] (ss !! k))
                        <$> fisher_yates (n - 1) js a), st1)) /\
  admissible (n - 1) js /\
  (forall js', admissible (n - 1) js' -> fisher_yates (n - 1) js' a ≡ₚ a) /\
  (forall t, t ≡ₚ a ->
     exists js', admissible (n - 1) js' /\ fisher_yates (n - 1) js' a = t /\
       forall js'', admissible (n - 1) js'' ->
         fisher_yates (n - 1) js'' a = t -> js'' = js') /\
  length (all_draws (n - 1)) = fact n /\
  NoDup (all_draws (n - 1)) /\
  (forall js', js' ∈ all_draws (n - 1) <-> admissible (n - 1) js').
Proof.
  intros Hne Hlt Ha Hperm n p js st1.
  assert (Hn : (1 <= n)%nat) by (unfold n; destruct ps; cbn; [congruence | lia]).
  assert (Hlen : length a = n) by (rewrite Hperm; apply length_seq).
  assert (Hnd : NoDup a) by (rewrite Hperm; apply NoDup_seq).
  assert (Hu : u32 (Z.of_nat n) = Z.of_nat n)
    by (apply u32_small; unfold is_u32; lia).
  assert (E : forall b, Append p st b = emit_loop Append ps arr n O st1 b).
  { intros b. unfold p. rewrite Append_shuffle, Hu.
    rewrite (u32_small (Z.of_nat n - 1)) by (unfold is_u32; lia).
    replace (Z.to_nat (Z.of_nat n - 1)) with (n - 1)%nat by lia.
    rewrite (shuffle_loop_fisher_yates arr (n - 1) st a Ha) by lia.
    rewrite Nat2Z.id. reflexivity. }
  split; [exact E |].
  split; [| split; [| split; [| split; [| split; [| split; [| split]]]]]].
  - intros Hno b. rewrite E.
    rewrite (emit_loop_in_order ps arr (fisher_yates (n - 1) js a) Hno).
    + rewrite drop_0, firstn_all2; [reflexivity |].
      rewrite fisher_yates_length. lia.
    + rewrite fisher_yates_perm, Hperm.
      apply Forall_forall. intros k Hk. apply elem_of_seq in Hk.
      unfold n in *. lia.
    + unfold st1. cbn. apply lookup_insert_eq.
    + rewrite fisher_yates_length. lia.
  - intros ss b Hps. rewrite E, Hps.
    assert (Hss : length ss = n) by (unfold n; rewrite Hps, length_map; reflexivity).
    rewrite (emit_loop_literals ss arr (fisher_yates (n - 1) js a) st1).
    + rewrite drop_0, firstn_all2; [reflexivity |].
      rewrite fisher_yates_length. lia.
    + unfold st1. cbn. apply lookup_insert_eq.
    + rewrite fisher_yates_perm, Hperm, Hss.
      apply Forall_forall. intros k Hk. apply elem_of_seq in Hk. lia.
    + rewrite fisher_yates_length. lia.
  - apply draws_admissible.
  - intros js' _. apply fisher_yates_perm.
  - intros t Ht.
    destruct (fisher_yates_surjective (n - 1) a t Hnd) as (js' & Hjs' & Hfy).
    + lia.
    + rewrite Ht. reflexivity.
    + replace (S (n - 1)) with n by lia.
      rewrite !firstn_all2; [exact Ht | lia | rewrite Ht; lia].
    + replace (S (n - 1)) with n by lia.
      rewrite !drop_ge; [reflexivity | lia | rewrite Ht; lia].
    + exists js'. split; [exact Hjs' | split; [exact Hfy |]].
      intros js'' Hjs'' Hfy''.
      apply (fisher_yates_injective (n - 1) js'' js' a Hnd); try assumption.
      * lia.
      * congruence.
  - rewrite all_draws_length. f_equal. lia.
  - apply all_draws_NoDup.
  - apply all_draws_admissible.
Qed.

(** The array of a shuffle holds a permutation of the indices of its parts
    from its construction on. *)
Lemma Shuffle_array (ps : list Part) (st st' : state) :
  evolves (snd (Shuffle ps st)) st' ->
  exists arr a,
    fst (Shuffle ps st) = shuffle ps arr (u32 (Z.of_nat (length ps))) /\
    arrays st' !! arr = Some a /\ a ≡ₚ seq 0 (length ps).
Proof.
  intros (_ & _ & Ha). unfold Shuffle in *. cbn [fst snd] in *.
  destruct (Ha (fresh (dom (arrays st))) (seq 0 (length ps)))
    as (a & Hx & Hp).
  - cbn. apply lookup_insert_eq.
  - exists (fresh (dom (arrays st))), a. auto.
Qed.

(** C7. [Shuffle] of a non-empty child list runs, just before appending,
    the in-place Fisher-Yates pass over its array: for [i] from [count - 1]
    down to 1 it draws [j = RandN(i + 1)], which is at most [i], and swaps
    the slots [i] and [j]; then it emits the slots in order, which for
    children built before the shuffle is appending them in the order the
    array has now, each child once. The map from admissible
    draw tuples to arrangements of the array is a bijection onto its
    permutations, and there are [count!] admissible tuples: with each draw
    uniform over [0, i] every permutation has probability [1 / count!]. *)
Theorem Shuffle_fisher_yates (ps : list Part) (st0 st : state) :
  ps <> [] -> Z.of_nat (length ps) < 2 ^ 32 ->
  evolves (snd (Shuffle ps st0)) st ->
  let n := length ps in
  let p := fst (Shuffle ps st0) in
  let arr := fresh (dom (arrays st0)) in
  let js := draws (n - 1) st in
  exists a,
    p = shuffle ps arr (u32 (Z.of_nat n)) /\
    arrays st !! arr = Some a /\ a ≡ₚ seq 0 n /\
    let a' := fisher_yates (n - 1) js a in
    let st1 := State (raw st) (drawn st + (n - 1)) (cells st)
                 (<[arr := a']> (arrays st)) in
    (forall b, Append p st b = emit_loop Append ps arr n O st1 b) /\
    ((forall q, q ∈ ps -> built st0 q) ->
     forall b,
       Append p st b =
       appendAll Append ((fun k => default nullpart (ps !! k)) <$> a') st1 b) /\
    (forall ss b, ps = map literal ss ->
       Append p st b =
       Ok (b ++ concat ((fun k => default [] (ss !! k)) <$> a'), st1)) /\
    admissible (n - 1) js /\
    a' ≡ₚ seq 0 n /\
    (forall t, t ≡ₚ a ->
       exists js', admissible (n - 1) js' /\ fisher_yates (n - 1) js' a = t /\
         forall js'', admissible (n - 1) js'' ->
           fisher_yates (n - 1) js'' a = t -> js'' = js') /\
    length (all_draws (n - 1)) = fact n /\
    NoDup (all_draws (n - 1)) /\
    (forall js', js' ∈ all_draws (n - 1) <-> admissible (n - 1) js').
Proof.
  intros Hne Hlt Hev n p arr js.
  destruct Hev as (_ & _ & Hev).
  destruct (Hev arr (seq 0 n)) as (a & Ha & Hperm).
  { unfold Shuffle. cbn. apply lookup_insert_eq. }
  exists a. split; [reflexivity |]. split; [exact Ha |]. split; [exact Hperm |].
  intros a' st1.
  destruct (shuffle_pass ps arr st a Hne Hlt Ha Hperm)
    as (E & O & L & A & P & B & C & N & M).
  split; [exact E |]. split; [| split; [exact L |]].
  - intros Hb. apply O. apply Shuffle_array_is_new, Hb.
  - split; [exact A |]. split.
    + unfold a'. rewrite fisher_yates_perm. exact Hperm.
    + split; [exact B |]. split; [exact C |]. split; [exact N | exact M].
Qed.

Lemma Shuffle_fisher_yates_witness :
  Append (fst (Shuffle [Literal "a"; Literal "b"; Literal "c"]
                 (st0 (fun n => Z.of_nat n * 7000000000000000000))))
    (snd (Shuffle [Literal "a"; Literal "b"; Literal "c"]
            (st0 (fun n => Z.of_nat n * 7000000000000000000)))) []
  = Ok (bytes "bca",
        State (fun n => Z.of_nat n * 7000000000000000000) 2 ∅
          {[ 0%nat := [1; 2; 0]%nat ]})
  /\ length (all_draws 2) = 6%nat.
Proof.
  pose proof (Shuffle_fisher_yates
                [Literal "a"; Literal "b"; Literal "c"]
                (st0 (fun n => Z.of_nat n * 7000000000000000000))
                (snd (Shuffle [Literal "a"; Literal "b"; Literal "c"]
                        (st0 (fun n => Z.of_nat n * 7000000000000000000)))))
    as H.
  cbv zeta in H.
  destruct H as (a & _ & Ha & _ & _ & _ & L & _ & _ & _ & C & _).
  - discriminate.
  - cbn. lia.
  - apply evolves_refl.
  - split; [| exact C].
    assert (E : a = [0; 1; 2]%nat).
    { vm_compute in Ha. injection Ha as <-. reflexivity. }
    subst a.
    refine (eq_trans (L [bytes "a"; bytes "b"; bytes "c"] [] eq_refl) _).
    vm_compute. reflexivity.
Defined.

(** ** Runs of the package tests *)

Example TestAppend :
  let g := New [Literal "o"] in
  forall st,
    (let! (b, st1) := Append g st (bytes "hello") in Append g st1 b)
    = Ok (bytes "hellooo", st).
Proof. reflexivity. Qed.

Example TestConstRepeatEqualToGroup :
  forall st,
    gen_String [Group [Literal "o"; Literal "o"; Literal "o"; Literal "o";
                       Literal "o"]] st = Ok ("ooooo"%string, st) /\
    (let! p := Repeat 5 5 [Literal "o"] in gen_String (gen_parts (New [p])) st)
    = Ok ("ooooo"%string, st).
Proof. split; reflexivity. Qed.

Example TestSequence :
  (let! (p, st) := Sequence 0 100 4 (st0 (fun _ => 0)) in
   Ok (strings 103 [p] st))
  = Ok (((fun i => string_of_list_ascii (zero_padded 4 (Z.of_nat i)))
           <$> seq 0 101) ++ ["0000"; "0001"]%string).
Proof. vm_compute. reflexivity. Qed.

Example TestSequenceUint64Overflow :
  output (Append (New [sequence 1 18446744073709551615 0 0])
            (State (fun _ => 0) 0 {[ 0%nat := 18446744073709551615 ]} ∅) [])
  = Some "1"%string.
Proof. vm_compute. reflexivity. Qed.

Example TestShuffle :
  let '(p, st) := Shuffle [Literal "a"; Literal "b"; Literal "c"]
                    (st0 (fun n => Z.of_nat n * 7000000000000000000)) in
  strings 6 [p] st = ["bca"; "cba"; "cab"; "bac"; "acb"; "cab"]%string.
Proof. vm_compute. reflexivity. Qed.

Example TestOneOfRune :
  strings 3 [OneOfRune [12354; 128512; 233]]
    (st0 (fun n => Z.of_nat n * 7000000000000000000))
  = [String "227" (String "129" (String "130" EmptyString));
     String "240" (String "159" (String "152" (String "128" EmptyString)));
     String "195" (String "169" EmptyString)].
Proof. vm_compute. reflexivity. Qed.

Example RandFloat64_of_all_ones :
  internal.unit_float (2 ^ 64 - 1)
  = S754_finite false 9007199254740991 (-53).
Proof. vm_compute. reflexivity. Qed.

(** * Further properties *)

(** * Further properties of the code *)

(** ** RandN: every value can be drawn *)

Lemma scale_monotone (n r r' : Z) :
  is_u32 n -> is_u64 r -> is_u64 r' -> r <= r' ->
  internal.scale n r <= internal.scale n r'.
Proof.
  intros Hn Hr Hr' Hle. rewrite !scale_high by assumption.
  unfold is_u32, is_u64 in *. apply Z.div_le_mono; nia.
Qed.

(** X1. For [0 < n < 2^32], [RandN(n)] is non-decreasing in the raw value,
    gives 0 on the raw value 0 and [n - 1] on the raw value [2^64 - 1], and
    every value of [0, n) is the result on some raw value. *)
Theorem RandN_onto (n : Z) :
  0 < n -> is_u32 n ->
  (forall r r', is_u64 r -> is_u64 r' -> r <= r' ->
     internal.scale n r <= internal.scale n r') /\
  internal.scale n 0 = 0 /\
  internal.scale n (2 ^ 64 - 1) = n - 1 /\
  (forall k, 0 <= k < n ->
     exists r, is_u64 r /\ internal.scale n r = k /\
       forall st, u64 (raw st (drawn st)) = r ->
         fst (internal.RandN n st) = k).
Proof.
  intros H0 Hn. split; [| split; [| split]].
  - intros r r' Hr Hr' Hle. apply scale_monotone; assumption.
  - rewrite scale_high by (unfold is_u32, is_u64 in *; lia).
    rewrite Z.mul_0_r. reflexivity.
  - rewrite scale_high by (unfold is_u32, is_u64 in *; lia).
    unfold is_u32 in Hn. symmetry. apply Z.div_unique with (r := 2 ^ 64 - n); lia.
  - intros k Hk.
    assert (Hlo : 0 <= first_raw n k) by (apply first_raw_nonneg; lia).
    assert (Hstep : first_raw n k < first_raw n (k + 1)).
    { pose proof (first_raw_step n k H0) as S.
      assert (1 <= 2 ^ 64 / n).
      { apply Z.div_le_lower_bound; unfold is_u32 in Hn; lia. }
      lia. }
    assert (Hhi : first_raw n (k + 1) <= 2 ^ 64)
      by (apply first_raw_le_top; lia).
    assert (Hr : is_u64 (first_raw n k)) by (unfold is_u64; lia).
    exists (first_raw n k). split; [exact Hr |].
    assert (E : internal.scale n (first_raw n k) = k).
    { apply scale_preimage; try assumption. lia. }
    split; [exact E |].
    intros st Hst. unfold internal.RandN, internal.Fastrand. cbn [fst].
    rewrite Hst. exact E.
Qed.

Lemma RandN_onto_witness :
  exists r, is_u64 r /\ internal.scale 3 r = 2.
Proof.
  assert (H3 : is_u32 3) by (unfold is_u32; lia).
  destruct (RandN_onto 3 ltac:(lia) H3) as (_ & _ & _ & H).
  destruct (H 2 ltac:(lia)) as (r & Hr & E & _).
  exists r. split; assumption.
Defined.

(** ** appendInt: what is written *)

(** X2. [appendInt] never truncates and pads only a number that is
    shorter than [width]: for a uint64 [u] and a [width] that fits (an
    [int], at least 20 above the least one) it appends exactly
    [max(width, d)] bytes, [d] being the number of decimal digits of [u]
    ([d = 1] for 0, [10^(d-1) <= u < 10^d] otherwise, at most 20). *)
Theorem appendInt_length (b : buf) (u width : Z) :
  is_u64 u -> width_fits width ->
  exists s d,
    appendInt b u width = Ok (b ++ s) /\
    Z.of_nat (length s) = Z.max width d /\
    1 <= d <= 20 /\
    (u = 0 -> d = 1) /\
    (0 < u -> 10 ^ (d - 1) <= u < 10 ^ d) /\
    (width <= d -> s = decimal u).
Proof.
  intros Hu Hw. exists (zero_padded width u), (Z.of_nat (length (decimal u))).
  destruct (zero_padded_reads width u Hu) as (_ & _ & L).
  destruct (decimal_digits u Hu) as (Hd & H0 & Hsize).
  split; [apply appendInt_zero_padded; assumption |].
  split; [exact L |]. split; [exact Hd |]. split; [exact H0 |].
  split; [exact Hsize |].
  intros Hle. unfold zero_padded.
  replace (Z.to_nat (width - Z.of_nat (length (decimal u)))) with O by lia.
  reflexivity.
Qed.

Lemma appendInt_length_witness :
  exists s d,
    appendInt (bytes "n=") 100 4 = Ok (bytes "n=" ++ s) /\
    Z.of_nat (length s) = Z.max 4 d.
Proof.
  assert (H : is_u64 100) by (unfold is_u64; lia).
  assert (H4 : width_fits 4) by (unfold width_fits, int_min, int_max; lia).
  destruct (appendInt_length (bytes "n=") 100 4 H H4) as (s & d & E & L & _).
  exists s, d. split; assumption.
Defined.

(** X3. What [appendInt] appends for a uint64 [u] and a [width] that fits
    reads back as [u]: the appended bytes are decimal digits, and their
    value, most significant digit first, is [u], with or without
    padding. *)
Theorem appendInt_round_trip (b : buf) (u width : Z) :
  is_u64 u -> width_fits width ->
  exists s,
    appendInt b u width = Ok (b ++ s) /\
    Forall is_digit s /\ parse_decimal s = u.
Proof.
  intros Hu Hw. exists (zero_padded width u).
  destruct (zero_padded_reads width u Hu) as (D & P & _).
  split; [apply appendInt_zero_padded; assumption |].
  split; [exact D | exact P].
Qed.

Lemma appendInt_round_trip_witness :
  exists s,
    appendInt [] 18446744073709551615 25 = Ok s /\
    parse_decimal s = 18446744073709551615.
Proof.
  assert (H : is_u64 18446744073709551615) by (unfold is_u64; lia).
  assert (H25 : width_fits 25) by (unfold width_fits, int_min, int_max; lia).
  destruct (appendInt_round_trip [] 18446744073709551615 25 H H25)
    as (s & E & _ & P).
  exists s. split; assumption.
Defined.

(** ** New and Group: the output *)

Lemma appendAll_New_loop (ps acc : list Part) (st : state) (b : buf) :
  appendAll Append (New_loop ps acc) st b = appendAll Append (acc ++ ps) st b.
Proof.
  revert acc st b. induction ps as [| v ps IH]; intros acc st b;
    cbn [New_loop].
  - rewrite app_nil_r. reflexivity.
  - assert (Keep : appendAll Append (New_loop ps (acc ++ [v])) st b
                   = appendAll Append (acc ++ v :: ps) st b).
    { rewrite IH, <- app_assoc. reflexivity. }
    destruct v; try exact Keep.
    + rewrite IH, !appendAll_app.
      destruct (appendAll Append acc st b) as [[b' st'] | msg]; reflexivity.
    + rewrite IH, <- app_assoc, !appendAll_app.
      destruct (appendAll Append acc st b) as [[b' st'] | msg];
        [| reflexivity].
      rewrite appendAll_app. reflexivity.
Qed.

Lemma Append_New (ps : list Part) (st : state) (b : buf) :
  Append (New ps) st b = appendAll Append ps st b.
Proof.
  unfold New. cbn [Append]. rewrite appendAll_New_loop. reflexivity.
Qed.

(** X4. Unwrapping groups and dropping no-op parts in [New] does not show
    in what is generated: the generator appends what its arguments append,
    one after the other, and a generator nested as the only part of another
    generates the same. *)
Theorem New_generates_its_arguments (ps : list Part) (st : state) (b : buf) :
  Append (New ps) st b = appendAll Append ps st b /\
  Append (New [New ps]) st b = Append (New ps) st b /\
  gen_String (gen_parts (New ps)) st
  = (let! (out, st') := appendAll Append ps st [] in
     Ok (string_of_list_ascii out, st')).
Proof.
  split; [apply Append_New | split].
  - rewrite (Append_New [New ps]). cbn [appendAll].
    destruct (Append (New ps) st b) as [[b' st'] | msg]; reflexivity.
  - unfold gen_String, New. cbn [gen_parts].
    rewrite appendAll_New_loop. reflexivity.
Qed.

Lemma Append_Group (ps : list Part) (st : state) (b : buf) :
  Append (Group ps) st b = appendAll Append ps st b.
Proof.
  unfold Group. destruct ps as [| q [| q' qs]]; try reflexivity.
  cbn [appendAll]. destruct (Append q st b) as [[b1 s1] | msg]; reflexivity.
Qed.

(** X5. [Group] appends its parts in order whatever their number: the
    group of no part appends nothing, and the group of one part, which is
    that part itself, appends what the part appends; inside a generator a
    group and its parts listed one by one generate the same. *)
Theorem Group_appends_in_order (ps : list Part) (st : state) (b : buf) :
  Append (Group ps) st b = appendAll Append ps st b /\
  Append (Group []) st b = Ok (b, st) /\
  (forall q, Group [q] = q) /\
  Append (New [Group ps]) st b = Append (New ps) st b.
Proof.
  split; [apply Append_Group | split; [reflexivity | split; [reflexivity |]]].
  rewrite !Append_New. cbn [appendAll]. rewrite Append_Group.
  destruct (appendAll Append ps st b) as [[b1 s1] | msg]; reflexivity.
Qed.

(** ** Append: the buffer does not matter *)

Lemma rebase_rebase (b o : buf) (r : result (buf * state)) :
  rebase b (rebase o r) = rebase (b ++ o) r.
Proof.
  destruct r as [[out st'] | msg]; cbn; [| reflexivity].
  rewrite app_assoc. reflexivity.
Qed.

Lemma rebase_nil (b : buf) (st : state) : Ok (b, st) = rebase b (Ok ([], st)).
Proof. cbn. rewrite app_nil_r. reflexivity. Qed.

Section rebasing.
Variable f : Part -> state -> buf -> result (buf * state).

Lemma appendAll_rebase (ps : list Part) :
  Forall (rebasing f) ps -> Forall typed ps ->
  forall st b, appendAll f ps st b = rebase b (appendAll f ps st []).
Proof.
  induction 1 as [| q qs Hq _ IH]; intros Ht st b; cbn [appendAll].
  - apply rebase_nil.
  - apply Forall_cons in Ht as [Tq Tqs]. rewrite (Hq Tq st b).
    destruct (f q st []) as [[o s1] | msg]; cbn [rebase]; [| reflexivity].
    rewrite (IH Tqs s1 (b ++ o)), (IH Tqs s1 o). symmetry.
    apply rebase_rebase.
Qed.

Lemma appendNth_rebase (ps : list Part) :
  Forall (rebasing f) ps -> Forall typed ps ->
  forall n st b, appendNth f ps n st b = rebase b (appendNth f ps n st []).
Proof.
  induction 1 as [| q qs Hq _ IH]; intros Ht n st b.
  - destruct n; reflexivity.
  - apply Forall_cons in Ht as [Tq Tqs]. destruct n as [| n]; cbn.
    + apply Hq, Tq.
    + apply IH, Tqs.
Qed.

Lemma repeat_loop_rebase (ps : list Part) :
  Forall (rebasing f) ps -> Forall typed ps ->
  forall n st b, repeat_loop f ps n st b = rebase b (repeat_loop f ps n st []).
Proof.
  intros Hr Ht n. induction n as [| n IH]; intros st b; cbn [repeat_loop].
  - apply rebase_nil.
  - rewrite (appendAll_rebase ps Hr Ht st b).
    destruct (appendAll f ps st []) as [[o s1] | msg]; cbn [rebase];
      [| reflexivity].
    rewrite (IH s1 (b ++ o)), (IH s1 o). symmetry. apply rebase_rebase.
Qed.

Lemma emit_loop_rebase (ps : list Part) (arr : nat) :
  Forall (rebasing f) ps -> Forall typed ps ->
  forall todo i st b,
    emit_loop f ps arr todo i st b
    = rebase b (emit_loop f ps arr todo i st []).
Proof.
  intros Hr Ht todo. induction todo as [| todo IH]; intros i st b;
    cbn [emit_loop].
  - apply rebase_nil.
  - destruct (arrays st !! arr) as [a |]; [| reflexivity].
    destruct (a !! i) as [k |]; [| reflexivity].
    rewrite (appendNth_rebase ps Hr Ht k st b).
    destruct (appendNth f ps k st []) as [[o s1] | msg]; cbn [rebase];
      [| reflexivity].
    rewrite (IH (S i) s1 (b ++ o)), (IH (S i) s1 o). symmetry.
    apply rebase_rebase.
Qed.
End rebasing.

Lemma Append_rebase (p : Part) :
  typed p -> forall st b, Append p st b = rebase b (Append p st []).
Proof.
  change (rebasing Append p).
  induction p as
    [ parts IH | | parts IH | parts min maxr IH | part IH | part percent IH
    | s | parts len IH | alphabet len | alphabet len | alphabet len
    | parts arr len IH | start max width curr ] using Part_nested_ind;
    intros Ht st b; cbn [Append typed] in *.
  - apply typed_all in Ht. apply appendAll_rebase; assumption.
  - apply rebase_nil.
  - apply typed_all in Ht. apply appendAll_rebase; assumption.
  - destruct Ht as (_ & _ & Ht). apply typed_all in Ht.
    unfold internal.RandN, internal.Fastrand.
    apply repeat_loop_rebase; assumption.
  - unfold internal.Fastrand. destruct (_ =? _).
    + apply IH, Ht.
    + apply rebase_nil.
  - unfold internal.RandFloat64, internal.Fastrand. destruct (f64_le _ _).
    + apply IH, Ht.
    + apply rebase_nil.
  - reflexivity.
  - destruct Ht as (_ & Ht). apply typed_all in Ht.
    unfold internal.RandN, internal.Fastrand.
    apply appendNth_rebase; assumption.
  - destruct (pick alphabet len st) as [[x s1] | msg]; reflexivity.
  - destruct (pick alphabet len st) as [[x s1] | msg]; reflexivity.
  - destruct (pick alphabet len st) as [[x s1] | msg]; reflexivity.
  - destruct Ht as (_ & Ht). apply typed_all in Ht.
    destruct (shuffle_loop arr _ st) as [st1 | msg]; [| reflexivity].
    apply emit_loop_rebase; assumption.
  - destruct Ht as (Hs & _).
    destruct (LoadUint64 curr st) as [last | msg]; [| reflexivity].
    destruct (CompareAndSwapUint64 curr last _ st) as [[[] st1] | msg];
      try reflexivity.
    assert (Hc : is_u64 (if (max <? u64 (last + 1)) || (u64 (last + 1) <? start)
                         then start else u64 (last + 1))).
    { destruct (_ || _); [assumption | apply u64_range]. }
    rewrite !appendInt_padded by exact Hc. cbv zeta.
    destruct (int_max <? _); reflexivity.
Qed.

(** X6. What a part generates does not depend on the buffer it is handed:
    on any buffer [b], [Append] returns [b] followed by what it returns on
    the empty buffer, leaves the same state and panics in the same cases.
    For a generator, [Append(b)] is [b] followed by the bytes of
    [String()]. *)
Theorem Append_ignores_the_buffer (p : Part) (st : state) (b : buf) :
  typed p ->
  Append p st b = rebase b (Append p st []) /\
  (forall parts, p = gen parts ->
     Append p st b =
     let! (s, st') := gen_String parts st in Ok (b ++ bytes s, st')).
Proof.
  intros Ht. split; [apply Append_rebase, Ht |].
  intros parts ->. rewrite (Append_rebase (gen parts) Ht st b).
  unfold gen_String. cbn [Append].
  destruct (appendAll Append parts st []) as [[out st'] | msg];
    cbn [rebase]; [| reflexivity].
  rewrite list_ascii_of_string_of_list_ascii. reflexivity.
Qed.

Lemma Append_ignores_the_buffer_witness :
  Append (New [Literal "o"; sequence 0 9 2 0])
    (State (fun _ => 0) 0 {[ 0%nat := 4 ]} ∅) (bytes "hello")
  = rebase (bytes "hello")
      (Append (New [Literal "o"; sequence 0 9 2 0])
         (State (fun _ => 0) 0 {[ 0%nat := 4 ]} ∅) []).
Proof.
  apply Append_ignores_the_buffer.
  cbn. unfold is_u64. repeat split; lia.
Defined.

(** ** Repeat: all three forms *)

Lemma repeat_loop_once (ps : list Part) (st : state) (b : buf) :
  repeat_loop Append ps 1 st b = appendAll Append ps st b.
Proof.
  cbn [repeat_loop].
  destruct (appendAll Append ps st b) as [[b' st'] | msg]; reflexivity.
Qed.

(** X7. Whatever form [Repeat(min, max, p...)] takes (the group of copies,
    the optional part, the stored repeat), with a range width below 2^32
    each [Append] appends the parts in order [n] times for some [n] of
    [min, max], after drawing at most one raw value; over literal parts the
    output is [n] copies of their text. *)
Theorem Repeat_repeats_within_bounds
    (min max : Z) (ps : list Part) (p : Part) :
  is_u32 min -> is_u32 max -> max - min + 1 < 2 ^ 32 ->
  Repeat min max ps = Ok p ->
  forall st b,
    exists n st1,
      min <= n <= max /\
      (st1 = st \/ st1 = set_drawn st (S (drawn st))) /\
      Append p st b = repeat_loop Append ps (Z.to_nat n) st1 b /\
      (forall ss, ps = map literal ss ->
         Append p st b
         = Ok (b ++ concat (replicate (Z.to_nat n) (concat ss)), st1)).
Proof.
  intros Hmin Hmax Hw HR st b.
  assert (Lit : forall n st1 ss, ps = map literal ss ->
            repeat_loop Append ps n st1 b
            = Ok (b ++ concat (replicate n (concat ss)), st1)).
  { intros n st1 ss ->.
    rewrite repeat_loop_concat, concat_replicate_literals,
      appendAll_literals, concat_concat_replicate. reflexivity. }
  unfold Repeat in HR. unfold is_u32 in *.
  destruct (Z.eqb_spec max 0) as [? | Hm0]; [discriminate |].
  destruct (Z.ltb_spec max min) as [? | Hge]; [discriminate |].
  destruct ((0 <? min) && (min =? max)) eqn:Hconst.
  { apply andb_true_iff in Hconst as [Hpos Heq].
    apply Z.eqb_eq in Heq. subst max. injection HR as <-.
    exists min, st. split; [lia |]. split; [left; reflexivity |].
    assert (E : Append (group (Repeat_fill (Z.to_nat min) [] ps)) st b
                = repeat_loop Append ps (Z.to_nat min) st b).
    { cbn [Append]. rewrite Repeat_fill_concat, repeat_loop_concat.
      reflexivity. }
    split; [exact E |]. intros ss Hss. rewrite E. apply Lit, Hss. }
  destruct ((min =? 0) && (max =? 1)) eqn:Hopt.
  { apply andb_true_iff in Hopt as [H0 H1].
    apply Z.eqb_eq in H0, H1. subst min max. injection HR as <-.
    set (st1 := set_drawn st (S (drawn st))).
    exists (if Z.odd (u64 (raw st (drawn st))) then 1 else 0), st1.
    assert (E : Append (potentially50 (Group ps)) st b
                = repeat_loop Append ps
                    (Z.to_nat (if Z.odd (u64 (raw st (drawn st)))
                               then 1 else 0)) st1 b).
    { rewrite Append_potentially50. fold st1.
      destruct (Z.odd _); [| reflexivity].
      rewrite Append_Group. symmetry. apply repeat_loop_once. }
    split; [destruct (Z.odd _); lia |].
    split; [right; reflexivity |].
    split; [exact E |]. intros ss Hss. rewrite E. apply Lit, Hss. }
  injection HR as <-.
  assert (Hlt : min < max).
  { destruct (Z.eq_dec min max) as [-> | ?]; [| lia].
    rewrite Z.eqb_refl, andb_true_r in Hconst.
    apply Z.ltb_ge in Hconst. lia. }
  set (width := max - min + 1).
  assert (Wr : is_u32 width) by (unfold is_u32, width; lia).
  rewrite (u32_small width Wr).
  set (st1 := set_drawn st (S (drawn st))).
  set (n := internal.scale width (u64 (raw st (drawn st))) + min).
  pose proof (scale_range width (u64 (raw st (drawn st)))
                ltac:(unfold width; lia) Wr (u64_range _)) as Hs.
  assert (Hn : min <= n <= max) by (unfold n, width in *; lia).
  exists n, st1. split; [exact Hn |]. split; [right; reflexivity |].
  assert (E : Append (repeat ps min width) st b
              = repeat_loop Append ps (Z.to_nat n) st1 b).
  { cbn [Append]. unfold internal.RandN, internal.Fastrand.
    fold st1. fold n. rewrite (u32_small n) by (unfold is_u32; lia).
    reflexivity. }
  split; [exact E |]. intros ss Hss. rewrite E. apply Lit, Hss.
Qed.

Lemma Repeat_repeats_within_bounds_witness :
  exists n st1,
    0 <= n <= 1 /\
    Append (potentially50 (Literal "o")) (st0 (fun _ => 7)) (bytes "x")
    = Ok (bytes "x" ++ concat (replicate (Z.to_nat n) (bytes "o")), st1).
Proof.
  assert (H0 : is_u32 0) by (unfold is_u32; lia).
  assert (H1 : is_u32 1) by (unfold is_u32; lia).
  destruct (Repeat_repeats_within_bounds 0 1 [Literal "o"]
              (potentially50 (Literal "o")) H0 H1 ltac:(lia) eq_refl
              (st0 (fun _ => 7)) (bytes "x"))
    as (n & st1 & Hn & _ & _ & L).
  exists n, st1. split; [exact Hn |].
  rewrite (L [bytes "o"] eq_refl). cbn [concat app]. reflexivity.
Defined.

(** ** Potentially: the two outcomes and the odd probabilities *)

Lemma f64_le_nan (x : float64) : f64_le x S754_nan = false.
Proof. destruct x; reflexivity. Qed.

(** X8. Whatever [Potentially(c, q)] returns, each [Append] of it either
    appends nothing or appends what [q] appends, after drawing at most one
    raw value. The comparisons of the constructor let a NaN through: it is
    accepted and the part is then never included; plus infinity gives [q]
    itself, minus zero the no-op part, minus infinity a panic. *)
Theorem Potentially_includes_or_skips (c : float64) (q p : Part) :
  (Potentially c q = Ok p ->
   forall st b, exists st1,
     (st1 = st \/ st1 = set_drawn st (S (drawn st))) /\
     (Append p st b = Ok (b, st1) \/ Append p st b = Append q st1 b)) /\
  (Potentially S754_nan q = Ok (potentiallyP q S754_nan) /\
   forall st b,
     Append (potentiallyP q S754_nan) st b
     = Ok (b, set_drawn st (S (drawn st)))) /\
  Potentially (S754_infinity false) q = Ok q /\
  Potentially (S754_zero true) q = Ok nullpart /\
  Potentially (S754_infinity true) q = Panic "chance must be > 0".
Proof.
  split; [| split; [split |]; [reflexivity | | repeat split]].
  - unfold Potentially.
    destruct (f64_lt c f64_zero); [discriminate |].
    destruct (f64_eq c f64_zero).
    { intros [= <-] st b. exists st. split; [left |]; auto. }
    destruct (f64_le f64_one c).
    { intros [= <-] st b. exists st. split; [left |]; auto. }
    destruct (f64_eq c f64_half); intros [= <-] st b;
      exists (set_drawn st (S (drawn st))); (split; [right; reflexivity |]).
    + rewrite Append_potentially50. destruct (Z.odd _); auto.
    + cbn [Append]. unfold internal.RandFloat64, internal.Fastrand.
      destruct (f64_le _ _); auto.
  - intros st b. cbn [Append].
    unfold internal.RandFloat64, internal.Fastrand.
    rewrite f64_le_nan. reflexivity.
Qed.

Lemma Potentially_includes_or_skips_witness :
  exists st1,
    Append (potentially50 (Literal "a")) (st0 (fun _ => 6)) [] = Ok ([], st1) \/
    Append (potentially50 (Literal "a")) (st0 (fun _ => 6)) []
    = Append (Literal "a") st1 [].
Proof.
  destruct (Potentially_includes_or_skips f64_half (Literal "a")
              (potentially50 (Literal "a"))) as [H _].
  destruct (H eq_refl (st0 (fun _ => 6)) []) as (st1 & _ & O).
  exists st1. exact O.
Defined.

(** ** The Choice family: what is chosen *)

Lemma pick_chooses {A} (alphabet : list A) (st : state) :
  alphabet <> [] -> Z.of_nat (length alphabet) < 2 ^ 32 ->
  exists x,
    alphabet !! Z.to_nat (internal.scale (Z.of_nat (length alphabet))
                            (u64 (raw st (drawn st)))) = Some x /\
    pick alphabet (u32 (Z.of_nat (length alphabet))) st
    = Ok (x, set_drawn st (S (drawn st))).
Proof.
  intros Hne Hlt.
  assert (Hl : length alphabet <> O) by (destruct alphabet; cbn; congruence).
  pose proof (scale_index (length alphabet) (raw st (drawn st)) Hl) as Hi.
  destruct (lookup_lt_is_Some_2 alphabet _ Hi) as [x Hx].
  unfold pick, internal.RandN, internal.Fastrand. rewrite Hx.
  rewrite (u32_small (Z.of_nat (length alphabet))) in Hx
    by (unfold is_u32; lia).
  exists x. split; [exact Hx | reflexivity].
Qed.

Lemma scale_reaches (L : nat) (i : nat) :
  (i < L)%nat -> Z.of_nat L < 2 ^ 32 ->
  exists r, is_u64 r /\
    Z.to_nat (internal.scale (u32 (Z.of_nat L)) r) = i.
Proof.
  intros Hi Hlt. set (n := Z.of_nat L).
  assert (Hn : is_u32 n) by (unfold is_u32, n; lia).
  assert (H0 : 0 < n) by (unfold n; lia).
  rewrite (u32_small n Hn).
  assert (Hlo : 0 <= first_raw n (Z.of_nat i))
    by (apply first_raw_nonneg; lia).
  assert (Hstep : first_raw n (Z.of_nat i) < first_raw n (Z.of_nat i + 1)).
  { pose proof (first_raw_step n (Z.of_nat i) H0) as S.
    assert (1 <= 2 ^ 64 / n).
    { apply Z.div_le_lower_bound; unfold is_u32 in Hn; lia. }
    lia. }
  assert (Hhi : first_raw n (Z.of_nat i + 1) <= 2 ^ 64)
    by (apply first_raw_le_top; unfold n; lia).
  assert (Hr : is_u64 (first_raw n (Z.of_nat i))) by (unfold is_u64; lia).
  exists (first_raw n (Z.of_nat i)). split; [exact Hr |].
  assert (E : internal.scale n (first_raw n (Z.of_nat i)) = Z.of_nat i).
  { apply scale_preimage; try assumption. lia. }
  rewrite E. apply Nat2Z.id.
Qed.

Lemma pick_reaches {A} (alphabet : list A) (i : nat) (x : A) :
  alphabet !! i = Some x -> Z.of_nat (length alphabet) < 2 ^ 32 ->
  exists r, is_u64 r /\
    forall st, u64 (raw st (drawn st)) = r ->
      pick alphabet (u32 (Z.of_nat (length alphabet))) st
      = Ok (x, set_drawn st (S (drawn st))).
Proof.
  intros Hx Hlt. pose proof (lookup_lt_Some _ _ _ Hx) as Hi.
  destruct (scale_reaches (length alphabet) i Hi Hlt) as (r & Hr & E).
  exists r. split; [exact Hr |].
  intros st Hst. unfold pick, internal.RandN, internal.Fastrand.
  rewrite Hst, E, Hx. reflexivity.
Qed.

(** X9. [OneOfByte], [OneOfString] and [OneOfRune] of a non-empty alphabet
    of fewer than 2^32 entries: every [Append] draws one raw value and
    appends one entry of the alphabet (the byte, the bytes of the string,
    the UTF-8 bytes of the rune), and every entry is the one appended for
    some raw value. *)
Theorem OneOf_alphabet_chooses_an_entry :
  (forall (alphabet : buf) st b,
     alphabet <> [] -> Z.of_nat (length alphabet) < 2 ^ 32 ->
     (exists c, c ∈ alphabet /\
        Append (OneOfByte alphabet) st b
        = Ok (b ++ [c], set_drawn st (S (drawn st)))) /\
     (forall c, c ∈ alphabet -> exists r, is_u64 r /\
        forall st b, u64 (raw st (drawn st)) = r ->
          Append (OneOfByte alphabet) st b
          = Ok (b ++ [c], set_drawn st (S (drawn st))))) /\
  (forall (alphabet : list string) st b,
     alphabet <> [] -> Z.of_nat (length alphabet) < 2 ^ 32 ->
     (exists s, s ∈ alphabet /\
        Append (OneOfString alphabet) st b
        = Ok (b ++ bytes s, set_drawn st (S (drawn st)))) /\
     (forall s, s ∈ alphabet -> exists r, is_u64 r /\
        forall st b, u64 (raw st (drawn st)) = r ->
          Append (OneOfString alphabet) st b
          = Ok (b ++ bytes s, set_drawn st (S (drawn st))))) /\
  (forall (alphabet : list Z) st b,
     alphabet <> [] -> Z.of_nat (length alphabet) < 2 ^ 32 ->
     (exists c, c ∈ alphabet /\
        Append (OneOfRune alphabet) st b
        = Ok (b ++ encode_rune c, set_drawn st (S (drawn st)))) /\
     (forall c, c ∈ alphabet -> exists r, is_u64 r /\
        forall st b, u64 (raw st (drawn st)) = r ->
          Append (OneOfRune alphabet) st b
          = Ok (b ++ encode_rune c, set_drawn st (S (drawn st))))).
Proof.
  split; [| split]; intros alphabet st b Hne Hlt; split.
  - destruct (pick_chooses alphabet st Hne Hlt) as (c & Hc & E).
    exists c. split; [apply list_elem_of_lookup; eauto |].
    unfold OneOfByte. cbn [Append]. rewrite E. reflexivity.
  - intros c Hc. apply list_elem_of_lookup in Hc as [i Hi].
    destruct (pick_reaches alphabet i c Hi Hlt) as (r & Hr & E).
    exists r. split; [exact Hr |]. intros st' b' Hst.
    unfold OneOfByte. cbn [Append]. rewrite (E st' Hst). reflexivity.
  - destruct (pick_chooses alphabet st Hne Hlt) as (c & Hc & E).
    exists c. split; [apply list_elem_of_lookup; eauto |].
    unfold OneOfString. cbn [Append]. rewrite E. reflexivity.
  - intros c Hc. apply list_elem_of_lookup in Hc as [i Hi].
    destruct (pick_reaches alphabet i c Hi Hlt) as (r & Hr & E).
    exists r. split; [exact Hr |]. intros st' b' Hst.
    unfold OneOfString. cbn [Append]. rewrite (E st' Hst). reflexivity.
  - destruct (pick_chooses alphabet st Hne Hlt) as (c & Hc & E).
    exists c. split; [apply list_elem_of_lookup; eauto |].
    unfold OneOfRune. cbn [Append]. rewrite E. reflexivity.
  - intros c Hc. apply list_elem_of_lookup in Hc as [i Hi].
    destruct (pick_reaches alphabet i c Hi Hlt) as (r & Hr & E).
    exists r. split; [exact Hr |]. intros st' b' Hst.
    unfold OneOfRune. cbn [Append]. rewrite (E st' Hst). reflexivity.
Qed.

Lemma OneOf_alphabet_chooses_an_entry_witness :
  exists c, c ∈ bytes "ab" /\
    Append (OneOfByte (bytes "ab")) (st0 (fun _ => 2 ^ 63)) (bytes "x")
    = Ok (bytes "x" ++ [c], set_drawn (st0 (fun _ => 2 ^ 63)) 1).
Proof.
  destruct OneOf_alphabet_chooses_an_entry as (B & _).
  destruct (B (bytes "ab") (st0 (fun _ => 2 ^ 63)) (bytes "x")) as [H _].
  - discriminate.
  - cbn. lia.
  - exact H.
Defined.

(** X10. [OneOf] of exactly one part is that part, and no raw value is
    drawn. [OneOf] of a non-empty list of fewer than 2^32 parts appends, on
    every [Append], what one of the parts appends, after one draw when
    there are several parts; and every part is the one chosen for some raw
    value. *)
Theorem OneOf_chooses_a_part (ps : list Part) :
  ps <> [] -> Z.of_nat (length ps) < 2 ^ 32 ->
  (forall q, ps = [q] -> OneOf ps = q) /\
  (forall st b, exists q st1,
     q ∈ ps /\ (st1 = st \/ st1 = set_drawn st (S (drawn st))) /\
     Append (OneOf ps) st b = Append q st1 b) /\
  (forall q, q ∈ ps -> exists r, is_u64 r /\
     forall st b, u64 (raw st (drawn st)) = r ->
       exists st1, (st1 = st \/ st1 = set_drawn st (S (drawn st))) /\
         Append (OneOf ps) st b = Append q st1 b).
Proof.
  intros Hne Hlt. split; [intros q ->; reflexivity |].
  destruct ps as [| q0 [| q1 qs]]; [congruence | |].
  - split.
    + intros st b. exists q0, st. split; [left |]. split; [left |]; reflexivity.
    + intros q Hq. apply list_elem_of_singleton in Hq as ->.
      exists 0. split; [unfold is_u64; lia |].
      intros st b _. exists st. split; [left |]; reflexivity.
  - set (ps := q0 :: q1 :: qs) in *.
    assert (E : forall st b,
               Append (OneOf ps) st b
               = appendNth Append ps
                   (Z.to_nat (internal.scale (u32 (Z.of_nat (length ps)))
                                (u64 (raw st (drawn st)))))
                   (set_drawn st (S (drawn st))) b) by reflexivity.
    split.
    + intros st b.
      pose proof (scale_index (length ps) (raw st (drawn st))
                    ltac:(cbn; lia)) as Hi.
      destruct (lookup_lt_is_Some_2 ps _ Hi) as [q Hq].
      exists q, (set_drawn st (S (drawn st))).
      split; [apply list_elem_of_lookup; eauto |].
      split; [right; reflexivity |].
      rewrite E. apply appendNth_lookup, Hq.
    + intros q Hq. apply list_elem_of_lookup in Hq as [i Hi].
      pose proof (lookup_lt_Some _ _ _ Hi) as Hil.
      destruct (scale_reaches (length ps) i Hil Hlt) as (r & Hr & Er).
      exists r. split; [exact Hr |]. intros st b Hst.
      exists (set_drawn st (S (drawn st))). split; [right; reflexivity |].
      rewrite E, Hst, Er. apply appendNth_lookup, Hi.
Qed.

Lemma OneOf_chooses_a_part_witness :
  exists q st1,
    q ∈ [Literal "a"; Literal "b"] /\
    Append (OneOf [Literal "a"; Literal "b"]) (st0 (fun _ => 2 ^ 63)) []
    = Append q st1 [].
Proof.
  destruct (OneOf_chooses_a_part [Literal "a"; Literal "b"]) as (_ & H & _).
  - discriminate.
  - cbn. lia.
  - destruct (H (st0 (fun _ => 2 ^ 63)) []) as (q & st1 & Hq & _ & E).
    exists q, st1. split; assumption.
Defined.

(** ** Sequence: the values over time *)

Lemma sequence_value_range (start max i : Z) :
  start <= max -> start <= sequence_value start max i <= max.
Proof.
  intros H. unfold sequence_value.
  pose proof (Z.mod_pos_bound i (max - start + 1) ltac:(lia)). lia.
Qed.

Lemma sequence_value_succ (start max i : Z) :
  is_u64 start -> is_u64 max -> start <= max ->
  sequence_next start max (sequence_value start max i)
  = sequence_value start max (i + 1).
Proof.
  intros Hs Hm Hsm. unfold sequence_value.
  set (P := max - start + 1).
  assert (HP : 0 < P) by (unfold P; lia).
  pose proof (Z.mod_pos_bound i P HP) as Hi.
  pose proof (Z.div_mod i P ltac:(lia)) as Di.
  destruct (Z.eq_dec (i mod P) (P - 1)) as [E | Hne].
  - assert (E1 : (i + 1) mod P = 0).
    { symmetry. apply (Z.mod_unique (i + 1) P (i / P + 1) 0); lia. }
    rewrite E1, E, Z.add_0_r.
    apply sequence_next_wrap; try assumption.
    + unfold is_u64 in *. unfold P. lia.
    + unfold P. lia.
  - assert (E1 : (i + 1) mod P = i mod P + 1).
    { symmetry. apply (Z.mod_unique (i + 1) P (i / P) (i mod P + 1)); lia. }
    rewrite E1, sequence_next_step; try assumption; [lia |].
    unfold P in *. lia.
Qed.

Lemma strings_sequence (start max width : Z) (curr : nat) (k : nat) :
  is_u64 start -> is_u64 max -> start <= max -> width_fits width ->
  forall st last i,
    cells st !! curr = Some last ->
    sequence_next start max last = sequence_value start max i ->
    strings k [sequence start max width curr] st
    = (fun j => string_of_list_ascii
                  (zero_padded width (sequence_value start max (i + Z.of_nat j))))
        <$> seq 0 k.
Proof.
  intros Hs Hm Hsm Hw. induction k as [| k IH]; intros st last i Hc Hn.
  - reflexivity.
  - cbn [strings]. unfold gen_String. cbn [appendAll].
    rewrite (Append_sequence start max width curr st [] last Hs Hw Hc).
    cbn [app seq fmap list_fmap]. rewrite Hn, Z.add_0_r. f_equal.
    rewrite (IH _ (sequence_value start max i) (i + 1)).
    + rewrite <- seq_shift, <- list_fmap_compose. apply list_fmap_ext.
      intros _ j _. cbn. do 3 f_equal. lia.
    + cbn. apply lookup_insert_eq.
    + apply sequence_value_succ; assumption.
Qed.

(** X11. A sequence runs through [start, start+1, ..., max] and starts
    over, for ever: for a [width] that fits (an [int], at least 20 above
    the least one), the [i]-th [String] call of a generator that holds a
    [Sequence(start, max, width)], counting from 0, returns the number
    [n = start + i mod (max - start + 1)], zero-padded to [width]: a string
    of decimal digits that reads as [n] and is as long as [width] or, if
    that is more, as [n] has digits. *)
Theorem Sequence_cycles (start max width : Z) (st st1 : state) (p : Part) :
  is_u64 start -> is_u64 max -> start <= max -> width_fits width ->
  Sequence start max width st = Ok (p, st1) ->
  forall k,
    strings k (gen_parts (New [p])) st1
    = (fun i => string_of_list_ascii
                  (zero_padded width
                     (start + Z.of_nat i mod (max - start + 1))))
        <$> seq 0 k /\
    forall i, let n := start + Z.of_nat i mod (max - start + 1) in
      start <= n <= max /\
      Forall is_digit (zero_padded width n) /\
      parse_decimal (zero_padded width n) = n /\
      exists d, Z.of_nat (length (zero_padded width n)) = Z.max width d /\
        1 <= d <= 20 /\ (n = 0 -> d = 1) /\
        (0 < n -> 10 ^ (d - 1) <= n < 10 ^ d).
Proof.
  intros Hs Hm Hsm Hw HS k. split.
  - unfold Sequence in HS.
    destruct (Z.ltb_spec max start); [lia |]. injection HS as <- <-.
    cbn [New New_loop app gen_parts].
    rewrite (strings_sequence start max width _ k Hs Hm Hsm Hw _
               (u64 (start - 1)) 0).
    + reflexivity.
    + cbn. apply lookup_insert_eq.
    + rewrite sequence_next_first by assumption.
      unfold sequence_value. rewrite Z.mod_0_l by lia. lia.
  - intros i n.
    assert (Hr : start <= n <= max)
      by (apply (sequence_value_range start max (Z.of_nat i)); exact Hsm).
    assert (Hn : is_u64 n) by (unfold is_u64 in *; lia).
    destruct (zero_padded_reads width n Hn) as (D & P & L).
    split; [exact Hr |]. split; [exact D |]. split; [exact P |].
    exists (Z.of_nat (length (decimal n))). split; [exact L |].
    exact (decimal_digits n Hn).
Qed.

Lemma Sequence_cycles_witness :
  exists p st1,
    Sequence 8 10 2 (st0 (fun _ => 0)) = Ok (p, st1) /\
    strings 5 (gen_parts (New [p])) st1
    = ["08"; "09"; "10"; "08"; "09"]%string.
Proof.
  assert (H8 : is_u64 8) by (unfold is_u64; lia).
  assert (H10 : is_u64 10) by (unfold is_u64; lia).
  assert (H2 : width_fits 2) by (unfold width_fits, int_min, int_max; lia).
  eexists _, _. split; [reflexivity |].
  destruct (Sequence_cycles 8 10 2 (st0 (fun _ => 0)) _ _ H8 H10
              ltac:(lia) H2 eq_refl 5) as [E _].
  rewrite E. vm_compute. reflexivity.
Defined.

(** X12. Two sequences built one after the other, with widths that fit
    (an [int], at least 20 above the least one), count apart. Either has
    a cell of its own; running the first draws nothing from the random
    source, leaves every backing array as it is, writes no cell but its
    own, and does not change what the second emits next. *)
Theorem Sequences_count_apart
    (s1 m1 w1 s2 m2 w2 : Z) (st st1 st2 : state) (p1 p2 : Part) :
  is_u64 s1 -> is_u64 s2 -> width_fits w1 -> width_fits w2 ->
  Sequence s1 m1 w1 st = Ok (p1, st1) ->
  Sequence s2 m2 w2 st1 = Ok (p2, st2) ->
  forall s, evolves st2 s ->
  forall b, exists out s',
    Append p1 s b = Ok (b ++ out, s') /\
    raw s' = raw s /\ drawn s' = drawn s /\ arrays s' = arrays s /\
    (forall c, p1 <> sequence s1 m1 w1 c -> cells s' !! c = cells s !! c) /\
    (forall b2, output (Append p2 s' b2) = output (Append p2 s b2)).
Proof.
  intros H1 H2 W1 W2 E1 E2 s Hev b.
  pose proof (Sequence_evolves _ _ _ _ _ _ E2) as Hev2.
  unfold Sequence in E1, E2.
  destruct (m1 <? s1); [discriminate |].
  destruct (m2 <? s2); [discriminate |].
  injection E1 as <- <-. injection E2 as <- <-.
  cbn [cells set_cells] in *.
  set (c1 := fresh (dom (cells st))) in *.
  set (c2 := fresh (dom (<[c1 := u64 (s1 - 1)]> (cells st)))) in *.
  assert (Hne : c2 <> c1).
  { intros E.
    pose proof (is_fresh (dom (<[c1 := u64 (s1 - 1)]> (cells st)))) as Hf.
    fold c2 in Hf. apply Hf, elem_of_dom. rewrite E.
    rewrite lookup_insert_eq. eauto. }
  destruct Hev as (Hraw & Hcells & _). cbn [cells set_cells] in Hcells.
  destruct (Hcells c1) as [l1 Hl1].
  { rewrite lookup_insert_ne by exact Hne.
    rewrite lookup_insert_eq. eauto. }
  destruct (Hcells c2) as [l2 Hl2].
  { rewrite lookup_insert_eq. eauto. }
  rewrite (Append_sequence s1 m1 w1 c1 s b l1 H1 W1 Hl1).
  eexists _, _. split; [reflexivity |].
  split; [reflexivity |]. split; [reflexivity |]. split; [reflexivity |].
  split.
  - intros c Hc. cbn. apply lookup_insert_ne. intros <-. apply Hc. reflexivity.
  - intros b2.
    rewrite (Append_sequence s2 m2 w2 c2 s b2 l2 H2 W2 Hl2).
    rewrite (Append_sequence s2 m2 w2 c2 _ b2 l2 H2 W2).
    + reflexivity.
    + cbn. rewrite lookup_insert_ne by (intros E; apply Hne; symmetry; exact E).
      exact Hl2.
Qed.

Lemma Sequences_count_apart_witness :
  exists p1 st1 p2 st2 out s',
    Sequence 1 3 0 (st0 (fun _ => 0)) = Ok (p1, st1) /\
    Sequence 7 9 0 st1 = Ok (p2, st2) /\
    Append p1 st2 [] = Ok ([] ++ out, s') /\
    drawn s' = drawn st2 /\
    output (Append p2 s' []) = output (Append p2 st2 []).
Proof.
  assert (H1 : is_u64 1) by (unfold is_u64; lia).
  assert (H7 : is_u64 7) by (unfold is_u64; lia).
  assert (W0 : width_fits 0) by (unfold width_fits, int_min, int_max; lia).
  eexists _, _, _, _.
  destruct (Sequences_count_apart 1 3 0 7 9 0 (st0 (fun _ => 0)) _ _ _ _
              H1 H7 W0 W0 eq_refl eq_refl _ (evolves_refl _) [])
    as (out & s' & E & _ & Hd & _ & _ & Ho).
  exists out, s'. split; [reflexivity |]. split; [reflexivity |].
  split; [exact E |]. split; [exact Hd |]. exact (Ho []).
Defined.

(** ** Shuffle of one part *)

Lemma permutation_of_one (a : list nat) (k : nat) : a ≡ₚ [k] -> a = [k].
Proof.
  intros H. symmetry in H. apply Permutation_singleton_l in H.
  symmetry. exact H.
Qed.

(** X13. A [Shuffle] of one part generates what the part generates:
    in the state the constructor leaves and in any state reached later,
    [Append] draws nothing for the shuffle itself and returns the buffer
    and the state that the part's own [Append] returns. *)
Theorem Shuffle_of_one_part (q : Part) (st s : state) (b : buf) :
  evolves (snd (Shuffle [q] st)) s ->
  Append (fst (Shuffle [q] st)) s b = Append q s b.
Proof.
  intros (_ & _ & Harr).
  unfold Shuffle in *. cbn [fst snd length] in *.
  set (arr := fresh (dom (arrays st))) in *.
  destruct (Harr arr [0%nat]) as (a & Ha & Hp).
  { cbn. apply lookup_insert_eq. }
  apply permutation_of_one in Hp. subst a.
  rewrite Append_shuffle.
  change (Z.to_nat (u32 (u32 (Z.of_nat 1) - 1))) with 0%nat.
  change (Z.to_nat (u32 (Z.of_nat 1))) with 1%nat.
  cbn [shuffle_loop emit_loop appendNth]. rewrite Ha. cbn [lookup].
  cbn. destruct (Append q s b) as [[b' s'] | msg]; reflexivity.
Qed.

Lemma Shuffle_of_one_part_witness :
  Append (fst (Shuffle [OneOfByte (bytes "ab")] (st0 (fun _ => 0))))
         (snd (Shuffle [OneOfByte (bytes "ab")] (st0 (fun _ => 0)))) []
  = Append (OneOfByte (bytes "ab"))
           (snd (Shuffle [OneOfByte (bytes "ab")] (st0 (fun _ => 0)))) [].
Proof.
  exact (Shuffle_of_one_part (OneOfByte (bytes "ab")) (st0 (fun _ => 0)) _ []
           (evolves_refl _)).
Defined.

(** ** FastRandomReader *)

Lemma store_byte_ok (b : buf) (i : nat) (x : ascii) :
  (i < length b)%nat -> store_byte b i x = Ok (<[i := x]> b).
Proof. intros H. unfold store_byte. rewrite decide_True by exact H. reflexivity. Qed.

Lemma PutUint64_ok (b : buf) (n : nat) (v : Z) :
  (n + 8 <= length b)%nat ->
  exists b', PutUint64 b n v = Ok b' /\ length b' = length b /\
    (forall k, (k < n)%nat -> b' !! k = b !! k) /\
    (forall j, (j < 8)%nat ->
       b' !! (n + j)%nat = Some (byte_of (Z.shiftr v (8 * Z.of_nat j)))).
Proof.
  intros H. unfold PutUint64. rewrite decide_True by lia.
  rewrite store_byte_ok by lia. cbv beta iota.
  do 6 (rewrite store_byte_ok by (rewrite ?length_insert; lia);
        cbv beta iota).
  rewrite store_byte_ok by (rewrite ?length_insert; lia).
  eexists. split; [reflexivity |]. split; [| split].
  - rewrite !length_insert. reflexivity.
  - intros k Hk. rewrite !list_lookup_insert_ne by lia. reflexivity.
  - intros j Hj.
    destruct j as [| [| [| [| [| [| [| [| j]]]]]]]]; try lia;
      rewrite ?(list_lookup_insert_ne _ _ _ _) by lia;
      [ replace (n + 0)%nat with n by lia | .. ];
      (rewrite list_lookup_insert_eq by (rewrite ?length_insert; lia));
      reflexivity.
Qed.

Lemma random_byte_word (f : nat -> Z) (d m j : nat) :
  (j < 8)%nat ->
  random_byte f d (8 * m + j) =
  byte_of (Z.shiftr (u64 (f (d + m)%nat)) (8 * Z.of_nat j)).
Proof.
  intros Hj. unfold random_byte.
  assert (E1 : ((8 * m + j) / 8 = m)%nat).
  { symmetry. apply (Nat.div_unique (8 * m + j) 8 m j); lia. }
  assert (E2 : ((8 * m + j) mod 8 = j)%nat).
  { symmetry. apply (Nat.mod_unique (8 * m + j) 8 m j); lia. }
  rewrite E1, E2. reflexivity.
Qed.

Lemma fill_words_spec (f : nat -> Z) (d : nat) (fuel : nat) :
  forall (m : nat) (b : buf) (st : state),
    raw st = f -> drawn st = (d + m)%nat ->
    (8 * m <= length b)%nat -> (length b <= 8 * m + 8 * fuel + 7)%nat ->
    (forall k, (k < 8 * m)%nat -> b !! k = Some (random_byte f d k)) ->
    exists b' st',
      fill_words fuel (8 * m) b st = Ok ((8 * (length b / 8))%nat, b', st') /\
      length b' = length b /\
      (forall k, (k < 8 * (length b / 8))%nat ->
         b' !! k = Some (random_byte f d k)) /\
      raw st' = f /\ drawn st' = (d + length b / 8)%nat /\
      cells st' = cells st /\ arrays st' = arrays st.
Proof.
  induction fuel as [| fuel IH]; intros m b st Hraw Hd Hlo Hhi Hpre.
  - assert (E : (length b / 8 = m)%nat).
    { symmetry. apply (Nat.div_unique (length b) 8 m (length b - 8 * m)); lia. }
    cbn [fill_words]. rewrite E. exists b, st.
    repeat split; try assumption; try reflexivity.
  - cbn [fill_words]. destruct (decide (8 * m + 8 <= length b)%nat) as [Hw | Hw].
    + unfold internal.Fastrand.
      destruct (PutUint64_ok b (8 * m) (u64 (raw st (drawn st))) Hw)
        as (b1 & -> & Hlen & Hkeep & Hnew).
      replace (8 * m + 8)%nat with (8 * S m)%nat by lia.
      destruct (IH (S m) b1 (set_drawn st (S (drawn st))))
        as (b' & st' & E & Hlen' & Hall & Hraw' & Hd' & Hc & Ha).
      * exact Hraw.
      * cbn. lia.
      * lia.
      * lia.
      * intros k Hk. destruct (Nat.lt_ge_cases k (8 * m)) as [Hlt | Hge].
        -- rewrite Hkeep by exact Hlt. apply Hpre, Hlt.
        -- replace k with (8 * m + (k - 8 * m))%nat by lia.
           rewrite Hnew by lia. rewrite random_byte_word by lia.
           rewrite Hraw, Hd. reflexivity.
      * rewrite Hlen in *. exists b', st'. repeat split; assumption.
    + assert (E : (length b / 8 = m)%nat).
      { symmetry.
        apply (Nat.div_unique (length b) 8 m (length b - 8 * m)); lia. }
      rewrite E. exists b, st. repeat split; try assumption; reflexivity.
Qed.

Lemma fill_tail_spec (fuel : nat) :
  forall (n : nat) (val : Z) (b : buf),
    (n <= length b)%nat -> (length b <= n + fuel)%nat ->
    exists b',
      fill_tail fuel n val b = Ok (length b, b') /\
      length b' = length b /\
      (forall k, (k < n)%nat -> b' !! k = b !! k) /\
      (forall j, (n + j < length b)%nat ->
         b' !! (n + j)%nat = Some (byte_of (Z.shiftr val (8 * Z.of_nat j)))).
Proof.
  induction fuel as [| fuel IH]; intros n val b Hlo Hhi.
  - cbn [fill_tail]. replace n with (length b) by lia. exists b.
    repeat split; try reflexivity. intros j Hj. lia.
  - cbn [fill_tail]. destruct (decide (n < length b)%nat) as [Hn | Hn].
    + rewrite store_byte_ok by exact Hn. cbv beta iota.
      destruct (IH (n + 1)%nat (Z.shiftr val 8) (<[n := byte_of val]> b))
        as (b' & E & Hlen & Hkeep & Hnew).
      * rewrite length_insert. lia.
      * rewrite length_insert. lia.
      * rewrite length_insert in *. rewrite E. exists b'.
        split; [reflexivity |]. split; [exact Hlen |]. split.
        -- intros k Hk. rewrite Hkeep by lia.
           apply list_lookup_insert_ne. lia.
        -- intros [| j] Hj.
           ++ replace (n + 0)%nat with n by lia.
              rewrite Hkeep by lia.
              rewrite list_lookup_insert_eq by exact Hn. reflexivity.
           ++ replace (n + S j)%nat with (n + 1 + j)%nat by lia.
              rewrite Hnew by lia. rewrite Z.shiftr_shiftr by lia.
              do 3 f_equal. lia.
    + replace n with (length b) by lia. exists b.
      repeat split; try reflexivity. intros j Hj. lia.
Qed.

(** X14. [FastRandomReader] never fails and overwrites the whole buffer,
    whatever it held: it returns [len(b)], byte [k] is byte [k mod 8],
    counted from the low end, of the [k / 8]-th value it takes from
    [Fastrand], and it takes one value for every eight bytes or part of
    eight bytes. *)
Theorem FastRandomReader_fills (b : buf) (st : state) :
  exists b' st',
    FastRandomReader b st = Ok (length b, b', st') /\
    length b' = length b /\
    (forall k, (k < length b)%nat ->
       b' !! k = Some (byte_of (Z.shiftr (u64 (raw st (drawn st + k / 8)%nat))
                                         (8 * Z.of_nat (k mod 8))))) /\
    raw st' = raw st /\
    drawn st' = (drawn st + (length b + 7) / 8)%nat /\
    cells st' = cells st /\ arrays st' = arrays st.
Proof.
  unfold FastRandomReader.
  destruct (fill_words_spec (raw st) (drawn st) (length b) 0 b st)
    as (b1 & st1 & E & Hlen & Hall & Hraw & Hd & Hc & Ha);
    try reflexivity; try lia.
  change (8 * 0)%nat with 0%nat in E. rewrite E. cbv beta iota.
  rewrite !Hlen.
  pose proof (Nat.div_mod_eq (length b) 8) as Hdm.
  pose proof (Nat.mod_upper_bound (length b) 8 ltac:(lia)) as Hm.
  destruct (decide (8 * (length b / 8) < length b)%nat) as [Ht | Ht].
  - unfold internal.Fastrand.
    destruct (fill_tail_spec (length b) (8 * (length b / 8))
                (u64 (raw st1 (drawn st1))) b1)
      as (b2 & E2 & Hlen2 & Hkeep & Hnew); try lia.
    rewrite ?Hlen in *. rewrite E2. exists b2, (set_drawn st1 (S (drawn st1))).
    split; [reflexivity |]. split; [exact Hlen2 |]. split; [| split; [| split]].
    + intros k Hk.
      destruct (Nat.lt_ge_cases k (8 * (length b / 8))) as [Hlt | Hge].
      * rewrite Hkeep by exact Hlt. apply Hall, Hlt.
      * assert (Ek : k = (8 * (length b / 8) + (k - 8 * (length b / 8)))%nat)
          by lia.
        rewrite Ek at 1. rewrite Hnew by lia.
        rewrite Hraw, Hd.
        rewrite <- (random_byte_word (raw st) (drawn st)) by lia.
        rewrite <- Ek. reflexivity.
    + exact Hraw.
    + cbn [drawn set_drawn]. rewrite Hd.
      assert (((length b + 7) / 8 = length b / 8 + 1)%nat) as ->; [| lia].
      symmetry.
      apply (Nat.div_unique (length b + 7) 8 (length b / 8 + 1)
               (length b mod 8 - 1)); lia.
    + split; [exact Hc | exact Ha].
  - exists b1, st1. replace (8 * (length b / 8))%nat with (length b) by lia.
    split; [reflexivity |]. split; [exact Hlen |]. split; [| split; [| split]].
    + intros k Hk. apply Hall. lia.
    + exact Hraw.
    + rewrite Hd.
      assert (((length b + 7) / 8 = length b / 8)%nat) as ->; [| lia].
      symmetry.
      apply (Nat.div_unique (length b + 7) 8 (length b / 8) 7); lia.
    + split; [exact Hc | exact Ha].
Qed.

Lemma FastRandomReader_fills_witness :
  exists b' st',
    FastRandomReader (bytes "0123456789") (st0 (fun _ => 513))
    = Ok (10%nat, b', st') /\
    b' !! 9%nat = Some (byte_of 2) /\ drawn st' = 2%nat.
Proof.
  destruct (FastRandomReader_fills (bytes "0123456789") (st0 (fun _ => 513)))
    as (b' & st' & E & _ & Hk & _ & Hd & _).
  exists b', st'. split; [exact E |].
  split; [exact (Hk 9%nat ltac:(cbn; lia)) | exact Hd].
Defined.

(** ** RandFloat64 *)

Lemma digits2_pos_bounds (p : positive) :
  2 ^ (Zpos (digits2_pos p) - 1) <= Zpos p < 2 ^ Zpos (digits2_pos p).
Proof.
  induction p as [p IH | p IH |]; cbn [digits2_pos].
  - rewrite Pos2Z.inj_succ.
    replace (Z.succ (Zpos (digits2_pos p)) - 1)
      with (Z.succ (Zpos (digits2_pos p) - 1)) by lia.
    rewrite !Z.pow_succ_r by lia. lia.
  - rewrite Pos2Z.inj_succ.
    replace (Z.succ (Zpos (digits2_pos p)) - 1)
      with (Z.succ (Zpos (digits2_pos p) - 1)) by lia.
    rewrite !Z.pow_succ_r by lia. lia.
  - cbn. lia.
Qed.

Lemma digits2_pos_shift (p k : positive) :
  digits2_pos (Pos.iter xO p k) = (digits2_pos p + k)%positive.
Proof.
  induction k as [| k IH] using Pos.peano_ind.
  - cbn. rewrite Pos.add_1_r. reflexivity.
  - rewrite Pos.iter_succ. cbn [digits2_pos]. rewrite IH, Pos.add_succ_r.
    reflexivity.
Qed.

Lemma Zpos_shift (p k : positive) :
  Zpos (Pos.iter xO p k) = Zpos p * 2 ^ Zpos k.
Proof.
  induction k as [| k IH] using Pos.peano_ind.
  - cbn. lia.
  - rewrite Pos.iter_succ, Pos2Z.inj_xO, IH, Pos2Z.inj_succ.
    rewrite Z.pow_succ_r by lia. lia.
Qed.

(** A mantissa of 53 digits with an exponent in range is kept as it is. *)
Lemma binary_round_aux_kept (mz : positive) (ez : Z) :
  digits2_pos mz = 53%positive -> -1074 <= ez <= 971 ->
  binary_round_aux 53 1024 false (Zpos mz) ez loc_Exact
  = S754_finite false mz ez.
Proof.
  intros Hd He. unfold binary_round_aux, shr_fexp.
  cbn [Zdigits2 shr_record_of_loc]. rewrite Hd.
  replace (fexp 53 1024 (53 + ez) - ez) with 0
    by (unfold fexp, emin; lia).
  cbn [shr shr_m loc_of_shr_record round_nearest_even Zdigits2
       shr_record_of_loc].
  rewrite Hd.
  replace (fexp 53 1024 (53 + ez) - ez) with 0
    by (unfold fexp, emin; lia).
  cbn [shr shr_m].
  destruct (Z.leb_spec ez (1024 - 53)); [reflexivity | lia].
Qed.

(** The conversion [float64(m)] of a positive integer below [2^53] is
    exact. *)
Lemma f64_of_Z_exact (m : Z) :
  0 < m < 2 ^ 53 ->
  exists mz ez,
    f64_of_Z m = S754_finite false mz ez /\
    digits2_pos mz = 53%positive /\ -52 <= ez <= 0 /\
    Zpos mz = m * 2 ^ (- ez).
Proof.
  intros Hm. destruct m as [| p | p]; try lia.
  unfold f64_of_Z, binary_normalize, binary_round, shl_align.
  pose proof (digits2_pos_bounds p) as Hb.
  assert (Hd : Zpos (digits2_pos p) <= 53).
  { destruct (Z.le_gt_cases (Zpos (digits2_pos p)) 53) as [H | H];
      [exact H |].
    assert (2 ^ 53 <= 2 ^ (Zpos (digits2_pos p) - 1))
      by (apply Z.pow_le_mono_r; lia).
    lia. }
  replace (fexp 53 1024 (Zpos (digits2_pos p) + 0) - 0)
    with (Zpos (digits2_pos p) - 53) by (unfold fexp, emin; lia).
  destruct (Zpos (digits2_pos p) - 53) as [| k | k] eqn:E; try lia.
  - exists p, 0. rewrite binary_round_aux_kept.
    + repeat split; lia.
    + apply Pos2Z.inj. lia.
    + lia.
  - exists (Pos.iter xO p k).
    exists (fexp 53 1024 (Zpos (digits2_pos p) + 0)).
    assert (Ef : fexp 53 1024 (Zpos (digits2_pos p) + 0) = Zneg k)
      by (unfold fexp, emin; lia).
    rewrite Ef.
    assert (Hk : digits2_pos (Pos.iter xO p k) = 53%positive).
    { rewrite digits2_pos_shift. apply Pos2Z.inj.
      rewrite Pos2Z.inj_add. lia. }
    rewrite binary_round_aux_kept by (try exact Hk; lia).
    repeat split; try lia; try exact Hk.
    rewrite Zpos_shift. reflexivity.
Qed.

(** Multiplying a float of 53 digits by [2^-53] lowers its exponent. *)
Lemma f64_mul_f53Mul (mz : positive) (ez : Z) :
  digits2_pos mz = 53%positive -> -52 <= ez <= 0 ->
  f64_mul (S754_finite false mz ez) internal.f53Mul
  = S754_finite false mz (ez - 53).
Proof.
  intros Hd He. unfold f64_mul, internal.f53Mul, SFmul.
  cbn [xorb]. rewrite Pos.mul_comm.
  change (4503599627370496 * mz)%positive with (Pos.iter xO mz 52).
  unfold binary_round_aux, shr_fexp.
  cbn [Zdigits2 shr_record_of_loc]. rewrite digits2_pos_shift, Hd.
  replace (fexp 53 1024 (Zpos (53 + 52) + (ez + -105)) - (ez + -105)) with 52
    by (unfold fexp, emin; lia).
  unfold shr at 1.
  change (SpecFloat.iter_pos shr_1 52
            {| shr_m := Zpos (Pos.iter xO mz 52);
               shr_r := false; shr_s := false |})
    with {| shr_m := Zpos mz; shr_r := false; shr_s := false |}.
  cbn [shr_m loc_of_shr_record round_nearest_even Zdigits2].
  rewrite Hd.
  replace (fexp 53 1024 (53 + (ez + -105 + 52)) - (ez + -105 + 52)) with 0
    by (unfold fexp, emin; lia).
  cbn [shr shr_m].
  destruct (Z.leb_spec (ez + -105 + 52) (1024 - 53)); [| lia].
  f_equal. lia.
Qed.

Lemma land_int53Mask (r : Z) :
  Z.land r internal.int53Mask = r mod 2 ^ 53.
Proof.
  unfold internal.int53Mask.
  replace (2 ^ 53 - 1) with (Z.ones 53) by reflexivity.
  apply Z.land_ones. lia.
Qed.

Lemma unit_float_value (r : Z) :
  let m := r mod 2 ^ 53 in
  (m = 0 -> internal.unit_float r = f64_zero) /\
  (m <> 0 -> exists mz e,
     internal.unit_float r = S754_finite false mz e /\
     -105 <= e <= -53 /\ digits2_pos mz = 53%positive /\
     Zpos mz = m * 2 ^ (- 53 - e)).
Proof.
  intros m. unfold internal.unit_float. rewrite land_int53Mask. fold m.
  pose proof (Z.mod_pos_bound r (2 ^ 53) ltac:(lia)) as Hm. fold m in Hm.
  split.
  - intros ->. reflexivity.
  - intros Hne.
    destruct (f64_of_Z_exact m ltac:(lia)) as (mz & ez & -> & Hd & He & Hv).
    exists mz, (ez - 53). rewrite (f64_mul_f53Mul mz ez Hd He).
    split; [reflexivity |]. split; [lia |]. split; [exact Hd |].
    rewrite Hv. do 2 f_equal. lia.
Qed.

(** X15. [RandFloat64] takes one raw value and returns, without any
    rounding, its low 53 bits [m] divided by [2^53]: [+0] when [m = 0] and
    otherwise the normal float [mz * 2^e] with a mantissa of 53 digits,
    [e <= -53] and [mz = m * 2^(-53 - e)]. The result is therefore at least
    [0] and strictly below [1], and raw values with different low 53 bits
    give different floats. *)
Theorem RandFloat64_in_unit_interval (st : state) :
  let r := u64 (raw st (drawn st)) in
  let m := r mod 2 ^ 53 in
  let f := fst (internal.RandFloat64 st) in
  snd (internal.RandFloat64 st) = set_drawn st (S (drawn st)) /\
  (m = 0 -> f = f64_zero) /\
  (m <> 0 -> exists mz e,
     f = S754_finite false mz e /\
     -105 <= e <= -53 /\ digits2_pos mz = 53%positive /\
     Zpos mz = m * 2 ^ (- 53 - e)) /\
  f64_le f64_zero f = true /\
  f64_lt f f64_one = true /\
  (forall r', internal.unit_float r' = f -> r' mod 2 ^ 53 = m).
Proof.
  intros r m f.
  assert (Ef : f = internal.unit_float r) by reflexivity.
  destruct (unit_float_value r) as [Hz Hnz]. fold m in Hz, Hnz.
  rewrite <- Ef in Hz, Hnz. clearbody f m. clear Ef.
  split; [reflexivity |]. split; [exact Hz |]. split; [exact Hnz |].
  destruct (Z.eq_dec m 0) as [E0 | Hne].
  - rewrite (Hz E0). split; [reflexivity |]. split; [reflexivity |].
    intros r' Hr'. rewrite E0.
    destruct (unit_float_value r') as [_ Hnz'].
    destruct (Z.eq_dec (r' mod 2 ^ 53) 0) as [E | Hne']; [exact E |].
    destruct (Hnz' Hne') as (mz & e & E & _).
    rewrite Hr' in E. discriminate E.
  - destruct (Hnz Hne) as (mz & e & E & He & Hd & Hv). rewrite E.
    split; [reflexivity |]. split.
    + unfold f64_lt, f64_one, SFltb, SFcompare.
      destruct (Z.compare_spec e (-52)); [lia | reflexivity | lia].
    + intros r' Hr'. destruct (unit_float_value r') as [Hz' Hnz'].
      destruct (Z.eq_dec (r' mod 2 ^ 53) 0) as [E' | Hne'].
      * rewrite (Hz' E') in Hr'. discriminate Hr'.
      * destruct (Hnz' Hne') as (mz' & e' & E' & He' & _ & Hv').
        rewrite Hr' in E'. injection E' as <- <-.
        rewrite Hv in Hv'.
        apply Z.mul_reg_r in Hv'; [symmetry; exact Hv' |].
        apply Z.pow_nonzero; lia.
Qed.

Lemma RandFloat64_in_unit_interval_witness :
  (exists mz e,
     fst (internal.RandFloat64 (st0 (fun _ => 2 ^ 53 + 3)))
     = S754_finite false mz e /\
     Zpos mz = 3 * 2 ^ (- 53 - e)) /\
  f64_lt (fst (internal.RandFloat64 (st0 (fun _ => 2 ^ 53 + 3)))) f64_one
  = true.
Proof.
  pose proof (RandFloat64_in_unit_interval (st0 (fun _ => 2 ^ 53 + 3))) as H.
  cbv zeta in H. destruct H as (_ & _ & Hnz & _ & Hlt & _).
  split; [| exact Hlt].
  destruct (Hnz ltac:(vm_compute; discriminate)) as (mz & e & E & _ & _ & Hv).
  exists mz, e. split; [exact E | exact Hv].
Defined.

(** ** The least chance of Potentially *)

(** X16. A [potentiallyP] part with a chance above zero includes its part
    whenever the low 53 bits of the raw value are all zero, since
    [RandFloat64] is then [0] and the test is [<=]: however small a
    positive chance [Potentially] is given, the part is included for one
    raw value in [2^53]. *)
Theorem Potentially_least_chance (c : float64) (q : Part) (st : state) (b : buf) :
  f64_lt f64_zero c = true ->
  u64 (raw st (drawn st)) mod 2 ^ 53 = 0 ->
  Append (potentiallyP q c) st b = Append q (set_drawn st (S (drawn st))) b.
Proof.
  intros Hc Hm. cbn [Append].
  unfold internal.RandFloat64, internal.Fastrand.
  destruct (unit_float_value (u64 (raw st (drawn st)))) as [Hz _].
  rewrite (Hz Hm).
  destruct c as [[] | [] | | [] mc ec]; try discriminate Hc; reflexivity.
Qed.

Lemma Potentially_least_chance_witness :
  Potentially (S754_finite false 1 (-1074)) (Literal "x")
  = Ok (potentiallyP (Literal "x") (S754_finite false 1 (-1074))) /\
  Append (potentiallyP (Literal "x") (S754_finite false 1 (-1074)))
         (st0 (fun _ => 2 ^ 53)) []
  = Ok (bytes "x", set_drawn (st0 (fun _ => 2 ^ 53)) 1).
Proof.
  split; [reflexivity |].
  rewrite (Potentially_least_chance (S754_finite false 1 (-1074)) (Literal "x")
             (st0 (fun _ => 2 ^ 53)) [] eq_refl eq_refl).
  reflexivity.
Defined.

(** ** Literals *)

Lemma string_of_list_ascii_app (a b : buf) :
  string_of_list_ascii (a ++ b)
  = String.append (string_of_list_ascii a) (string_of_list_ascii b).
Proof. induction a as [| x a IH]; cbn; [reflexivity | rewrite IH; reflexivity]. Qed.

Lemma New_loop_literals (ss : list string) (acc : list Part) :
  New_loop (map Literal ss) acc = acc ++ map Literal ss.
Proof.
  revert acc. induction ss as [| s ss IH]; intros acc; cbn [map New_loop].
  - rewrite app_nil_r. reflexivity.
  - unfold Literal at 1. rewrite IH, <- app_assoc. reflexivity.
Qed.

(** X17. A generator of literals returns their concatenation, and nothing
    else happens: no raw value is drawn and the state is the one the
    generation started in. Empty literals are allowed and add nothing. *)
Theorem literals_concatenate (ss : list string) (st : state) :
  gen_String (gen_parts (New (map Literal ss))) st
  = Ok (fold_right String.append EmptyString ss, st).
Proof.
  unfold New. cbn [gen_parts]. rewrite New_loop_literals. cbn [app].
  unfold gen_String.
  replace (map Literal ss) with (map literal (map list_ascii_of_string ss))
    by (rewrite map_map; reflexivity).
  rewrite appendAll_literals. cbn [app]. f_equal. f_equal.
  induction ss as [| s ss IH]; [reflexivity |].
  cbn [map concat fold_right].
  rewrite string_of_list_ascii_app, IH, string_of_list_ascii_of_string.
  reflexivity.
Qed.
